(** * Deployment lifecycle of the Pages end-to-end test driver

    A shallow embedding of [scripts/src/createDeployment.ts] and of the
    configuration merge of [scripts/src/setUpFeatures.ts]:

    - JavaScript objects as ordered association lists, with the own-key
      enumeration order of the language (array indices first, ascending,
      then the other keys in creation order);
    - the merged deployment configuration and the reconciliation of the
      remote project (update payload and post-write verification);
    - the two timer-driven polling loops as event-driven state machines;
    - the remote branch of [createDeployment] as a computation that
      records the calls it makes to its collaborators.

    Definitions come first, the properties proved about them second. *)

From Stdlib Require Import ZArith NArith Lia DecimalString.
From stdpp Require Import base decidable option list strings.

Open Scope string_scope.
Open Scope list_scope.

(** ** JavaScript objects used as string-keyed maps *)

Module JsObject.

(** An object is the list of its own enumerable properties, in the order
    [Object.keys] / [Object.entries] / spread enumerate them. *)
Definition obj (V : Type) : Type := list (string * V).

(** A key is an array index when it is the canonical decimal spelling of
    an integer below 2^32 - 1; such keys are enumerated before all others,
    in ascending numeric order. *)
Definition array_index (k : string) : option N :=
  match NilZero.uint_of_string k with
  | Some d =>
      let n := N.of_uint d in
      if bool_decide (NilZero.string_of_uint (N.to_uint n) = k)
         && (n <? 4294967295)%N
      then Some n else None
  | None => None
  end.

(** [o[k]], [None] standing for an absent property. *)
Fixpoint get {V} (k : string) (o : obj V) : option V :=
  match o with
  | [] => None
  | (k', v) :: o' => if decide (k = k') then Some v else get k o'
  end.

(** [Object.keys(o)] and [Object.entries(o)]. *)
Definition keys {V} (o : obj V) : list string := map fst o.
Definition entries {V} (o : obj V) : list (string * V) := o.

(** Overwriting an existing property keeps its place in the order. *)
Fixpoint replace {V} (k : string) (v : V) (o : obj V) : obj V :=
  match o with
  | [] => []
  | (k', v') :: o' =>
      if decide (k = k') then (k', v) :: o' else (k', v') :: replace k v o'
  end.

(** A new array-index key goes after the smaller indices and before the
    larger ones and the non-index keys. *)
Fixpoint insert_index {V} (n : N) (k : string) (v : V) (o : obj V) : obj V :=
  match o with
  | [] => [(k, v)]
  | (k', v') :: o' =>
      match array_index k' with
      | Some n' =>
          if (n <? n')%N then (k, v) :: o
          else (k', v') :: insert_index n k v o'
      | None => (k, v) :: o
      end
  end.

(** [CreateDataProperty(o, k, v)], the step behind spread,
    [Object.fromEntries] and [JSON.parse]. *)
Definition define {V} (k : string) (v : V) (o : obj V) : obj V :=
  match get k o with
  | Some _ => replace k v o
  | None =>
      match array_index k with
      | Some n => insert_index n k v o
      | None => o ++ [(k, v)]
      end
  end.

(** Copying the entries [src], in order, onto [target]. *)
Definition assign {V} (target : obj V) (src : list (string * V)) : obj V :=
  fold_left (fun acc kv => define kv.1 kv.2 acc) src target.

(** [Object.fromEntries(l)]. *)
Definition fromEntries {V} (l : list (string * V)) : obj V := assign [] l.

(** [a || {}] for a possibly [undefined] / [null] object; spreading
    [undefined] spreads nothing, so the same function serves [...a]. *)
Definition orEmpty {V} (a : option (obj V)) : obj V := default [] a.

(** The object literal [{ ...a, ...b }]. *)
Definition spread2 {V} (a b : obj V) : obj V :=
  assign (assign [] (entries a)) (entries b).

End JsObject.

Import JsObject.

(** ** Data model *)

(** [Environment] and [Trigger] of [./config]. *)
Inductive Environment := Local | Production | Staging.

Inductive Trigger := DirectUpload | GitIntegration (provider : string).

#[global] Instance Environment_eq_dec : EqDecision Environment.
Proof. solve_decision. Defined.

#[global] Instance Trigger_eq_dec : EqDecision Trigger.
Proof. solve_decision. Defined.

(** *** Remote value shapes (interface [Project]) *)

Record EnvVar := { type : string; value : string }.
Record D1Database := { id : string }.
Record Namespace := { namespace_id : string }.
Record Named := { name : string }.
Record Service := { service : string; environment : string }.
Record Dataset := { dataset : string }.

#[global] Instance EnvVar_eq_dec : EqDecision EnvVar.
Proof. solve_decision. Defined.
#[global] Instance D1Database_eq_dec : EqDecision D1Database.
Proof. solve_decision. Defined.
#[global] Instance Namespace_eq_dec : EqDecision Namespace.
Proof. solve_decision. Defined.
#[global] Instance Named_eq_dec : EqDecision Named.
Proof. solve_decision. Defined.
#[global] Instance Service_eq_dec : EqDecision Service.
Proof. solve_decision. Defined.
#[global] Instance Dataset_eq_dec : EqDecision Dataset.
Proof. solve_decision. Defined.

(** A category of the remote preview configuration: absent ([None], for
    [undefined] and [null] alike) or an object whose values are a remote
    shape or [null] ([None]); the update payload is of this type too and
    uses [null] to delete a binding. *)
Definition category (R : Type) : Type := option (obj (option R)).

(** The build configuration of a project as [JSON.parse] yields it. The
    cast to [Project] checks nothing, so a field the answer leaves out
    is [undefined] ([None]); the payload the code builds always carries
    strings. *)
Record BuildConfig := {
  build_command : option string;
  destination_dir : option string;
  root_dir : option string;
}.

Record Preview := {
  compatibility_date : string;
  compatibility_flags : list string;
  env_vars : category EnvVar;
  d1_databases : category D1Database;
  durable_object_namespaces : category Namespace;
  kv_namespaces : category Namespace;
  r2_buckets : category Named;
  services : category Service;
  queue_producers : category Named;
  analytics_engine_datasets : category Dataset;
}.

Record DeploymentConfigs := { preview : Preview }.

(** The optional [source] of a project is never read or written by the
    code and is left out. *)
Record Project := {
  build_config : BuildConfig;
  deployment_configs : DeploymentConfigs;
}.

(** *** Local descriptors (the fields the code reads of [./schemas]) *)

(** A binding declares one descriptor per environment: [value[environment]]. *)
Definition perEnvironment (X : Type) : Type := Environment -> X.

(** The environment-specific descriptor of a Durable Object or KV
    namespace; only its [id] is read. *)
Record NamespaceRef := { ns_id : string }.

(** The environment-specific descriptor of a service binding. *)
Record ServiceRef := { svc_name : string; svc_environment : string }.

(** The binding maps of a deployment configuration. [F] is [option] for
    the configurations read from fixture and feature files, where a map
    may be missing, and the identity for the combined configuration, all
    of whose maps are built by an object literal. *)
Record DeploymentConfigOf (F : Type -> Type) := {
  environmentVariables : F (obj string);
  d1Databases : F (obj (perEnvironment D1Database));
  durableObjectNamespaces : F (obj (perEnvironment NamespaceRef));
  kvNamespaces : F (obj (perEnvironment NamespaceRef));
  r2Buckets : F (obj (perEnvironment Named));
  services_ : F (obj (perEnvironment ServiceRef));
  queueProducers : F (obj (perEnvironment Named));
  analyticsEngineDatasets : F (obj (perEnvironment Named));
}.

Arguments environmentVariables {F} _.
Arguments d1Databases {F} _.
Arguments durableObjectNamespaces {F} _.
Arguments kvNamespaces {F} _.
Arguments r2Buckets {F} _.
Arguments services_ {F} _.
Arguments queueProducers {F} _.
Arguments analyticsEngineDatasets {F} _.

Definition DeploymentConfig : Type := DeploymentConfigOf option.
Definition CombinedDeploymentConfig : Type := DeploymentConfigOf (fun X => X).

Record FixtureBuildConfig := {
  buildCommand : option string;
  buildOutputDirectory : option string;
  rootDirectory : option string;
}.

(** [fixtureConfig]: [compatibilityDate] and [compatibilityFlags] sit next
    to the binding maps inside [deploymentConfig] in the source. *)
Record FixtureConfig := {
  buildConfig : FixtureBuildConfig;
  compatibilityDate : string;
  compatibilityFlags : list string;
  deploymentConfig : DeploymentConfig;
}.

(** [FeaturesConfig] of [setUpFeatures.ts]. *)
Record FeaturesConfig := { featuresDeploymentConfig : DeploymentConfig }.

(** A parsed [main.feature] file; only its [deploymentConfig] is merged. *)
Record FeatureConfig := {
  setup : option string;
  featureDeploymentConfig : DeploymentConfig;
}.

(** ** Config merger *)

(** [{ ...a, ...b }] for two possibly missing maps. *)
Definition merge {V} (a b : option (obj V)) : obj V :=
  spread2 (orEmpty a) (orEmpty b).

(** [setUpFeatures]: the initial [featuresConfig]. The literal has no
    [analyticsEngineDatasets] property. *)
Definition initialFeaturesConfig : FeaturesConfig :=
  {| featuresDeploymentConfig :=
       {| environmentVariables := Some [];
          d1Databases := Some [];
          durableObjectNamespaces := Some [];
          kvNamespaces := Some [];
          r2Buckets := Some [];
          services_ := Some [];
          queueProducers := Some [];
          analyticsEngineDatasets := None |} |}.

(** [setUpFeatures]: the assignment to [featuresConfig.deploymentConfig]
    in the body of the loop over the features. The new object literal
    again has no [analyticsEngineDatasets] property. *)
Definition addFeature (featuresConfig : FeaturesConfig) (config : FeatureConfig)
  : FeaturesConfig :=
  let acc := featuresDeploymentConfig featuresConfig in
  let new := featureDeploymentConfig config in
  {| featuresDeploymentConfig :=
       {| environmentVariables :=
            Some (merge (environmentVariables acc) (environmentVariables new));
          d1Databases := Some (merge (d1Databases acc) (d1Databases new));
          durableObjectNamespaces :=
            Some (merge (durableObjectNamespaces acc)
                        (durableObjectNamespaces new));
          kvNamespaces := Some (merge (kvNamespaces acc) (kvNamespaces new));
          r2Buckets := Some (merge (r2Buckets acc) (r2Buckets new));
          services_ := Some (merge (services_ acc) (services_ new));
          queueProducers :=
            Some (merge (queueProducers acc) (queueProducers new));
          analyticsEngineDatasets := None |} |}.

(** [setUpFeatures], as far as the returned [config] goes: [configs] are
    the parsed feature files in the order the features resolve to. *)
Definition setUpFeatures (configs : list FeatureConfig) : FeaturesConfig :=
  fold_left addFeature configs initialFeaturesConfig.

(** [createDeployment]: [combinedDeploymentConfig]. *)
Definition combinedDeploymentConfig
  (fixtureConfig : FixtureConfig) (featuresConfig : FeaturesConfig)
  : CombinedDeploymentConfig :=
  let fx := deploymentConfig fixtureConfig in
  let ft := featuresDeploymentConfig featuresConfig in
  {| environmentVariables :=
       merge (environmentVariables fx) (environmentVariables ft);
     d1Databases := merge (d1Databases fx) (d1Databases ft);
     durableObjectNamespaces :=
       merge (durableObjectNamespaces fx) (durableObjectNamespaces ft);
     kvNamespaces := merge (kvNamespaces fx) (kvNamespaces ft);
     r2Buckets := merge (r2Buckets fx) (r2Buckets ft);
     services_ := merge (services_ fx) (services_ ft);
     queueProducers := merge (queueProducers fx) (queueProducers ft);
     analyticsEngineDatasets :=
       merge (analyticsEngineDatasets fx) (analyticsEngineDatasets ft) |}.

(** ** Remote project reconciler: payload and verification *)

(** [x || ""] for an optional string: [undefined] and the empty string
    are both falsy. *)
Definition orEmptyString (x : option string) : string :=
  match x with
  | Some s => if decide (s = "") then "" else s
  | None => ""
  end.

(** The environment-specific remote representation of each kind of
    binding, as written in the [map] callbacks of [configureProject]. *)
Definition envVarToRemote (v : string) : EnvVar :=
  {| type := "plain_text"; value := v |}.

Definition selectEnvironment {X} (e : Environment) (v : perEnvironment X) : X :=
  v e.

Definition namespaceToRemote (e : Environment) (v : perEnvironment NamespaceRef)
  : Namespace :=
  {| namespace_id := ns_id (v e) |}.

Definition serviceToRemote (e : Environment) (v : perEnvironment ServiceRef)
  : Service :=
  {| service := svc_name (v e); environment := svc_environment (v e) |}.

Definition datasetToRemote (e : Environment) (v : perEnvironment Named)
  : Dataset :=
  {| dataset := name (v e) |}.

(** [Object.entries(desired).map(([name, value]) => [name, toRemote(value)])] *)
Definition remoteEntries {L R} (toRemote : L -> R) (desired : obj L)
  : list (string * option R) :=
  map (fun nv => (nv.1, Some (toRemote nv.2))) (entries desired).

(** One category of the update payload:
    [{ ...Object.fromEntries(Object.keys(initial || {}).map((name) => [name, null])),
       ...Object.fromEntries(Object.entries(desired).map(...)) }] *)
Definition categoryPatch {L R} (toRemote : L -> R)
  (initial : category R) (desired : obj L) : obj (option R) :=
  spread2
    (fromEntries (map (fun name => (name, None)) (keys (orEmpty initial))))
    (fromEntries (remoteEntries toRemote desired)).

(** [configureProject]: [updatePayload]. *)
Definition updatePayload (e : Environment) (fixtureConfig : FixtureConfig)
  (combined : CombinedDeploymentConfig) (initialProject : Project) : Project :=
  let initial := preview (deployment_configs initialProject) in
  {| build_config :=
       {| build_command :=
            Some (orEmptyString (buildCommand (buildConfig fixtureConfig)));
          destination_dir :=
            Some (orEmptyString
                    (buildOutputDirectory (buildConfig fixtureConfig)));
          root_dir :=
            Some (orEmptyString (rootDirectory (buildConfig fixtureConfig))) |};
     deployment_configs :=
       {| preview :=
            {| compatibility_date := compatibilityDate fixtureConfig;
               compatibility_flags := compatibilityFlags fixtureConfig;
               env_vars :=
                 Some (categoryPatch envVarToRemote (env_vars initial)
                         (environmentVariables combined));
               d1_databases :=
                 Some (categoryPatch (selectEnvironment e) (d1_databases initial)
                         (d1Databases combined));
               durable_object_namespaces :=
                 Some (categoryPatch (namespaceToRemote e)
                         (durable_object_namespaces initial)
                         (durableObjectNamespaces combined));
               kv_namespaces :=
                 Some (categoryPatch (namespaceToRemote e) (kv_namespaces initial)
                         (kvNamespaces combined));
               r2_buckets :=
                 Some (categoryPatch (selectEnvironment e) (r2_buckets initial)
                         (r2Buckets combined));
               services :=
                 Some (categoryPatch (serviceToRemote e) (services initial)
                         (services_ combined));
               queue_producers :=
                 Some (categoryPatch (selectEnvironment e) (queue_producers initial)
                         (queueProducers combined));
               analytics_engine_datasets :=
                 Some (categoryPatch (datasetToRemote e)
                         (analytics_engine_datasets initial)
                         (analyticsEngineDatasets combined)) |} |} |}.

(** An assertion of the verification block: the condition it tests and
    the message of the [AssertionError] it throws when the condition is
    false. [deepStrictEqual] on strings, arrays of strings and arrays of
    [[name, value]] entries of the typed shapes above is structural
    equality. *)
Definition assertion : Type := bool * string.

(** [actual === expected] for two values that are a string or
    [undefined]. *)
Definition strictEqual (actual expected : option string) : bool :=
  bool_decide (actual = expected).

Definition deepStrictEqual {A} `{EqDecision A} (actual expected : A) : bool :=
  bool_decide (actual = expected).

(** [Object.entries(project.deployment_configs.preview.<category> || {})]
    against the entries computed from the combined configuration. *)
Definition categoryMatches {L R} `{EqDecision R} (toRemote : L -> R)
  (actual : category R) (desired : obj L) : bool :=
  deepStrictEqual (entries (orEmpty actual)) (remoteEntries toRemote desired).

(** [configureProject]: the assertions made on the PATCH response, in
    source order. *)
Definition assertions (e : Environment) (fixtureConfig : FixtureConfig)
  (combined : CombinedDeploymentConfig) (project : Project) : list assertion :=
  let build := build_config project in
  let actual := preview (deployment_configs project) in
  [ (strictEqual (build_command build) (buildCommand (buildConfig fixtureConfig)),
     "Build command was not set correctly.");
    (strictEqual (destination_dir build)
       (buildOutputDirectory (buildConfig fixtureConfig)),
     "Build output directory was not set correctly.");
    (strictEqual (root_dir build) (rootDirectory (buildConfig fixtureConfig)),
     "Root directory was not set correctly.");
    (deepStrictEqual (compatibility_date actual) (compatibilityDate fixtureConfig),
     "Compatibility date was not set correctly.");
    (deepStrictEqual (compatibility_flags actual)
       (compatibilityFlags fixtureConfig),
     "Compatibility flags were not set correctly.");
    (categoryMatches envVarToRemote (env_vars actual)
       (environmentVariables combined),
     "Environment variables were not set correctly.");
    (categoryMatches (selectEnvironment e) (d1_databases actual)
       (d1Databases combined),
     "D1 database bindings were not set correctly.");
    (categoryMatches (namespaceToRemote e) (durable_object_namespaces actual)
       (durableObjectNamespaces combined),
     "Durable Object namespace bindings were not set correctly.");
    (categoryMatches (namespaceToRemote e) (kv_namespaces actual)
       (kvNamespaces combined),
     "KV namespace bindings were not set correctly.");
    (categoryMatches (selectEnvironment e) (r2_buckets actual)
       (r2Buckets combined),
     "R2 bucket bindings were not set correctly.");
    (categoryMatches (serviceToRemote e) (services actual) (services_ combined),
     "Service bindings were not set correctly.");
    (categoryMatches (selectEnvironment e) (queue_producers actual)
       (queueProducers combined),
     "Queue Producer bindings were not set correctly.");
    (categoryMatches (datasetToRemote e) (analytics_engine_datasets actual)
       (analyticsEngineDatasets combined),
     "Analytics Engine dataset bindings were not set correctly.") ].

(** Running the assertions in order: the message of the first one that
    fails, [None] when all hold. *)
Fixpoint firstFailure (checks : list assertion) : option string :=
  match checks with
  | [] => None
  | (holds, message) :: rest =>
      if holds then firstFailure rest else Some message
  end.

Definition verifyProject (e : Environment) (fixtureConfig : FixtureConfig)
  (combined : CombinedDeploymentConfig) (project : Project) : option string :=
  firstFailure (assertions e fixtureConfig combined project).

(** *** The binding categories, for statements that range over them *)

Inductive Category :=
| EnvVars | D1Databases | DurableObjectNamespaces | KvNamespaces
| R2Buckets | Services | QueueProducers | AnalyticsEngineDatasets.

(** The keys of a category of a remote project, in enumeration order. *)
Definition remoteKeys (c : Category) (project : Project) : list string :=
  let p := preview (deployment_configs project) in
  match c with
  | EnvVars => keys (orEmpty (env_vars p))
  | D1Databases => keys (orEmpty (d1_databases p))
  | DurableObjectNamespaces => keys (orEmpty (durable_object_namespaces p))
  | KvNamespaces => keys (orEmpty (kv_namespaces p))
  | R2Buckets => keys (orEmpty (r2_buckets p))
  | Services => keys (orEmpty (services p))
  | QueueProducers => keys (orEmpty (queue_producers p))
  | AnalyticsEngineDatasets => keys (orEmpty (analytics_engine_datasets p))
  end.

(** The keys of a category of the combined configuration. *)
Definition desiredKeys (c : Category) (combined : CombinedDeploymentConfig)
  : list string :=
  match c with
  | EnvVars => keys (environmentVariables combined)
  | D1Databases => keys (d1Databases combined)
  | DurableObjectNamespaces => keys (durableObjectNamespaces combined)
  | KvNamespaces => keys (kvNamespaces combined)
  | R2Buckets => keys (r2Buckets combined)
  | Services => keys (services_ combined)
  | QueueProducers => keys (queueProducers combined)
  | AnalyticsEngineDatasets => keys (analyticsEngineDatasets combined)
  end.

(** The place of a category's assertion in [assertions] and its message. *)
Definition categoryIndex (c : Category) : nat :=
  match c with
  | EnvVars => 5 | D1Databases => 6 | DurableObjectNamespaces => 7
  | KvNamespaces => 8 | R2Buckets => 9 | Services => 10
  | QueueProducers => 11 | AnalyticsEngineDatasets => 12
  end.

Definition categoryMessage (c : Category) : string :=
  match c with
  | EnvVars => "Environment variables were not set correctly."
  | D1Databases => "D1 database bindings were not set correctly."
  | DurableObjectNamespaces =>
      "Durable Object namespace bindings were not set correctly."
  | KvNamespaces => "KV namespace bindings were not set correctly."
  | R2Buckets => "R2 bucket bindings were not set correctly."
  | Services => "Service bindings were not set correctly."
  | QueueProducers => "Queue Producer bindings were not set correctly."
  | AnalyticsEngineDatasets =>
      "Analytics Engine dataset bindings were not set correctly."
  end.

(** ** Errors, HTTP exchanges and the logger *)

(** What [fetch] resolves to; the code reads nothing of it but hands it to
    the error helper. *)
Record Response := { status : Z; statusText : string }.

(** The values the code throws or rejects with. *)
Inductive Error :=
| JsError (message : string)
| AssertionError (message : string)
| Thrown (what : string)
| ResponseError (response : option Response) (text : option string)
    (context : Context)
with Context :=
| NoMessage
| Message (message : string)
| Stringified (thrown : Error).

(** Modelled from the spec: [transformResponseIntoError] of [./utils] is
    not part of the sources at hand; the spec has it turn a response into
    a structured error carrying the HTTP status and raw body text plus a
    caller-supplied context message. *)
Definition transformResponseIntoError (response : option Response)
  (text : option string) (context : Context) : Error :=
  ResponseError response text context.

(** One guarded exchange [fetch] / [response.text()] / [JSON.parse] and
    destructuring, as far as it got; [A] is what the code extracts from
    the parsed body. *)
Inductive Fetched (A : Type) :=
| FetchThrew
| TextThrew (response : Response)
| Unparsable (response : Response) (text : string)
| Parsed (response : Response) (text : string) (result : A).

Arguments FetchThrew {A}.
Arguments TextThrew {A} _.
Arguments Unparsable {A} _ _.
Arguments Parsed {A} _ _ _.

(** The [response] and [text] variables a [catch] block sees. *)
Definition responseOf {A} (f : Fetched A) : option Response :=
  match f with
  | FetchThrew => None
  | TextThrew r | Unparsable r _ | Parsed r _ _ => Some r
  end.

Definition textOf {A} (f : Fetched A) : option string :=
  match f with
  | FetchThrew | TextThrew _ => None
  | Unparsable _ t | Parsed _ t _ => Some t
  end.

Inductive Level := log | info | warn | error | debug.

Inductive Logged :=
| LogText (level : Level) (message : string)
| LogError (level : Level) (e : Error).

(** A number inside a template literal. *)
Definition show (z : Z) : string := NilZero.string_of_int (Z.to_int z).

(** The constants of [./config] the pollers read. *)
Record Constants := {
  DEPLOYMENT_CHECK_API_FAILURES_THRESHOLD : Z;
  DEPLOYMENT_CHECK_INTERVAL : Z;
  DEPLOYMENT_TIMEOUT : Z;
  PROVISIONER_CHECK_INTERVAL : Z;
  PROVISIONER_TIMEOUT : Z;
}.

Record Host := { api : string; dash : string }.

Record PagesProjectCredentials := {
  CLOUDFLARE_ACCOUNT_ID : string;
  PROJECT_NAME : string;
  CLOUDFLARE_API_TOKEN : string;
  GIT_REPO : option string;
}.

(** The promise a polling loop awaits. *)
Inductive Outcome (A : Type) :=
| Pending
| Resolved (a : A)
| Rejected (e : Error).

Arguments Pending {A}.
Arguments Resolved {A} _.
Arguments Rejected {A} _.

(** [resolve] and [reject] act on a pending promise only. *)
Definition settle {A} (new old : Outcome A) : Outcome A :=
  match old with
  | Pending => new
  | _ => old
  end.

(** ** Deployment poller *)

Module DeploymentPoller.

Record LatestStage := { stage_name : string; stage_status : string }.

(** [result] of a [DeploymentResponse]. *)
Record DeploymentResult := { url : string; latest_stage : LatestStage }.

(** What the interval callback closes over. *)
Record Closure := {
  constants : Constants;
  host : Host;
  pagesProject : PagesProjectCredentials;
  deploymentId : string;
  startDeployment : Z;
}.

Record State := {
  outcome : Outcome string;
  intervalActive : bool;
  notOkResponses : Z;
  awaitingError : list Error;
  unhandledRejections : list Error;
  fetchesStarted : nat;
  logged : list Logged;
}.

(** The state when [createDeployment] starts to await the outcome. *)
Definition initial : State :=
  {| outcome := Pending; intervalActive := true; notOkResponses := 0;
     awaitingError := []; unhandledRejections := []; fetchesStarted := 0;
     logged := [] |}.

(** What the event loop runs next: the interval callback at a given
    [Date.now()]; the continuation of one of the asynchronous bodies once
    its response has arrived; the continuation, inside [catch], of the
    [n]-th body that waits for [transformResponseIntoError]. *)
Inductive Event :=
| TimerFired (now : Z)
| ResponseArrived (r : Fetched DeploymentResult)
| ErrorTransformed (n : nat).

Definition resolveWithDeploymentSuccess (u : string) (s : State) : State :=
  {| outcome := settle (Resolved u) (outcome s); intervalActive := false;
     notOkResponses := notOkResponses s; awaitingError := awaitingError s;
     unhandledRejections := unhandledRejections s;
     fetchesStarted := fetchesStarted s; logged := logged s |}.

Definition rejectWithDeploymentFailure (e : Error) (s : State) : State :=
  {| outcome := settle (Rejected e) (outcome s); intervalActive := false;
     notOkResponses := notOkResponses s; awaitingError := awaitingError s;
     unhandledRejections := unhandledRejections s;
     fetchesStarted := fetchesStarted s; logged := logged s |}.

Definition logger (entries : list Logged) (s : State) : State :=
  {| outcome := outcome s; intervalActive := intervalActive s;
     notOkResponses := notOkResponses s; awaitingError := awaitingError s;
     unhandledRejections := unhandledRejections s;
     fetchesStarted := fetchesStarted s; logged := logged s ++ entries |}.

Definition timeoutError (c : Closure) : Error :=
  JsError ("Deployment did not complete within the timeout of "
           +:+ show (DEPLOYMENT_TIMEOUT (constants c)) +:+ " ms.").

Definition failureError (c : Closure) (stage : LatestStage) : Error :=
  JsError ("Deployment " +:+ deploymentId c +:+ " has failed.

Stage: " +:+ stage_name stage +:+ "
Status: " +:+ stage_status stage +:+ "

" +:+ dash (host c) +:+ "/" +:+ CLOUDFLARE_ACCOUNT_ID (pagesProject c)
    +:+ "/pages/view/" +:+ PROJECT_NAME (pagesProject c)
    +:+ "/" +:+ deploymentId c).

(** The synchronous part of the interval callback: the timeout check,
    then the launch of the asynchronous body (which starts its fetch). *)
Definition tick (c : Closure) (now : Z) (s : State) : State :=
  let s1 :=
    if (now >? startDeployment c + DEPLOYMENT_TIMEOUT (constants c))%Z
    then rejectWithDeploymentFailure (timeoutError c) s
    else s in
  {| outcome := outcome s1; intervalActive := intervalActive s1;
     notOkResponses := notOkResponses s1; awaitingError := awaitingError s1;
     unhandledRejections := unhandledRejections s1;
     fetchesStarted := S (fetchesStarted s1); logged := logged s1 |}.

(** The [if] / [else if] / [else] on the latest stage. *)
Definition classify (c : Closure) (d : DeploymentResult) (s : State) : State :=
  let stage := latest_stage d in
  if bool_decide (stage_name stage = "deploy")
     && bool_decide (stage_status stage = "success")
  then resolveWithDeploymentSuccess (url d) s
  else if negb (bool_decide (stage_status stage ∈ ["idle"; "active"; "success"]))
  then rejectWithDeploymentFailure (failureError c stage) s
  else logger [LogText debug ("Deployment is ongoing. Stage: "
                              +:+ stage_name stage +:+ ". Status: "
                              +:+ stage_status stage +:+ ".")] s.

(** Entering [catch]: the counter goes up and the body waits for the
    error helper. *)
Definition caught (c : Closure) (r : Fetched DeploymentResult) (s : State)
  : State :=
  let n := (notOkResponses s + 1)%Z in
  let e :=
    transformResponseIntoError (responseOf r) (textOf r)
      (Message ("Could not parse Deployment API response. Not-OK API response "
                +:+ show n +:+ " of "
                +:+ show (DEPLOYMENT_CHECK_API_FAILURES_THRESHOLD (constants c))
                +:+ ".")) in
  {| outcome := outcome s; intervalActive := intervalActive s;
     notOkResponses := n; awaitingError := awaitingError s ++ [e];
     unhandledRejections := unhandledRejections s;
     fetchesStarted := fetchesStarted s; logged := logged s |}.

(** The [try] block after the two awaits: [ok(url)], [ok(latestStage.status)]
    (an empty string is falsy), then the classification. *)
Definition arrived (c : Closure) (r : Fetched DeploymentResult) (s : State)
  : State :=
  match r with
  | Parsed _ _ d =>
      if bool_decide (url d = "") || bool_decide (stage_status (latest_stage d) = "")
      then caught c r s
      else classify c d s
  | _ => caught c r s
  end.

(** The rest of [catch], after the error helper has answered. The [throw]
    rejects the promise of the asynchronous body, which nothing awaits. *)
Definition transformed (c : Closure) (n : nat) (s : State) : State :=
  match awaitingError s !! n with
  | None => s
  | Some e =>
      let threshold := DEPLOYMENT_CHECK_API_FAILURES_THRESHOLD (constants c) in
      let exceeded := (notOkResponses s >? threshold)%Z in
      {| outcome := outcome s; intervalActive := intervalActive s;
         notOkResponses := notOkResponses s;
         awaitingError := delete n (awaitingError s);
         unhandledRejections :=
           if exceeded then unhandledRejections s ++ [e]
           else unhandledRejections s;
         fetchesStarted := fetchesStarted s;
         logged :=
           logged s ++
           if exceeded
           then [LogText error
                   ("Number of not-OK Deployment API responses exceeded allowed threshold "
                    +:+ show threshold +:+ ". Erroring...")]
           else [LogText debug
                   ("Received a not-OK Deployment API response, "
                    +:+ show (notOkResponses s) +:+ " of a maximum "
                    +:+ show threshold +:+ ". Suppressing error...");
                 LogError debug e] |}
  end.

(** One turn of the event loop. A cleared interval does not fire. *)
Definition step (c : Closure) (s : State) (ev : Event) : State :=
  match ev with
  | TimerFired now => if intervalActive s then tick c now s else s
  | ResponseArrived r => arrived c r s
  | ErrorTransformed n => transformed c n s
  end.

Definition run (c : Closure) (s : State) (evs : list Event) : State :=
  fold_left (step c) evs s.

(** A tick whose fetch is answered before anything else happens, and the
    two turns a failed one takes when it is the only body in [catch]. *)
Definition answered (now : Z) (r : Fetched DeploymentResult) : list Event :=
  [TimerFired now; ResponseArrived r].

Definition failed (now : Z) (r : Fetched DeploymentResult) : list Event :=
  [TimerFired now; ResponseArrived r; ErrorTransformed 0].

(** The interval is cleared exactly when the promise is settled. *)
Definition consistent (s : State) : Prop :=
  intervalActive s = true ↔ outcome s = Pending.

End DeploymentPoller.

(** ** Edge-availability poller *)

Module EdgePoller.

Record Closure := {
  constants : Constants;
  startProvisioner : Z;
}.

Record State := {
  outcome : Outcome unit;
  intervalActive : bool;
  probesStarted : nat;
  logged : list Logged;
}.

Definition initial : State :=
  {| outcome := Pending; intervalActive := true; probesStarted := 0;
     logged := [] |}.

(** How the [try] block of one asynchronous body ends: [fetch(url)] or
    [responseIsNotProvisioned] threw, or the predicate answered. *)
Inductive Probe :=
| ProbeThrew
| ProbeAnswered (deploymentIsNotProvisioned : bool).

Inductive Event :=
| TimerFired (now : Z)
| ProbeSettled (p : Probe).

Definition resolveWithProvisionerSuccess (s : State) : State :=
  {| outcome := settle (Resolved tt) (outcome s); intervalActive := false;
     probesStarted := probesStarted s; logged := logged s |}.

Definition rejectWithProvisionerFailure (e : Error) (s : State) : State :=
  {| outcome := settle (Rejected e) (outcome s); intervalActive := false;
     probesStarted := probesStarted s; logged := logged s |}.

Definition logger (entries : list Logged) (s : State) : State :=
  {| outcome := outcome s; intervalActive := intervalActive s;
     probesStarted := probesStarted s; logged := logged s ++ entries |}.

Definition timeoutError (c : Closure) : Error :=
  JsError ("Deployment was not available at the edge within the timeout of "
           +:+ show (PROVISIONER_TIMEOUT (constants c)) +:+ " ms.").

Definition tick (c : Closure) (now : Z) (s : State) : State :=
  let s1 :=
    if (now >? startProvisioner c + PROVISIONER_TIMEOUT (constants c))%Z
    then rejectWithProvisionerFailure (timeoutError c) s
    else s in
  {| outcome := outcome s1; intervalActive := intervalActive s1;
     probesStarted := S (probesStarted s1); logged := logged s1 |}.

Definition settled (p : Probe) (s : State) : State :=
  match p with
  | ProbeAnswered true =>
      logger [LogText debug "Deployment is not yet available at the edge."] s
  | ProbeAnswered false => resolveWithProvisionerSuccess s
  | ProbeThrew => logger [LogText debug "Could not check the deployment URL."] s
  end.

Definition step (c : Closure) (s : State) (ev : Event) : State :=
  match ev with
  | TimerFired now => if intervalActive s then tick c now s else s
  | ProbeSettled p => settled p s
  end.

Definition run (c : Closure) (s : State) (evs : list Event) : State :=
  fold_left (step c) evs s.

End EdgePoller.

(** ** The orchestration: [createDeployment] *)

Record Mutex := { lease : string }.

Inductive Script :=
| GitCommit (directory branch message : string)
| GitPush (directory repo branch : string)
| GitDeleteBranch (directory branch : string)
| Build (rootDirectory command : string).

Inductive Body :=
| NoBody
| DeployHookBody (name branch : string)
| ProjectBody (payload : Project).

Inductive Interval := DeploymentCheck | ProvisionerCheck.

(** The calls [createDeployment] makes to its collaborators, in the order
    it makes them. Request headers are left out, and so are the values a
    logger call prints after its message. *)
Inductive Call :=
| Logger (entry : Logged)
| Shell (script : Script)
| RegisterTeardown (name : string)
| Http (method url : string) (body : Body)
| AcquireMutex (key : string)
| ReleaseMutex (mutex : Mutex)
| SetInterval (which : Interval)
| WranglerPagesDev (rootDirectory buildOutputDirectory : string)
    (arguments : list string).

(** How an [async] function ends: it returns, it throws, or it is still
    awaiting a promise when the recorded events run out. *)
Inductive Completion (A : Type) :=
| Returned (a : A)
| Threw (e : Error)
| Awaiting.

Arguments Returned {A} _.
Arguments Threw {A} _.
Arguments Awaiting {A}.

(** A computation: the calls made so far and how it ended. *)
Definition Run (A : Type) : Type := list Call * Completion A.

#[global] Instance Run_ret : MRet Run := fun A a => ([], Returned a).

#[global] Instance Run_bind : MBind Run := fun A B k m =>
  match m with
  | (calls, Returned a) => let r := k a in (calls ++ r.1, r.2)
  | (calls, Threw e) => (calls, Threw e)
  | (calls, Awaiting) => (calls, Awaiting)
  end.

Definition throw {A} (e : Error) : Run A := ([], Threw e).

Definition call (c : Call) : Run unit := ([c], Returned tt).

Definition say (level : Level) (message : string) : Run unit :=
  call (Logger (LogText level message)).

(** [try { m } catch (thrown) { handler(thrown) }] *)
Definition tryCatch {A} (m : Run A) (handler : Error -> Run A) : Run A :=
  match m with
  | (calls, Threw e) => let r := handler e in (calls ++ r.1, r.2)
  | _ => m
  end.

(** [await] of a poller's promise. *)
Definition await {A} (o : Outcome A) : Run A :=
  match o with
  | Resolved a => mret a
  | Rejected e => throw e
  | Pending => ([], Awaiting)
  end.

(** [assert.ok(value)] without a message. *)
Definition ok (holds : bool) : Run unit :=
  if holds then mret tt
  else throw (AssertionError "The expression evaluated to a falsy value").

(** The tables and addresses of [./config] and the pieces of the
    JavaScript runtime the orchestration calls. *)
Record Config := {
  constants : Constants;
  HOSTS : Environment -> option Host;
  PAGES_PROJECTS : Environment -> Trigger -> option PagesProjectCredentials;
  GIT_USERNAME : string;
  GIT_EMAIL_ADDRESS : string;
  encodeURIComponent : string -> string;
  join : string -> string -> string;
}.

(** What the collaborators answer during one run. *)
Record World := {
  gitCommitted : option Error;
  gitPushed : option Error;
  deployHookCreation : Fetched (option string);
  mutexAcquisition : Error + Mutex;
  initialProjectState : Fetched (option Project);
  patchedProject : Fetched (option Project);
  deployHookFired : Fetched (option string);
  mutexRelease : option Error;
  startDeployment : Z;
  deploymentEvents : list DeploymentPoller.Event;
  startProvisioner : Z;
  provisionerEvents : list EdgePoller.Event;
  built : option Error;
  wranglerStarted : Error + string;
}.

(** A shell script: the call, then what the shell made of it. *)
Definition shell (script : Script) (answer : option Error) : Run unit :=
  call (Shell script) ;;
  match answer with
  | Some e => throw e
  | None => mret tt
  end.

Definition projectUrl (h : Host) (p : PagesProjectCredentials) : string :=
  api h +:+ "/client/v4/accounts/" +:+ CLOUDFLARE_ACCOUNT_ID p
  +:+ "/pages/projects/" +:+ PROJECT_NAME p.

(** A string read out of a parsed body and checked with [ok(...)]: it has
    to be there and not be empty. *)
Definition truthy (f : Fetched (option string)) : option string :=
  match f with
  | Parsed _ _ (Some s) => if decide (s = "") then None else Some s
  | _ => None
  end.

(** [ok(value)] on a value that may be missing or an empty string. *)
Definition required (value : option string) : Run string :=
  match value with
  | Some s => ok (negb (bool_decide (s = ""))) ;; mret s
  | None => ok false ;; mret ""
  end.

(** [ok(value)] on a table entry that may be missing. *)
Definition present {A} (value : option A) (fallback : A) : Run A :=
  match value with
  | Some a => mret a
  | None => ok false ;; mret fallback
  end.

(** [configureProject]. *)
Definition configureProject (w : World) (e : Environment) (h : Host)
  (projectCredentials : PagesProjectCredentials) (fixtureConfig : FixtureConfig)
  (combined : CombinedDeploymentConfig) : Run Project :=
  ok (bool_decide (e ∈ [Production; Staging])) ;;
  say log "Configuring project..." ;;
  say info "Getting initial project state..." ;;
  call (Http "GET" (projectUrl h projectCredentials) NoBody) ;;
  initialProject ←
    match initialProjectState w with
    | Parsed _ _ (Some p) => mret p
    | f => throw (transformResponseIntoError (responseOf f) (textOf f) NoMessage)
    end;
  say info "Done." ;;
  say info "Computing required changes..." ;;
  let payload := updatePayload e fixtureConfig combined initialProject in
  say info "Done." ;;
  say info "Updating project..." ;;
  call (Http "PATCH" (projectUrl h projectCredentials) (ProjectBody payload)) ;;
  project ←
    match patchedProject w with
    | Parsed r t (Some project) =>
        match verifyProject e fixtureConfig combined project with
        | None => mret project
        | Some message =>
            throw (transformResponseIntoError (Some r) (Some t)
                     (Stringified (AssertionError message)))
        end
    | Parsed r t None =>
        throw (transformResponseIntoError (Some r) (Some t)
                 (Stringified (Thrown "TypeError")))
    | Unparsable r t =>
        throw (transformResponseIntoError (Some r) (Some t)
                 (Stringified (Thrown "JSON.parse")))
    | TextThrew r =>
        throw (transformResponseIntoError (Some r) None
                 (Stringified (Thrown "text")))
    | FetchThrew =>
        throw (transformResponseIntoError None None
                 (Stringified (Thrown "fetch")))
    end;
  say info "Done." ;;
  mret project.

(** [waitForDeploymentToBeProvisioned]. *)
Definition waitForDeploymentToBeProvisioned (cfg : Config) (w : World)
  (url : string) : Run unit :=
  say log ("Awaiting " +:+ url +:+ " to be live at the edge...") ;;
  call (SetInterval ProvisionerCheck) ;;
  await (EdgePoller.outcome
           (EdgePoller.run
              {| EdgePoller.constants := constants cfg;
                 EdgePoller.startProvisioner := startProvisioner w |}
              EdgePoller.initial (provisionerEvents w))) ;;
  say log "Deployment available.".

(** The keys of [{ ...a, ...b, ...c, ...d }], whatever the values are. *)
Definition unit_values {V} (o : obj V) : list (string * unit) :=
  map (fun kv => (kv.1, tt)) (entries o).

(** [createDeployment], the branch [environment === Environment.Local]. *)
Definition localDeployment (cfg : Config) (w : World)
  (fixtureConfig : FixtureConfig) (combined : CombinedDeploymentConfig)
  (directory : string) : Run string :=
  say log "Building project..." ;;
  root ←
    match rootDirectory (buildConfig fixtureConfig) with
    | Some d => mret (join cfg directory d)
    | None => throw (Thrown "TypeError")
    end;
  (match buildCommand (buildConfig fixtureConfig) with
   | Some command =>
       if decide (command = "")
       then say info "No build command specified, continuing..."
       else say info ("Running build command: `" +:+ command +:+ "`...") ;;
            shell (Build root command) (built w)
   | None => say info "No build command specified, continuing..."
   end) ;;
  say info "Done." ;;
  say log "Starting Wrangler..." ;;
  (if bool_decide
        (keys (assign (assign (assign (assign []
           (unit_values (durableObjectNamespaces combined)))
           (unit_values (services_ combined)))
           (unit_values (queueProducers combined)))
           (unit_values (analyticsEngineDatasets combined))) = [])
   then mret tt
   else say warn "Wrangler does not yet support Durable Objects, Services, Queue Producers, or Analytics Engine Datasets in local mode.") ;;
  output ←
    match buildOutputDirectory (buildConfig fixtureConfig) with
    | Some d => mret (join cfg root d)
    | None => throw (Thrown "TypeError")
    end;
  call (WranglerPagesDev root output
          (("--compatibility-date=" +:+ compatibilityDate fixtureConfig)
           :: map (fun flag => "--compatibility-flag=" +:+ flag)
                (compatibilityFlags fixtureConfig)
           ++ map (fun nv => "--binding=" +:+ nv.1 +:+ "=" +:+ nv.2)
                (entries (environmentVariables combined))
           ++ map (fun name => "--d1=" +:+ name) (keys (d1Databases combined))
           ++ map (fun name => "--kv=" +:+ name) (keys (kvNamespaces combined))
           ++ map (fun name => "--r2=" +:+ name) (keys (r2Buckets combined)))) ;;
  url ←
    match wranglerStarted w with
    | inl e => throw e
    | inr url => mret url
    end;
  say info "Done." ;;
  mret url.

(** [createDeployment], inside [trigger !== Trigger.DirectUpload]: from
    the push of the branch to the release of the mutex. It yields the id
    of the deployment the deploy hook created. *)
Definition triggerDeployment (cfg : Config) (w : World) (e : Environment)
  (h : Host) (pagesProject : PagesProjectCredentials)
  (fixtureConfig : FixtureConfig) (combined : CombinedDeploymentConfig)
  (directory gitBranchName : string) : Run string :=
  repo ← required (GIT_REPO pagesProject);
  say log ("Configuring " +:+ repo +:+ " remote, and pushing...") ;;
  shell (GitPush directory repo gitBranchName) (gitPushed w) ;;
  say info "Done." ;;
  call (RegisterTeardown "Delete Git branch") ;;
  say log "Creating Deploy Hook..." ;;
  call (Http "POST" (projectUrl h pagesProject +:+ "/deploy_hooks")
          (DeployHookBody gitBranchName gitBranchName)) ;;
  deployHookId ←
    match truthy (deployHookCreation w) with
    | Some hookId => mret hookId
    | None =>
        throw (transformResponseIntoError (responseOf (deployHookCreation w))
                 (textOf (deployHookCreation w))
                 (Message "Could not create Deploy Hook."))
    end;
  say info "Created Deploy Hook." ;;
  call (RegisterTeardown "Delete Deploy Hook") ;;
  let mutexKey :=
    encodeURIComponent cfg
      (api h +:+ ":" +:+ CLOUDFLARE_ACCOUNT_ID pagesProject
       +:+ ":" +:+ PROJECT_NAME pagesProject) in
  say log ("Aquiring Mutex for `" +:+ mutexKey +:+ "`...") ;;
  call (AcquireMutex mutexKey) ;;
  mutex ←
    match mutexAcquisition w with
    | inl thrown => throw thrown
    | inr m => mret m
    end;
  say info "Done." ;;
  configureProject w e h pagesProject fixtureConfig combined ;;
  say log ("Creating Deployment with Deploy Hook " +:+ deployHookId +:+ "...") ;;
  call (Http "POST"
          (api h +:+ "/client/v4/pages/webhooks/deploy_hooks/" +:+ deployHookId)
          NoBody) ;;
  id ←
    match truthy (deployHookFired w) with
    | Some id => mret id
    | None =>
        throw (transformResponseIntoError (responseOf (deployHookFired w))
                 (textOf (deployHookFired w))
                 (Message "Could not create Deployment."))
    end;
  say info "Created Deployment." ;;
  say log "Releasing Mutex..." ;;
  tryCatch
    (call (ReleaseMutex mutex) ;;
     match mutexRelease w with
     | Some thrown => throw thrown
     | None => mret tt
     end)
    (fun thrown => call (Logger (LogError warn thrown))) ;;
  say info "Done." ;;
  mret id.

(** [createDeployment], from the start of the deployment check interval
    to the end of the remote branch. *)
Definition awaitDeployment (cfg : Config) (w : World) (e : Environment)
  (h : Host) (pagesProject : PagesProjectCredentials) (id : string)
  : Run string :=
  say log ("Awaiting Deployment " +:+ id +:+ " completion...") ;;
  call (SetInterval DeploymentCheck) ;;
  url ←
    await (DeploymentPoller.outcome
             (DeploymentPoller.run
                {| DeploymentPoller.constants := constants cfg;
                   DeploymentPoller.host := h;
                   DeploymentPoller.pagesProject := pagesProject;
                   DeploymentPoller.deploymentId := id;
                   DeploymentPoller.startDeployment := startDeployment w |}
                DeploymentPoller.initial (deploymentEvents w)));
  say log "Deployment complete." ;;
  (if decide (e = Production)
   then waitForDeploymentToBeProvisioned cfg w url
   else mret tt) ;;
  mret url.

(** [createDeployment], the branch for a remote environment. With the
    direct-upload trigger nothing is created and [id] stays [undefined]. *)
Definition remoteDeployment (cfg : Config) (w : World) (e : Environment)
  (trigger : Trigger) (fixtureConfig : FixtureConfig)
  (combined : CombinedDeploymentConfig) (directory gitBranchName : string)
  : Run string :=
  h ← present (HOSTS cfg e) {| api := ""; dash := "" |};
  pagesProject ←
    present (PAGES_PROJECTS cfg e trigger)
      {| CLOUDFLARE_ACCOUNT_ID := ""; PROJECT_NAME := "";
         CLOUDFLARE_API_TOKEN := ""; GIT_REPO := None |};
  id ←
    (if decide (trigger = DirectUpload)
     then mret "undefined"
     else triggerDeployment cfg w e h pagesProject fixtureConfig combined
            directory gitBranchName);
  awaitDeployment cfg w e h pagesProject id.

(** [createDeployment]. *)
Definition createDeployment (cfg : Config) (w : World) (timestamp : Z)
  (e : Environment) (trigger : Trigger) (fixture : string)
  (fixtureConfig : FixtureConfig) (featuresConfig : FeaturesConfig)
  (directory : string) : Run string :=
  let gitBranchName := fixture +:+ "-" +:+ show timestamp in
  let gitCommitMessage := fixture +:+ " @ " +:+ show timestamp in
  say log ("Creating Git repo in " +:+ directory
           +:+ ", hecking out orphan branch " +:+ gitBranchName
           +:+ ", adding files, committing, and cleaning...") ;;
  shell (GitCommit directory gitBranchName gitCommitMessage) (gitCommitted w) ;;
  let combined := combinedDeploymentConfig fixtureConfig featuresConfig in
  if decide (e = Local)
  then localDeployment cfg w fixtureConfig combined directory
  else remoteDeployment cfg w e trigger fixtureConfig combined directory
         gitBranchName.

(** The calls of a run without the logger's. *)
Definition isEffect (c : Call) : bool :=
  match c with
  | Logger _ => false
  | _ => true
  end.

Definition effects (calls : list Call) : list Call := List.filter isEffect calls.

(** ** Statements about the payload and the merge *)

(** What the spec asks of one category of the update payload: an object
    with unique keys in which every desired key carries its remote value,
    every key that is only remote carries [null], and no other key occurs. *)
Definition isPatch {L R} (toRemote : L -> R) (initial : category R)
  (desired : obj L) (patch : category R) : Prop :=
  ∃ p, patch = Some p ∧ NoDup (keys p) ∧
    (∀ k v, get k desired = Some v → get k p = Some (Some (toRemote v))) ∧
    (∀ k, k ∈ keys (orEmpty initial) → get k desired = None →
          get k p = Some None) ∧
    (∀ k, k ∉ keys (orEmpty initial) → get k desired = None → get k p = None).

(** The value a shallow key-wise union of [inputs], walked in order, has
    at [k]: that of the last input that defines [k]. *)
Definition lastDefined {V} (k : string) (inputs : list (option (obj V)))
  : option V :=
  fold_left
    (fun found input =>
       match get k (orEmpty input) with Some v => Some v | None => found end)
    inputs None.

(** A fixture without bindings and a feature that binds one Analytics
    Engine dataset. *)
Definition noBindings : DeploymentConfig :=
  {| environmentVariables := None; d1Databases := None;
     durableObjectNamespaces := None; kvNamespaces := None;
     r2Buckets := None; services_ := None; queueProducers := None;
     analyticsEngineDatasets := None |}.

Definition plainFixture : FixtureConfig :=
  {| buildConfig :=
       {| buildCommand := Some "npm run build";
          buildOutputDirectory := Some "dist";
          rootDirectory := Some "" |};
     compatibilityDate := "2023-01-01";
     compatibilityFlags := [];
     deploymentConfig := noBindings |}.

Definition analyticsFeature : FeatureConfig :=
  {| setup := None;
     featureDeploymentConfig :=
       {| environmentVariables := None; d1Databases := None;
          durableObjectNamespaces := None; kvNamespaces := None;
          r2Buckets := None; services_ := None; queueProducers := None;
          analyticsEngineDatasets :=
            Some [("AE", fun _ => {| name := "dataset" |})] |} |}.

(** Every map of a configuration read from a file is an object: no key
    occurs twice. *)
Definition wellFormed (d : DeploymentConfig) : Prop :=
  NoDup (keys (orEmpty (environmentVariables d)))
  ∧ NoDup (keys (orEmpty (d1Databases d)))
  ∧ NoDup (keys (orEmpty (durableObjectNamespaces d)))
  ∧ NoDup (keys (orEmpty (kvNamespaces d)))
  ∧ NoDup (keys (orEmpty (r2Buckets d)))
  ∧ NoDup (keys (orEmpty (services_ d)))
  ∧ NoDup (keys (orEmpty (queueProducers d)))
  ∧ NoDup (keys (orEmpty (analyticsEngineDatasets d))).

(** ** Statements about the verification *)

(** The condition of a category's assertion. *)
Definition categoryHolds (c : Category) (e : Environment)
  (combined : CombinedDeploymentConfig) (project : Project) : bool :=
  let actual := preview (deployment_configs project) in
  match c with
  | EnvVars =>
      categoryMatches envVarToRemote (env_vars actual)
        (environmentVariables combined)
  | D1Databases =>
      categoryMatches (selectEnvironment e) (d1_databases actual)
        (d1Databases combined)
  | DurableObjectNamespaces =>
      categoryMatches (namespaceToRemote e) (durable_object_namespaces actual)
        (durableObjectNamespaces combined)
  | KvNamespaces =>
      categoryMatches (namespaceToRemote e) (kv_namespaces actual)
        (kvNamespaces combined)
  | R2Buckets =>
      categoryMatches (selectEnvironment e) (r2_buckets actual)
        (r2Buckets combined)
  | Services =>
      categoryMatches (serviceToRemote e) (services actual) (services_ combined)
  | QueueProducers =>
      categoryMatches (selectEnvironment e) (queue_producers actual)
        (queueProducers combined)
  | AnalyticsEngineDatasets =>
      categoryMatches (datasetToRemote e) (analytics_engine_datasets actual)
        (analyticsEngineDatasets combined)
  end.

(** The assertions before the [n]-th one all hold. *)
Definition holdBefore (n : nat) (checks : list assertion) : Prop :=
  ∀ j, j < n → ∃ message, checks !! j = Some (true, message).

(** The three fields of the build configuration. *)
Inductive BuildField := BuildCommand | BuildOutputDirectory | RootDirectory.

Definition fixtureField (f : BuildField) (fixtureConfig : FixtureConfig)
  : option string :=
  match f with
  | BuildCommand => buildCommand (buildConfig fixtureConfig)
  | BuildOutputDirectory => buildOutputDirectory (buildConfig fixtureConfig)
  | RootDirectory => rootDirectory (buildConfig fixtureConfig)
  end.

Definition remoteField (f : BuildField) (project : Project) : option string :=
  match f with
  | BuildCommand => build_command (build_config project)
  | BuildOutputDirectory => destination_dir (build_config project)
  | RootDirectory => root_dir (build_config project)
  end.

Definition fieldIndex (f : BuildField) : nat :=
  match f with
  | BuildCommand => 0
  | BuildOutputDirectory => 1
  | RootDirectory => 2
  end.

Definition fieldMessage (f : BuildField) : string :=
  match f with
  | BuildCommand => "Build command was not set correctly."
  | BuildOutputDirectory => "Build output directory was not set correctly."
  | RootDirectory => "Root directory was not set correctly."
  end.

(** *** Sample projects, fixtures and answers *)

Definition okResponse : Response := {| status := 200; statusText := "OK" |}.

Definition emptyPreview : Preview :=
  {| compatibility_date := "2023-01-01"; compatibility_flags := [];
     env_vars := None; d1_databases := None;
     durable_object_namespaces := None; kv_namespaces := None;
     r2_buckets := None; services := None; queue_producers := None;
     analytics_engine_datasets := None |}.

Definition emptyProject : Project :=
  {| build_config :=
       {| build_command := Some "npm run build";
          destination_dir := Some "dist"; root_dir := Some "" |};
     deployment_configs := {| preview := emptyPreview |} |}.

(** A project whose answer leaves the build command out. *)
Definition commandlessProject : Project :=
  {| build_config :=
       {| build_command := None; destination_dir := Some "dist";
          root_dir := Some "" |};
     deployment_configs := {| preview := emptyPreview |} |}.

(** A remote project that still binds the KV namespace [OLD]. *)
Definition staleProject : Project :=
  {| build_config := build_config emptyProject;
     deployment_configs :=
       {| preview :=
            {| compatibility_date := "2023-01-01"; compatibility_flags := [];
               env_vars := None; d1_databases := None;
               durable_object_namespaces := None;
               kv_namespaces := Some [("OLD", Some {| namespace_id := "zzz" |})];
               r2_buckets := None; services := None; queue_producers := None;
               analytics_engine_datasets := None |} |} |}.

(** A fixture without a build command, and one whose build command is
    the empty string. *)
Definition commandlessFixture : FixtureConfig :=
  {| buildConfig :=
       {| buildCommand := None; buildOutputDirectory := Some "dist";
          rootDirectory := Some "" |};
     compatibilityDate := "2023-01-01";
     compatibilityFlags := [];
     deploymentConfig := noBindings |}.

Definition emptyCommandFixture : FixtureConfig :=
  {| buildConfig :=
       {| buildCommand := Some ""; buildOutputDirectory := Some "dist";
          rootDirectory := Some "" |};
     compatibilityDate := "2023-01-01";
     compatibilityFlags := [];
     deploymentConfig := noBindings |}.

Definition noFeatures : FeaturesConfig := setUpFeatures [].

Definition sampleHost : Host :=
  {| api := "https://api.example.com"; dash := "https://dash.example.com" |}.

Definition sampleCredentials : PagesProjectCredentials :=
  {| CLOUDFLARE_ACCOUNT_ID := "account"; PROJECT_NAME := "project";
     CLOUDFLARE_API_TOKEN := "token";
     GIT_REPO := Some "git@example.com:pages/fixtures.git" |}.

Definition sampleConstants : Constants :=
  {| DEPLOYMENT_CHECK_API_FAILURES_THRESHOLD := 2;
     DEPLOYMENT_CHECK_INTERVAL := 5000;
     DEPLOYMENT_TIMEOUT := 600000;
     PROVISIONER_CHECK_INTERVAL := 1000;
     PROVISIONER_TIMEOUT := 60000 |}.

Definition sampleConfig : Config :=
  {| constants := sampleConstants;
     HOSTS := fun e => match e with Local => None | _ => Some sampleHost end;
     PAGES_PROJECTS :=
       fun e _ => match e with Local => None | _ => Some sampleCredentials end;
     GIT_USERNAME := "Pages e2e";
     GIT_EMAIL_ADDRESS := "pages-e2e@example.com";
     encodeURIComponent := fun s => s;
     join := fun a b => a +:+ "/" +:+ b |}.

Definition sampleDeployment (stage state : string)
  : Fetched DeploymentPoller.DeploymentResult :=
  Parsed okResponse "{...}"
    {| DeploymentPoller.url := "https://fixture.pages.dev";
       DeploymentPoller.latest_stage :=
         {| DeploymentPoller.stage_name := stage;
            DeploymentPoller.stage_status := state |} |}.

(** A run in which every collaborator answers as hoped: the remote
    project has no bindings, the PATCH response repeats the build
    configuration of [plainFixture], and the deployment is found
    successful on the first tick. *)
Definition calmWorld : World :=
  {| gitCommitted := None;
     gitPushed := None;
     deployHookCreation := Parsed okResponse "{...}" (Some "hook");
     mutexAcquisition := inr {| lease := "lease" |};
     initialProjectState := Parsed okResponse "{...}" (Some emptyProject);
     patchedProject := Parsed okResponse "{...}" (Some emptyProject);
     deployHookFired := Parsed okResponse "{...}" (Some "deployment");
     mutexRelease := None;
     startDeployment := 0;
     deploymentEvents :=
       DeploymentPoller.answered 5000 (sampleDeployment "deploy" "success");
     startProvisioner := 6000;
     provisionerEvents :=
       [EdgePoller.TimerFired 7000;
        EdgePoller.ProbeSettled (EdgePoller.ProbeAnswered false)];
     built := None;
     wranglerStarted := inr "http://localhost:8788" |}.

(** The same run with other answers to the two project exchanges, to the
    deploy hook, and to the release of the mutex. *)
Definition withProjects (initial patched : Fetched (option Project)) (w : World)
  : World :=
  {| gitCommitted := gitCommitted w; gitPushed := gitPushed w;
     deployHookCreation := deployHookCreation w;
     mutexAcquisition := mutexAcquisition w;
     initialProjectState := initial; patchedProject := patched;
     deployHookFired := deployHookFired w; mutexRelease := mutexRelease w;
     startDeployment := startDeployment w;
     deploymentEvents := deploymentEvents w;
     startProvisioner := startProvisioner w;
     provisionerEvents := provisionerEvents w;
     built := built w; wranglerStarted := wranglerStarted w |}.

Definition withDeployHookFired (fired : Fetched (option string)) (w : World)
  : World :=
  {| gitCommitted := gitCommitted w; gitPushed := gitPushed w;
     deployHookCreation := deployHookCreation w;
     mutexAcquisition := mutexAcquisition w;
     initialProjectState := initialProjectState w;
     patchedProject := patchedProject w;
     deployHookFired := fired; mutexRelease := mutexRelease w;
     startDeployment := startDeployment w;
     deploymentEvents := deploymentEvents w;
     startProvisioner := startProvisioner w;
     provisionerEvents := provisionerEvents w;
     built := built w; wranglerStarted := wranglerStarted w |}.


(** The remote answers the PATCH with the project as it was found. *)
Definition staleWorld : World :=
  withProjects (Parsed okResponse "{...}" (Some staleProject))
    (Parsed okResponse "{...}" (Some staleProject)) calmWorld.

(** The remote answers the PATCH with a project without build command. *)
Definition omittingWorld : World :=
  withProjects (Parsed okResponse "{...}" (Some emptyProject))
    (Parsed okResponse "{...}" (Some commandlessProject)) calmWorld.

(** The remote answers the PATCH with exactly the payload it was sent. *)
Definition echoWorld (e : Environment) (fixtureConfig : FixtureConfig)
  (combined : CombinedDeploymentConfig) : World :=
  withProjects (Parsed okResponse "{...}" (Some emptyProject))
    (Parsed okResponse "{...}"
       (Some (updatePayload e fixtureConfig combined emptyProject)))
    calmWorld.

Definition sampleClosure : DeploymentPoller.Closure :=
  {| DeploymentPoller.constants := sampleConstants;
     DeploymentPoller.host := sampleHost;
     DeploymentPoller.pagesProject := sampleCredentials;
     DeploymentPoller.deploymentId := "deployment";
     DeploymentPoller.startDeployment := 0 |}.

Definition sampleEdgeClosure : EdgePoller.Closure :=
  {| EdgePoller.constants := sampleConstants;
     EdgePoller.startProvisioner := 6000 |}.

(** Three ticks in a row whose fetch is rejected: one more than the
    threshold of [sampleConstants], all within the timeout. *)
Definition threeFailures : list DeploymentPoller.Event :=
  DeploymentPoller.failed 5000 FetchThrew
  ++ DeploymentPoller.failed 10000 FetchThrew
  ++ DeploymentPoller.failed 15000 FetchThrew.

(** A response that makes the asynchronous body enter [catch]. *)
Definition unusable (r : Fetched DeploymentPoller.DeploymentResult) : Prop :=
  match r with
  | Parsed _ _ d =>
      DeploymentPoller.url d = ""
      ∨ DeploymentPoller.stage_status (DeploymentPoller.latest_stage d) = ""
  | _ => True
  end.

(** The first [n] turns of the interval, the [i]-th one firing at
    [time i] and followed by the continuations [between i] that run
    before the next one. *)
Definition schedule (time : nat -> Z)
  (between : nat -> list DeploymentPoller.Event) (n : nat)
  : list DeploymentPoller.Event :=
  flat_map (fun i => DeploymentPoller.TimerFired (time i) :: between i) (seq 0 n).

(** ** Statements about the runs of the deployment poller *)

(** A parsed response that neither resolves nor rejects: the status is
    one of the three that count as ongoing, and the stage is not a
    successful [deploy]. *)
Definition ongoing (r : Fetched DeploymentPoller.DeploymentResult) : Prop :=
  match r with
  | Parsed _ _ d =>
      let stage := DeploymentPoller.latest_stage d in
      DeploymentPoller.url d ≠ ""
      ∧ DeploymentPoller.stage_status stage ∈ ["idle"; "active"; "success"]
      ∧ ¬ (DeploymentPoller.stage_name stage = "deploy"
           ∧ DeploymentPoller.stage_status stage = "success")
  | _ => False
  end.

(** The turns of the event loop in which an asynchronous body enters
    its [catch] block. *)
Definition entersCatch (ev : DeploymentPoller.Event) : bool :=
  match ev with
  | DeploymentPoller.ResponseArrived (Parsed _ _ d) =>
      bool_decide (DeploymentPoller.url d = "")
      || bool_decide
           (DeploymentPoller.stage_status (DeploymentPoller.latest_stage d) = "")
  | DeploymentPoller.ResponseArrived _ => true
  | _ => false
  end.

(** An error made by [transformResponseIntoError] with a message. *)
Definition isTransportError (e : Error) : Prop :=
  ∃ response text message, e = ResponseError response text (Message message).

(** An object with unique keys that has exactly the keys of two others. *)
Definition isKeyUnion {V} (a b : option (obj V)) (o : obj V) : Prop :=
  NoDup (keys o)
  ∧ ∀ k, k ∈ keys o ↔ k ∈ keys (orEmpty a) ∨ k ∈ keys (orEmpty b).

(** A fixture with two environment variables and two features that set
    some of them again. *)
Definition withVariables (variables : obj string) : DeploymentConfig :=
  {| environmentVariables := Some variables; d1Databases := None;
     durableObjectNamespaces := None; kvNamespaces := None;
     r2Buckets := None; services_ := None; queueProducers := None;
     analyticsEngineDatasets := None |}.

Definition variablesFixture : FixtureConfig :=
  {| buildConfig := buildConfig plainFixture;
     compatibilityDate := "2023-01-01";
     compatibilityFlags := [];
     deploymentConfig := withVariables [("A", "fixture"); ("B", "fixture")] |}.

Definition variablesFeatures : list FeatureConfig :=
  [ {| setup := None;
       featureDeploymentConfig := withVariables [("B", "first")] |};
    {| setup := Some "./setup.sh";
       featureDeploymentConfig :=
         withVariables [("C", "second"); ("B", "second")] |} ].

(** ** Feature setup *)

(** [setUpFeatures] as a procedure: the files it looks for and reads and
    the setup commands it runs. The pure [setUpFeatures] above is the
    configuration it returns. *)
Module FeatureSetup.

Inductive Call :=
| Logger (entry : Logged)
| ExistsSync (path : string)
| ReadFile (path : string)
| Shell (path workspace command : string).

(** What the file system and the shell answer in one iteration of the
    loop: [existsSync] is false; or [readFile], [JSON.parse] or
    [featuresSchema.parse] throws; or the file parses to [config], and
    the setup command, if one is run, fails with [failure]. *)
Inductive Answer :=
| Missing
| Unreadable (thrown : Error)
| Read (config : FeatureConfig) (failure : option Error).

Definition Run (A : Type) : Type := list Call * Completion A.

Definition say (level : Level) (message : string) : Call :=
  Logger (LogText level message).

(** [featureMain]: the file of the feature [name]. *)
Definition featureMain (cfg : Config) (FEATURES_PATH name : string) : string :=
  join cfg (join cfg FEATURES_PATH name) "main.feature".

(** The body of [for (const feature of features)]. *)
Definition feature (cfg : Config) (FEATURES_PATH fixture directory : string)
  (name : string) (answer : Answer) (featuresConfig : FeaturesConfig)
  : Run FeaturesConfig :=
  let path := join cfg FEATURES_PATH name in
  let looked :=
    [say log "Reading fixture config...";
     ExistsSync (featureMain cfg FEATURES_PATH name)] in
  match answer with
  | Missing =>
      (looked,
       Threw (JsError ("Could not find feature file for feature '" +:+ name
                       +:+ "' (defined in fixture '" +:+ fixture +:+ "')")))
  | Unreadable thrown =>
      (looked ++ [ReadFile (join cfg path "main.feature")], Threw thrown)
  | Read config failure =>
      let read :=
        looked
        ++ [ReadFile (join cfg path "main.feature"); say info "Done.";
            say log ("Setting up feature " +:+ name +:+ "...")] in
      let merged := addFeature featuresConfig config in
      match setup config with
      | Some command =>
          if decide (command = "")
          then (read ++ [say info "No setup command found. Continuing...";
                         say info "Done."],
                Returned merged)
          else match failure with
               | Some thrown =>
                   (read ++ [Shell path directory command], Threw thrown)
               | None =>
                   (read ++ [Shell path directory command; say info "Done."],
                    Returned merged)
               end
      | None =>
          (read ++ [say info "No setup command found. Continuing...";
                    say info "Done."],
           Returned merged)
      end
  end.

(** The loop from its [i]-th iteration on. *)
Fixpoint loop (cfg : Config) (FEATURES_PATH fixture directory : string)
  (features : list string) (answers : nat -> Answer) (i : nat)
  (featuresConfig : FeaturesConfig) : Run FeaturesConfig :=
  match features with
  | [] => ([], Returned featuresConfig)
  | name :: rest =>
      let r :=
        feature cfg FEATURES_PATH fixture directory name (answers i)
          featuresConfig in
      match r.2 with
      | Returned merged =>
          let r' :=
            loop cfg FEATURES_PATH fixture directory rest answers (S i) merged in
          (r.1 ++ r'.1, r'.2)
      | Threw thrown => (r.1, Threw thrown)
      | Awaiting => (r.1, Awaiting)
      end
  end.

(** [setUpFeatures], from [if (features.length > 0)] on: [features] are
    the names [resolveFeatures] yields. *)
Definition setUpFeatures (cfg : Config)
  (FEATURES_PATH fixture directory : string) (features : list string)
  (answers : nat -> Answer) : Run FeaturesConfig :=
  match features with
  | [] => ([], Returned initialFeaturesConfig)
  | _ :: _ =>
      let r :=
        loop cfg FEATURES_PATH fixture directory features answers 0
          initialFeaturesConfig in
      (say log ("Fixture features detected. Adding "
                +:+ String.concat ", " features +:+ "...")
       :: r.1
       ++ match r.2 with
          | Returned _ => [say info "Done."]
          | _ => []
          end,
       r.2)
  end.

(** *** Statements about a run of the setup *)

(** The error an iteration ends with, if it does. *)
Definition failureOf (fixture name : string) (answer : Answer) : option Error :=
  match answer with
  | Missing =>
      Some (JsError ("Could not find feature file for feature '" +:+ name
                     +:+ "' (defined in fixture '" +:+ fixture +:+ "')"))
  | Unreadable thrown => Some thrown
  | Read config failure =>
      match setup config with
      | Some command => if decide (command = "") then None else failure
      | None => None
      end
  end.

(** The parsed file of an iteration that read one. *)
Definition configOf (answer : Answer) : option FeatureConfig :=
  match answer with
  | Read config _ => Some config
  | _ => None
  end.

(** The setup command a feature file asks for. *)
Definition setupOf (cfg : Config) (FEATURES_PATH directory name : string)
  (config : FeatureConfig) : list Call :=
  match setup config with
  | Some command =>
      if decide (command = "") then []
      else [Shell (join cfg FEATURES_PATH name) directory command]
  | None => []
  end.

Definition isShell (c : Call) : bool :=
  match c with
  | Shell _ _ _ => true
  | _ => false
  end.

Definition isExistsSync (c : Call) : bool :=
  match c with
  | ExistsSync _ => true
  | _ => false
  end.

Definition isReadFile (c : Call) : bool :=
  match c with
  | ReadFile _ => true
  | _ => false
  end.

(** The answers of the iterations [i], [i + 1], ... of a loop over
    [features]. *)
Definition answersFrom (answers : nat -> Answer) (i : nat)
  (features : list string) : list Answer :=
  map answers (seq i (length features)).

Definition sampleAnswers (i : nat) : Answer :=
  match variablesFeatures !! i with
  | Some config => Read config None
  | None => Missing
  end.

End FeatureSetup.

(** ** Statements about the calls of a run *)

(** The kinds of call each part of [createDeployment] makes. *)
Definition reconcileCall (c : Call) : bool :=
  match c with
  | Logger _ | Http _ _ (NoBody | ProjectBody _) => true
  | _ => false
  end.

Definition triggerCall (c : Call) : bool :=
  match c with
  | Logger _ | Shell (GitPush _ _ _) | RegisterTeardown _ | Http _ _ _
  | AcquireMutex _ | ReleaseMutex _ => true
  | _ => false
  end.

Definition pollingCall (c : Call) : bool :=
  match c with
  | Logger _ | SetInterval _ => true
  | _ => false
  end.

Definition localCall (c : Call) : bool :=
  match c with
  | Logger _ | Shell (Build _ _) | WranglerPagesDev _ _ _ => true
  | _ => false
  end.

Definition commitCall (c : Call) : bool :=
  match c with
  | Shell (GitCommit _ _ _) => true
  | _ => false
  end.

(** The bindings Wrangler is not given in local mode: a name of the
    combined Durable Object namespaces, services, queue producers or
    Analytics Engine datasets. *)
Definition unsupportedLocally (combined : CombinedDeploymentConfig)
  (name : string) : Prop :=
  name ∈ keys (durableObjectNamespaces combined)
  ∨ name ∈ keys (services_ combined)
  ∨ name ∈ keys (queueProducers combined)
  ∨ name ∈ keys (analyticsEngineDatasets combined).

(** A fixture that binds an Analytics Engine dataset. *)
Definition datasetFixture : FixtureConfig :=
  {| buildConfig := buildConfig plainFixture;
     compatibilityDate := "2023-01-01";
     compatibilityFlags := [];
     deploymentConfig := featureDeploymentConfig analyticsFeature |}.

Definition localWarning : Call :=
  Logger (LogText warn "Wrangler does not yet support Durable Objects, Services, Queue Producers, or Analytics Engine Datasets in local mode.").

(** The closure of the deployment check interval in a run. *)
Definition deploymentClosure (cfg : Config) (w : World) (h : Host)
  (pagesProject : PagesProjectCredentials) (id : string)
  : DeploymentPoller.Closure :=
  {| DeploymentPoller.constants := constants cfg;
     DeploymentPoller.host := h;
     DeploymentPoller.pagesProject := pagesProject;
     DeploymentPoller.deploymentId := id;
     DeploymentPoller.startDeployment := startDeployment w |}.

(** The outcomes the two pollers of a run reach on the recorded events. *)
Definition deploymentOutcome (cfg : Config) (w : World) (h : Host)
  (pagesProject : PagesProjectCredentials) (id : string) : Outcome string :=
  DeploymentPoller.outcome
    (DeploymentPoller.run (deploymentClosure cfg w h pagesProject id)
       DeploymentPoller.initial (deploymentEvents w)).

Definition provisionerOutcome (cfg : Config) (w : World) : Outcome unit :=
  EdgePoller.outcome
    (EdgePoller.run
       {| EdgePoller.constants := constants cfg;
          EdgePoller.startProvisioner := startProvisioner w |}
       EdgePoller.initial (provisionerEvents w)).

(** * Properties *)

(** ** Objects: lookup and key uniqueness under the defining operations *)

Section ObjectFacts.
Context {V : Type}.
Implicit Types (o : obj V) (k : string) (v : V).

Lemma get_None k o : get k o = None ↔ k ∉ keys o.
Proof.
  induction o as [|[k' v'] o IH]; simpl.
  - split; [intros _; apply not_elem_of_nil | done].
  - rewrite not_elem_of_cons. destruct (decide (k = k')); [|tauto].
    split; [done | tauto].
Qed.

Lemma get_Some_elem k v o : get k o = Some v → k ∈ keys o.
Proof.
  intros H. destruct (decide (k ∈ keys o)) as [|Hn]; [done|].
  apply get_None in Hn. congruence.
Qed.

Lemma elem_get k o : k ∈ keys o → ∃ v, get k o = Some v.
Proof.
  intros H. destruct (get k o) eqn:E; [eauto|].
  apply get_None in E. done.
Qed.

Lemma get_app k o1 o2 :
  get k (o1 ++ o2) = match get k o1 with Some v => Some v | None => get k o2 end.
Proof.
  induction o1 as [|[k' v'] o1 IH]; simpl; [done|].
  destruct (decide (k = k')); done.
Qed.

Lemma keys_replace k v o : keys (replace k v o) = keys o.
Proof.
  induction o as [|[k' v'] o IH]; simpl; [done|].
  destruct (decide (k = k')); simpl; [done | by rewrite IH].
Qed.

Lemma get_replace k k' v o :
  k ∈ keys o →
  get k' (replace k v o) = if decide (k' = k) then Some v else get k' o.
Proof.
  induction o as [|[k0 v0] o IH]; simpl; intros Hin.
  - by apply elem_of_nil in Hin.
  - destruct (decide (k = k0)) as [->|Hne]; simpl.
    + destruct (decide (k' = k0)); done.
    + apply elem_of_cons in Hin as [?|Hin]; [done|].
      rewrite (IH Hin).
      destruct (decide (k' = k0)) as [->|]; [|done].
      destruct (decide (k0 = k)); [congruence | done].
Qed.

Lemma keys_insert_index n k k' v o :
  k' ∈ keys (insert_index n k v o) ↔ k' = k ∨ k' ∈ keys o.
Proof.
  induction o as [|[k0 v0] o IH]; simpl.
  - rewrite list_elem_of_singleton. split; [tauto|].
    intros [?|H]; [done | by apply elem_of_nil in H].
  - destruct (array_index k0) as [n0|]; [destruct (n <? n0)%N|]; simpl;
      rewrite ?elem_of_cons; simpl; rewrite ?elem_of_cons, ?IH; tauto.
Qed.

Lemma NoDup_insert_index n k v o :
  k ∉ keys o → NoDup (keys o) → NoDup (keys (insert_index n k v o)).
Proof.
  induction o as [|[k0 v0] o IH]; simpl; intros Hk Hnd.
  - apply NoDup_singleton.
  - apply not_elem_of_cons in Hk as [Hne Hk].
    apply NoDup_cons in Hnd as [Hk0 Hnd].
    assert (NoDup (k :: k0 :: keys o)) as Hall.
    { apply NoDup_cons; split; [|by apply NoDup_cons].
      rewrite not_elem_of_cons. done. }
    destruct (array_index k0) as [n0|]; [destruct (n <? n0)%N|]; simpl;
      try exact Hall.
    apply NoDup_cons; split; [|by apply IH].
    fold (keys (insert_index n k v o)). rewrite keys_insert_index.
    intros [->|?]; done.
Qed.

Lemma get_insert_index n k k' v o :
  k ∉ keys o →
  get k' (insert_index n k v o) = if decide (k' = k) then Some v else get k' o.
Proof.
  induction o as [|[k0 v0] o IH]; simpl; intros Hk.
  - destruct (decide (k' = k)); done.
  - apply not_elem_of_cons in Hk as [Hne Hk].
    destruct (array_index k0) as [n0|]; [destruct (n <? n0)%N|]; simpl;
      try (destruct (decide (k' = k)); done).
    rewrite (IH Hk).
    destruct (decide (k' = k0)) as [->|]; [|done].
    destruct (decide (k0 = k)); [congruence | done].
Qed.

Lemma get_define k k' v o :
  get k' (define k v o) = if decide (k' = k) then Some v else get k' o.
Proof.
  unfold define. destruct (get k o) as [v0|] eqn:E.
  - apply get_replace. by eapply get_Some_elem.
  - apply get_None in E.
    destruct (array_index k) as [n|]; [by apply get_insert_index|].
    rewrite get_app. simpl.
    destruct (decide (k' = k)) as [->|].
    + apply get_None in E. by rewrite E.
    + by destruct (get k' o).
Qed.

Lemma keys_define k k' v o :
  k' ∈ keys (define k v o) ↔ k' = k ∨ k' ∈ keys o.
Proof.
  split.
  - intros H. apply elem_get in H as [v' H]. rewrite get_define in H.
    destruct (decide (k' = k)); [by left | right; by eapply get_Some_elem].
  - intros H. destruct (get k' (define k v o)) eqn:E;
      [by eapply get_Some_elem|].
    rewrite get_define in E. destruct (decide (k' = k)); [done|].
    destruct H as [?|H]; [done|]. apply get_None in E. done.
Qed.

Lemma NoDup_define k v o : NoDup (keys o) → NoDup (keys (define k v o)).
Proof.
  intros Hnd. unfold define. destruct (get k o) as [v0|] eqn:E.
  - by rewrite keys_replace.
  - apply get_None in E.
    destruct (array_index k) as [n|]; [by apply NoDup_insert_index|].
    unfold keys. rewrite map_app. simpl.
    apply NoDup_app. split; [done|]. split; [|apply NoDup_singleton].
    intros x Hx Hx'. apply list_elem_of_singleton in Hx' as ->. done.
Qed.

Lemma assign_cons k v o (src : list (string * V)) :
  assign o ((k, v) :: src) = assign (define k v o) src.
Proof. reflexivity. Qed.

Lemma NoDup_assign o (src : list (string * V)) :
  NoDup (keys o) → NoDup (keys (assign o src)).
Proof.
  revert o. induction src as [|[k v] src IH]; intros o Hnd; [done|].
  rewrite assign_cons. apply IH. by apply NoDup_define.
Qed.

(** Of several entries with one key the last one wins. *)
Lemma get_assign k o (src : list (string * V)) :
  get k (assign o src) =
  match get k (reverse src) with Some v => Some v | None => get k o end.
Proof.
  revert o. induction src as [|[k0 v0] src IH]; intros o; [done|].
  rewrite assign_cons, reverse_cons, get_app, IH.
  destruct (get k (reverse src)); [done|]. simpl.
  rewrite get_define. destruct (decide (k = k0)); done.
Qed.

Lemma get_reverse k o : NoDup (keys o) → get k (reverse o) = get k o.
Proof.
  induction o as [|[k0 v0] o IH]; simpl; intros Hnd; [done|].
  apply NoDup_cons in Hnd as [Hk0 Hnd].
  rewrite reverse_cons, get_app, (IH Hnd). simpl.
  destruct (decide (k = k0)) as [->|].
  - apply get_None in Hk0. by rewrite Hk0.
  - by destruct (get k o).
Qed.

Lemma keys_assign k o (src : list (string * V)) :
  k ∈ keys (assign o src) ↔ k ∈ keys src ∨ k ∈ keys o.
Proof.
  revert o. induction src as [|[k0 v0] src IH]; intros o.
  - simpl. split; [tauto|]. intros [H|H]; [by apply elem_of_nil in H | done].
  - rewrite assign_cons, IH, keys_define. simpl. rewrite elem_of_cons. tauto.
Qed.

Lemma NoDup_fromEntries (l : list (string * V)) : NoDup (keys (fromEntries l)).
Proof. apply NoDup_assign, NoDup_nil_2. Qed.

Lemma NoDup_spread2 (a b : obj V) : NoDup (keys (spread2 a b)).
Proof. apply NoDup_assign, NoDup_assign, NoDup_nil_2. Qed.

Lemma NoDup_merge (a b : option (obj V)) : NoDup (keys (merge a b)).
Proof. apply NoDup_spread2. Qed.

End ObjectFacts.

(** ** The update payload *)

Section PayloadFacts.
Context {L R : Type} (toRemote : L -> R).

Lemma get_remoteEntries k (desired : obj L) :
  get k (remoteEntries toRemote desired) =
  (fun v => Some (toRemote v)) <$> get k desired.
Proof.
  unfold remoteEntries, entries.
  induction desired as [|[k0 v0] desired IH]; simpl; [done|].
  destruct (decide (k = k0)); done.
Qed.

Lemma keys_remoteEntries (desired : obj L) :
  keys (remoteEntries toRemote desired) = keys desired.
Proof.
  unfold remoteEntries, entries, keys. rewrite map_map. done.
Qed.

Lemma get_nulls k (names : list string) :
  get k (reverse (map (fun name => (name, @None R)) names)) =
  if decide (k ∈ names) then Some None else None.
Proof.
  induction names as [|n names IH]; simpl.
  - destruct (decide (k ∈ [])) as [H|]; [by apply elem_of_nil in H | done].
  - rewrite reverse_cons, get_app, IH. simpl.
    destruct (decide (k ∈ names)) as [Hin|Hnin].
    + rewrite decide_True; [done | by right].
    + destruct (decide (k = n)) as [->|Hne].
      * rewrite decide_True; [done | by left].
      * rewrite decide_False; [done|]. rewrite elem_of_cons. tauto.
Qed.

(** Lookup in one category of the payload. *)
Lemma get_categoryPatch k (initial : category R) (desired : obj L) :
  NoDup (keys desired) →
  get k (categoryPatch toRemote initial desired) =
  match get k desired with
  | Some v => Some (Some (toRemote v))
  | None => if decide (k ∈ keys (orEmpty initial)) then Some None else None
  end.
Proof.
  intros Hnd. unfold categoryPatch, spread2, entries.
  rewrite !get_assign. simpl.
  rewrite !get_reverse by apply NoDup_fromEntries.
  unfold fromEntries. rewrite !get_assign. simpl.
  rewrite get_reverse by (by rewrite keys_remoteEntries).
  rewrite get_remoteEntries, get_nulls.
  destruct (get k desired); simpl; [done|].
  by destruct (decide (k ∈ keys (orEmpty initial))).
Qed.

Lemma categoryPatch_isPatch (initial : category R) (desired : obj L) :
  NoDup (keys desired) →
  isPatch toRemote initial desired (Some (categoryPatch toRemote initial desired)).
Proof.
  intros Hnd. exists (categoryPatch toRemote initial desired).
  split; [done|]. split; [apply NoDup_spread2|].
  repeat split; intros k.
  - intros v Hk. by rewrite get_categoryPatch, Hk.
  - intros Hin Hk. rewrite get_categoryPatch, Hk by done.
    by rewrite decide_True.
  - intros Hin Hk. rewrite get_categoryPatch, Hk by done.
    by rewrite decide_False.
Qed.

End PayloadFacts.

(** C1. For every binding category, the category of the update payload
    that [configureProject] computes from the fetched project and the
    combined configuration is a patch in the sense of [isPatch]: each key
    of the combined configuration is mapped to its environment-specific
    remote representation (also when the key is present remotely), each
    key present only in the fetched project's preview configuration is
    mapped to [null], and a key absent from both does not occur. The
    remote representation is: [{ type: "plain_text", value }] for an
    environment variable; [value[environment]] for a D1 database, an R2
    bucket and a queue producer; [{ namespace_id: value[environment].id }]
    for a Durable Object or KV namespace;
    [{ service: value[environment].name,
       environment: value[environment].environment }] for a service; and
    [{ dataset: value[environment].name }] for an Analytics Engine
    dataset. *)
Theorem update_payload_is_patch
  (e : Environment) (fixtureConfig : FixtureConfig)
  (featuresConfig : FeaturesConfig) (initialProject : Project) :
  let combined := combinedDeploymentConfig fixtureConfig featuresConfig in
  let initial := preview (deployment_configs initialProject) in
  let payload :=
    preview (deployment_configs
               (updatePayload e fixtureConfig combined initialProject)) in
  isPatch (fun v => {| type := "plain_text"; value := v |})
    (env_vars initial) (environmentVariables combined) (env_vars payload)
  ∧ isPatch (fun v => v e) (d1_databases initial) (d1Databases combined)
      (d1_databases payload)
  ∧ isPatch (fun v => {| namespace_id := ns_id (v e) |})
      (durable_object_namespaces initial) (durableObjectNamespaces combined)
      (durable_object_namespaces payload)
  ∧ isPatch (fun v => {| namespace_id := ns_id (v e) |})
      (kv_namespaces initial) (kvNamespaces combined) (kv_namespaces payload)
  ∧ isPatch (fun v => v e) (r2_buckets initial) (r2Buckets combined)
      (r2_buckets payload)
  ∧ isPatch
      (fun v => {| service := svc_name (v e);
                   environment := svc_environment (v e) |})
      (services initial) (services_ combined) (services payload)
  ∧ isPatch (fun v => v e) (queue_producers initial) (queueProducers combined)
      (queue_producers payload)
  ∧ isPatch (fun v => {| dataset := name (v e) |})
      (analytics_engine_datasets initial) (analyticsEngineDatasets combined)
      (analytics_engine_datasets payload).
Proof.
  simpl. split_and!.
  - apply (categoryPatch_isPatch envVarToRemote), NoDup_merge.
  - apply (categoryPatch_isPatch (selectEnvironment e)), NoDup_merge.
  - apply (categoryPatch_isPatch (namespaceToRemote e)), NoDup_merge.
  - apply (categoryPatch_isPatch (namespaceToRemote e)), NoDup_merge.
  - apply (categoryPatch_isPatch (selectEnvironment e)), NoDup_merge.
  - apply (categoryPatch_isPatch (serviceToRemote e)), NoDup_merge.
  - apply (categoryPatch_isPatch (selectEnvironment e)), NoDup_merge.
  - apply (categoryPatch_isPatch (datasetToRemote e)), NoDup_merge.
Qed.

(** The scenario of the spec: [CACHE] desired, [OLD] remote. *)
Example kv_namespaces_scenario :
  categoryPatch (namespaceToRemote Production)
    (Some [("OLD", Some {| namespace_id := "zzz" |})])
    [("CACHE", fun _ => {| ns_id := "abc" |})]
  = [("OLD", None); ("CACHE", Some {| namespace_id := "abc" |})].
Proof. reflexivity. Qed.

(** ** The config merger *)

Section MergeFacts.
Context {V : Type}.

(** [{ ...a, ...b }]: [b]'s value where [b] has the key, [a]'s otherwise. *)
Lemma get_merge k (a b : option (obj V)) :
  NoDup (keys (orEmpty a)) → NoDup (keys (orEmpty b)) →
  get k (merge a b) =
  match get k (orEmpty b) with Some v => Some v | None => get k (orEmpty a) end.
Proof.
  intros Ha Hb. unfold merge, spread2, entries.
  rewrite !get_assign, !get_reverse by done.
  destruct (get k (orEmpty b)); [done|]. by destruct (get k (orEmpty a)).
Qed.

Lemma get_merge_fold k (inputs : list (option (obj V))) (o : obj V) :
  NoDup (keys o) → Forall (fun i => NoDup (keys (orEmpty i))) inputs →
  get k (fold_left (fun acc i => merge (Some acc) i) inputs o) =
  fold_left
    (fun found input =>
       match get k (orEmpty input) with Some v => Some v | None => found end)
    inputs (get k o).
Proof.
  revert o. induction inputs as [|i inputs IH]; intros o Ho Hall; simpl; [done|].
  apply Forall_cons in Hall as [Hi Hall].
  rewrite IH by (done || apply NoDup_merge).
  by rewrite get_merge.
Qed.

Lemma NoDup_merge_fold (inputs : list (option (obj V))) (o : obj V) :
  NoDup (keys o) →
  NoDup (keys (fold_left (fun acc i => merge (Some acc) i) inputs o)).
Proof.
  revert o. induction inputs as [|i inputs IH]; intros o Ho; simpl; [done|].
  apply IH, NoDup_merge.
Qed.

Lemma found_or_init k (inputs : list (option (obj V))) (init : option V) :
  fold_left
    (fun found input =>
       match get k (orEmpty input) with Some v => Some v | None => found end)
    inputs init =
  match lastDefined k inputs with Some v => Some v | None => init end.
Proof.
  unfold lastDefined. revert init.
  induction inputs as [|i inputs IH]; intros init; simpl; [done|].
  rewrite IH, (IH (match get k (orEmpty i) with Some v => _ | None => _ end)).
  destruct (fold_left _ inputs None); [done|].
  by destruct (get k (orEmpty i)).
Qed.

End MergeFacts.

(** The accumulated features configuration, one field at a time. *)
Lemma setUpFeatures_fold {V} (field : DeploymentConfig -> option (obj V)) :
  (∀ acc c,
      field (featuresDeploymentConfig (addFeature acc c)) =
      Some (merge (field (featuresDeploymentConfig acc))
              (field (featureDeploymentConfig c)))) →
  field (featuresDeploymentConfig initialFeaturesConfig) = Some [] →
  ∀ configs,
    field (featuresDeploymentConfig (setUpFeatures configs)) =
    Some (fold_left (fun acc i => merge (Some acc) i)
            (map (fun c => field (featureDeploymentConfig c)) configs) []).
Proof.
  intros Hstep Hinit configs. unfold setUpFeatures.
  generalize dependent initialFeaturesConfig. generalize (@nil (string * V)).
  induction configs as [|c configs IH]; intros o acc Hacc; simpl; [done|].
  apply IH. by rewrite Hstep, Hacc.
Qed.

(** The seven maps that [setUpFeatures] accumulates are, in the combined
    configuration, the union of the fixture's map and the features' maps
    in which the last input to define a key gives its value. *)
Lemma combined_lastDefined {V}
  (field : ∀ F, DeploymentConfigOf F -> F (obj V))
  (fixtureConfig : FixtureConfig) (configs : list FeatureConfig) k :
  (∀ fx ft, field _ (combinedDeploymentConfig fx ft) =
            merge (field _ (deploymentConfig fx))
              (field _ (featuresDeploymentConfig ft))) →
  (∀ acc c,
      field _ (featuresDeploymentConfig (addFeature acc c)) =
      Some (merge (field _ (featuresDeploymentConfig acc))
              (field _ (featureDeploymentConfig c)))) →
  field _ (featuresDeploymentConfig initialFeaturesConfig) = Some [] →
  NoDup (keys (orEmpty (field _ (deploymentConfig fixtureConfig)))) →
  Forall (fun c => NoDup (keys (orEmpty (field _ (featureDeploymentConfig c)))))
    configs →
  get k (field _ (combinedDeploymentConfig fixtureConfig (setUpFeatures configs)))
  = lastDefined k
      (field _ (deploymentConfig fixtureConfig)
       :: map (fun c => field _ (featureDeploymentConfig c)) configs).
Proof.
  intros Hcombined Hstep Hinit Hfx Hall.
  rewrite Hcombined, (setUpFeatures_fold (field option) Hstep Hinit).
  set (inputs := map _ configs).
  assert (Forall (fun i : option (obj V) => NoDup (keys (orEmpty i))) inputs)
    as Hinputs.
  { subst inputs. apply Forall_forall. intros i Hi.
    apply list_elem_of_In, in_map_iff in Hi as (c & <- & Hc).
    rewrite Forall_forall in Hall. apply Hall. by apply list_elem_of_In. }
  rewrite get_merge; [|done|apply NoDup_merge_fold, NoDup_nil_2].
  simpl. rewrite get_merge_fold by (done || apply NoDup_nil_2). simpl.
  unfold lastDefined at 1. simpl. rewrite !found_or_init.
  destruct (lastDefined k inputs); [done|].
  by destruct (get k (orEmpty _)).
Qed.

(** X22. The last definition wins. In each of the seven maps that
    [setUpFeatures] merges, the combined configuration gives a key the
    value of the last input that defines it, the inputs being the
    fixture's map followed by the maps of the features in their order;
    a key that no input defines is absent. *)
Lemma merged_maps_are_unions (fixtureConfig : FixtureConfig)
  (configs : list FeatureConfig) k :
  wellFormed (deploymentConfig fixtureConfig) →
  Forall (fun c => wellFormed (featureDeploymentConfig c)) configs →
  let combined :=
    combinedDeploymentConfig fixtureConfig (setUpFeatures configs) in
  let inputs {V} (field : DeploymentConfig -> option (obj V)) :=
    field (deploymentConfig fixtureConfig)
    :: map (fun c => field (featureDeploymentConfig c)) configs in
  get k (environmentVariables combined)
  = lastDefined k (inputs environmentVariables)
  ∧ get k (d1Databases combined) = lastDefined k (inputs d1Databases)
  ∧ get k (durableObjectNamespaces combined)
    = lastDefined k (inputs durableObjectNamespaces)
  ∧ get k (kvNamespaces combined) = lastDefined k (inputs kvNamespaces)
  ∧ get k (r2Buckets combined) = lastDefined k (inputs r2Buckets)
  ∧ get k (services_ combined) = lastDefined k (inputs services_)
  ∧ get k (queueProducers combined) = lastDefined k (inputs queueProducers).
Proof.
  intros Hfx Hall. simpl.
  split_and!;
    [ apply (combined_lastDefined (@environmentVariables))
    | apply (combined_lastDefined (@d1Databases))
    | apply (combined_lastDefined (@durableObjectNamespaces))
    | apply (combined_lastDefined (@kvNamespaces))
    | apply (combined_lastDefined (@r2Buckets))
    | apply (combined_lastDefined (@services_))
    | apply (combined_lastDefined (@queueProducers)) ];
    try done; try apply Hfx;
    (eapply Forall_impl; [exact Hall|]; intros c Hc; apply Hc).
Qed.

(** [setUpFeatures] never returns Analytics Engine datasets. *)
Lemma setUpFeatures_analytics (configs : list FeatureConfig) :
  analyticsEngineDatasets (featuresDeploymentConfig (setUpFeatures configs))
  = None.
Proof.
  unfold setUpFeatures.
  assert (analyticsEngineDatasets
            (featuresDeploymentConfig initialFeaturesConfig) = None) as H
    by reflexivity.
  revert H. generalize initialFeaturesConfig.
  induction configs as [|c configs IH]; intros acc Hacc; simpl; [done|].
  by apply IH.
Qed.

(** Hence the combined datasets are the fixture's alone. *)
Lemma combined_analytics (fixtureConfig : FixtureConfig)
  (configs : list FeatureConfig) :
  analyticsEngineDatasets
    (combinedDeploymentConfig fixtureConfig (setUpFeatures configs))
  = merge (analyticsEngineDatasets (deploymentConfig fixtureConfig)) None.
Proof. simpl. by rewrite setUpFeatures_analytics. Qed.

(** C4. The specification has the merged configuration be the union, later
    input winning, for the Analytics Engine datasets as for the other
    maps. It is not: for a fixture without bindings and one feature that
    binds the dataset [AE], the union has [AE] but the combined
    configuration the code computes has not, because [setUpFeatures]
    leaves [analyticsEngineDatasets] out of the object it accumulates. *)
Theorem feature_analytics_datasets_are_dropped :
  let combined :=
    combinedDeploymentConfig plainFixture (setUpFeatures [analyticsFeature]) in
  is_Some
    (lastDefined "AE"
       [analyticsEngineDatasets (deploymentConfig plainFixture);
        analyticsEngineDatasets (featureDeploymentConfig analyticsFeature)])
  ∧ get "AE" (analyticsEngineDatasets combined) = None
  ∧ analyticsEngineDatasets combined = [].
Proof. simpl. repeat split. by eexists. Qed.

(** ** Verification of the PATCH response *)

(** The first failing assertion decides the message. *)
Lemma firstFailure_at (checks : list assertion) (i : nat) message :
  checks !! i = Some (false, message) →
  ∃ (j : nat) first,
    (j ≤ i)%nat ∧ checks !! j = Some (false, first) ∧ holdBefore j checks
    ∧ firstFailure checks = Some first.
Proof.
  revert i. induction checks as [|[b m] checks IH]; intros i Hi; [done|].
  destruct b; simpl.
  - destruct i as [|i]; [done|]. simpl in Hi.
    destruct (IH i Hi) as (j & first & Hle & Hj & Hbefore & Hfirst).
    exists (S j), first. repeat split; [lia | done | | done].
    intros [|j'] Hlt; [by eexists|]. apply Hbefore. lia.
  - exists 0, m. repeat split; [lia|]. intros j Hlt. lia.
Qed.

Lemma firstFailure_here (checks : list assertion) (i : nat) message :
  checks !! i = Some (false, message) → holdBefore i checks →
  firstFailure checks = Some message.
Proof.
  revert i. induction checks as [|[b m] checks IH]; intros i Hi Hbefore; [done|].
  destruct i as [|i]; simpl in Hi.
  - by injection Hi as -> ->.
  - destruct (Hbefore 0) as [m' Hm']; [lia|]. simpl in Hm'.
    injection Hm' as -> ->. simpl. apply (IH i Hi).
    intros j Hj. apply (Hbefore (S j)). lia.
Qed.

Lemma firstFailure_None (checks : list assertion) :
  firstFailure checks = None → Forall (fun c => c.1 = true) checks.
Proof.
  induction checks as [|[b m] checks IH]; simpl; intros H; [done|].
  destruct b; [|done]. constructor; [done | by apply IH].
Qed.

Lemma categoryMatches_keys {L R} `{EqDecision R} (toRemote : L -> R)
  (actual : category R) (desired : obj L) :
  categoryMatches toRemote actual desired = true →
  keys (orEmpty actual) = keys desired.
Proof.
  unfold categoryMatches, deepStrictEqual, entries. intros H.
  apply bool_decide_eq_true in H. by rewrite H, keys_remoteEntries.
Qed.

Lemma categoryHolds_keys c e combined project :
  categoryHolds c e combined project = true →
  remoteKeys c project = desiredKeys c combined.
Proof. destruct c; simpl; apply categoryMatches_keys. Qed.

Lemma assertions_category c e fixtureConfig combined project :
  assertions e fixtureConfig combined project !! categoryIndex c
  = Some (categoryHolds c e combined project, categoryMessage c).
Proof. by destruct c. Qed.

Lemma assertions_field f e fixtureConfig combined project :
  assertions e fixtureConfig combined project !! fieldIndex f
  = Some (strictEqual (remoteField f project) (fixtureField f fixtureConfig),
          fieldMessage f).
Proof. by destruct f. Qed.

(** The three ways the specification names for two key lists to differ. *)
Lemma key_lists_differ (remote desired : list string) :
  (∃ k, k ∈ remote ∧ k ∉ desired)
  ∨ (∃ k, k ∈ desired ∧ k ∉ remote)
  ∨ (remote ≡ₚ desired ∧ remote ≠ desired) →
  remote ≠ desired.
Proof.
  intros [(k & Hin & Hout)|[(k & Hin & Hout)|[_ Hne]]]; [| |done];
    intros ->; done.
Qed.

(** What [configureProject] ends with once both exchanges have parsed. *)
Lemma configureProject_verified w e h creds fixtureConfig combined
  r0 t0 initialProject r t project :
  e ≠ Local →
  initialProjectState w = Parsed r0 t0 (Some initialProject) →
  patchedProject w = Parsed r t (Some project) →
  (configureProject w e h creds fixtureConfig combined).2 =
  match verifyProject e fixtureConfig combined project with
  | None => Returned project
  | Some message =>
      Threw (ResponseError (Some r) (Some t)
               (Stringified (AssertionError message)))
  end.
Proof.
  intros He Hinitial Hpatched. unfold configureProject.
  rewrite Hinitial, Hpatched.
  destruct e; [done| |]; simpl;
    by destruct (verifyProject _ fixtureConfig combined project).
Qed.

(** C8. Verification compares the ordered entry lists. Whenever, for a
    binding category, the keys of the PATCH response, in order, are not
    the keys computed from the combined configuration, in order (which
    is so when the order differs, when the response has a key the
    configuration has not, and when the configuration has a key the
    response has not), the category's assertion fails with the message
    that names the category, and [configureProject] throws the error
    built from the first assertion that failed: an assertion at or
    before the category's, and the category's own when no earlier one
    fails. *)
Theorem verification_rejects_key_mismatch
  (w : World) (e : Environment) (h : Host) (creds : PagesProjectCredentials)
  (fixtureConfig : FixtureConfig) (combined : CombinedDeploymentConfig)
  (r0 r : Response) (t0 t : string) (initialProject project : Project)
  (c : Category) :
  e ≠ Local →
  initialProjectState w = Parsed r0 t0 (Some initialProject) →
  patchedProject w = Parsed r t (Some project) →
  remoteKeys c project ≠ desiredKeys c combined →
  let checks := assertions e fixtureConfig combined project in
  checks !! categoryIndex c = Some (false, categoryMessage c)
  ∧ ∃ message,
      verifyProject e fixtureConfig combined project = Some message
      ∧ (configureProject w e h creds fixtureConfig combined).2
        = Threw (ResponseError (Some r) (Some t)
                   (Stringified (AssertionError message)))
      ∧ (∃ i : nat, (i ≤ categoryIndex c)%nat
                    ∧ checks !! i = Some (false, message)
              ∧ holdBefore i checks)
      ∧ (holdBefore (categoryIndex c) checks → message = categoryMessage c).
Proof.
  intros He Hinitial Hpatched Hkeys checks.
  assert (checks !! categoryIndex c = Some (false, categoryMessage c)) as Hc.
  { subst checks. rewrite assertions_category.
    destruct (categoryHolds c e combined project) eqn:E; [|done].
    by apply categoryHolds_keys in E. }
  split; [done|].
  destruct (firstFailure_at _ _ _ Hc) as (j & first & Hle & Hj & Hbefore & Hfirst).
  exists first. repeat split.
  - exact Hfirst.
  - rewrite (configureProject_verified _ _ _ _ _ _ _ _ _ _ _ _ He Hinitial Hpatched).
    unfold verifyProject. fold checks. by rewrite Hfirst.
  - by exists j.
  - intros Hall. pose proof (firstFailure_here _ _ _ Hc Hall). congruence.
Qed.

Lemma verification_rejects_key_mismatch_witness :
  let combined := combinedDeploymentConfig plainFixture noFeatures in
  remoteKeys KvNamespaces staleProject ≠ desiredKeys KvNamespaces combined
  ∧ (configureProject staleWorld Production sampleHost sampleCredentials
       plainFixture combined).2
    = Threw (ResponseError (Some okResponse) (Some "{...}")
               (Stringified
                  (AssertionError "KV namespace bindings were not set correctly."))).
Proof.
  intros combined.
  assert (remoteKeys KvNamespaces staleProject
          ≠ desiredKeys KvNamespaces combined) as Hkeys by (vm_compute; congruence).
  split; [exact Hkeys|].
  destruct (verification_rejects_key_mismatch staleWorld Production sampleHost
              sampleCredentials plainFixture combined okResponse okResponse
              "{...}" "{...}" staleProject staleProject KvNamespaces)
    as (_ & message & _ & Hthrown & _ & Hnamed);
    [congruence | reflexivity | reflexivity | exact Hkeys |].
  rewrite Hthrown, Hnamed; [reflexivity|].
  intros j Hj.
  do 8 (destruct j as [|j]; [by eexists|]). simpl in Hj. lia.
Defined.

(** ** The build configuration after an exact echo *)

Lemma orEmptyString_falsy (x : option string) :
  x = None ∨ x = Some "" → orEmptyString x = "".
Proof. by intros [->| ->]. Qed.

Lemma remoteField_payload f e fixtureConfig combined initialProject :
  remoteField f (updatePayload e fixtureConfig combined initialProject)
  = Some (orEmptyString (fixtureField f fixtureConfig)).
Proof. by destruct f. Qed.

(** C10, refuted as stated. The build command of [emptyCommandFixture] is
    the empty string, which is falsy; the payload carries the empty
    string for it; the remote echoes the payload exactly; and yet the
    assertion on the build command holds and [configureProject] returns
    the project instead of throwing. *)
Lemma empty_build_command_passes_verification :
  let fx := emptyCommandFixture in
  let combined := combinedDeploymentConfig fx noFeatures in
  let payload := updatePayload Production fx combined emptyProject in
  fixtureField BuildCommand fx = Some ""
  ∧ remoteField BuildCommand payload = Some ""
  ∧ patchedProject (echoWorld Production fx combined)
    = Parsed okResponse "{...}" (Some payload)
  ∧ assertions Production fx combined payload !! fieldIndex BuildCommand
    = Some (true, fieldMessage BuildCommand)
  ∧ (configureProject (echoWorld Production fx combined) Production sampleHost
       sampleCredentials fx combined).2
    = Returned payload.
Proof. repeat split. Qed.

(** C10, amended. When a build field of the fixture is [undefined] or
    the empty string, the payload carries the empty string for it. If it
    is [undefined] and the remote echoes the payload exactly, the
    field's assertion fails (the empty string is not [undefined]) and
    [configureProject] throws a verification error; if it is the empty
    string, the field's assertion holds. *)
Theorem falsy_build_field_after_echo
  (w : World) (e : Environment) (h : Host) (creds : PagesProjectCredentials)
  (fixtureConfig : FixtureConfig) (combined : CombinedDeploymentConfig)
  (r0 r : Response) (t0 t : string) (initialProject : Project)
  (f : BuildField) :
  let payload := updatePayload e fixtureConfig combined initialProject in
  let checks := assertions e fixtureConfig combined payload in
  e ≠ Local →
  initialProjectState w = Parsed r0 t0 (Some initialProject) →
  patchedProject w = Parsed r t (Some payload) →
  fixtureField f fixtureConfig = None ∨ fixtureField f fixtureConfig = Some "" →
  remoteField f payload = Some ""
  ∧ (fixtureField f fixtureConfig = None →
     checks !! fieldIndex f = Some (false, fieldMessage f)
     ∧ ∃ message,
         verifyProject e fixtureConfig combined payload = Some message
         ∧ (configureProject w e h creds fixtureConfig combined).2
           = Threw (ResponseError (Some r) (Some t)
                      (Stringified (AssertionError message))))
  ∧ (fixtureField f fixtureConfig = Some "" →
     checks !! fieldIndex f = Some (true, fieldMessage f)).
Proof.
  intros payload checks He Hinitial Hpatched Hfalsy.
  assert (remoteField f payload = Some "") as Hempty.
  { subst payload. rewrite remoteField_payload. f_equal.
    by apply orEmptyString_falsy. }
  split; [done|]. split.
  - intros Hundefined.
    assert (checks !! fieldIndex f = Some (false, fieldMessage f)) as Hf.
    { subst checks. by rewrite assertions_field, Hempty, Hundefined. }
    split; [done|].
    destruct (firstFailure_at _ _ _ Hf) as (j & first & _ & _ & _ & Hfirst).
    exists first. split; [exact Hfirst|].
    rewrite (configureProject_verified _ _ _ _ _ _ _ _ _ _ _ _ He Hinitial Hpatched).
    unfold verifyProject. fold payload. fold checks. by rewrite Hfirst.
  - intros Hstring. subst checks.
    by rewrite assertions_field, Hempty, Hstring.
Qed.

Lemma falsy_build_field_after_echo_witness :
  let fx := commandlessFixture in
  let combined := combinedDeploymentConfig fx noFeatures in
  let payload := updatePayload Production fx combined emptyProject in
  fixtureField BuildCommand fx = None
  ∧ remoteField BuildCommand payload = Some ""
  ∧ (configureProject (echoWorld Production fx combined) Production sampleHost
       sampleCredentials fx combined).2
    = Threw (ResponseError (Some okResponse) (Some "{...}")
               (Stringified
                  (AssertionError "Build command was not set correctly."))).
Proof.
  intros fx combined payload.
  destruct (falsy_build_field_after_echo (echoWorld Production fx combined)
              Production sampleHost sampleCredentials fx combined okResponse
              okResponse "{...}" "{...}" emptyProject BuildCommand)
    as (Hempty & Hundefined & _);
    [congruence | reflexivity | reflexivity | left; reflexivity |].
  split; [reflexivity|]. split; [exact Hempty|].
  destruct (Hundefined eq_refl) as (_ & message & Hfirst & Hthrown).
  rewrite Hthrown. vm_compute in Hfirst. by injection Hfirst as <-.
Defined.

(** ** The deployment poller *)

Section DeploymentPollerFacts.
Import DeploymentPoller.
Context (c : Closure).

Lemma settle_not_Pending {A} (new old : Outcome A) :
  new ≠ Pending → settle new old ≠ Pending.
Proof. by destruct old. Qed.

Lemma settle_settled {A} (new old : Outcome A) :
  old ≠ Pending → settle new old = old.
Proof. by destruct old. Qed.

Lemma run_snoc (s : State) (evs : list Event) (ev : Event) :
  run c s (evs ++ [ev]) = step c (run c s evs) ev.
Proof. unfold run. by rewrite fold_left_app. Qed.

Lemma run_app (s : State) (evs rest : list Event) :
  run c s (evs ++ rest) = run c (run c s evs) rest.
Proof. unfold run. by rewrite fold_left_app. Qed.

(** Only [resolve] and [reject] touch the outcome, and only while it is
    pending. *)
Lemma outcome_step_settled (s : State) (ev : Event) :
  outcome s ≠ Pending → outcome (step c s ev) = outcome s.
Proof.
  intros Hs. destruct ev as [now|r|n]; simpl.
  - destruct (intervalActive s); [|done]. unfold tick.
    destruct (_ >? _)%Z; simpl; [by apply settle_settled | done].
  - unfold arrived, classify, caught.
    destruct r as [| | |r t d]; simpl; try done.
    repeat (case_match; simpl; try done); by apply settle_settled.
  - unfold transformed. by destruct (awaitingError s !! n).
Qed.

Lemma outcome_run_settled (s : State) (evs : list Event) :
  outcome s ≠ Pending → outcome (run c s evs) = outcome s.
Proof.
  revert s. induction evs as [|ev evs IH]; intros s Hs; [done|].
  simpl. rewrite IH; rewrite outcome_step_settled; done.
Qed.

Lemma consistent_step (s : State) (ev : Event) :
  consistent s → consistent (step c s ev).
Proof.
  unfold consistent. intros Hs. destruct ev as [now|r|n]; simpl.
  - destruct (intervalActive s) eqn:Hactive; [|by rewrite Hactive].
    unfold tick. destruct (_ >? _)%Z; simpl; [|by rewrite Hactive].
    split; [done|]. intros H. by apply settle_not_Pending in H.
  - unfold arrived, classify, caught.
    destruct r as [| | |r t d]; simpl; try done.
    repeat (case_match; simpl; try done);
      (split; [done|]; intros Hp; by apply settle_not_Pending in Hp).
  - unfold transformed. by destruct (awaitingError s !! n).
Qed.

Lemma consistent_run (evs : list Event) : consistent (run c initial evs).
Proof.
  induction evs as [|ev evs IH] using rev_ind; [done|].
  rewrite run_snoc. by apply consistent_step.
Qed.

(** A failed fetch or parse: the counter goes up by one, nothing else of
    the poller's fate changes. *)
Lemma failure_counts (s : State) (r : Fetched DeploymentResult) :
  unusable r →
  let s' := step c s (ResponseArrived r) in
  notOkResponses s' = (notOkResponses s + 1)%Z
  ∧ outcome s' = outcome s ∧ intervalActive s' = intervalActive s
  ∧ length (awaitingError s') = S (length (awaitingError s)).
Proof.
  intros Hr. simpl. unfold arrived.
  assert (let s' := caught c r s in
          notOkResponses s' = (notOkResponses s + 1)%Z
          ∧ outcome s' = outcome s ∧ intervalActive s' = intervalActive s
          ∧ length (awaitingError s') = S (length (awaitingError s))) as Hcaught.
  { simpl. repeat split. rewrite length_app. simpl. lia. }
  destruct r as [| | |r t d]; try exact Hcaught.
  destruct Hr as [Hr|Hr]; simpl in Hr; rewrite Hr; simpl; [exact Hcaught|].
  rewrite orb_true_r. exact Hcaught.
Qed.

(** The counter never goes down. *)
Lemma notOkResponses_monotone (s : State) (ev : Event) :
  (notOkResponses s ≤ notOkResponses (step c s ev))%Z.
Proof.
  destruct ev as [now|r|n]; simpl.
  - destruct (intervalActive s); [|lia]. unfold tick.
    destruct (_ >? _)%Z; simpl; lia.
  - unfold arrived, classify, caught.
    destruct r as [| | |r t d]; simpl; try lia.
    repeat (case_match; simpl; try lia).
  - unfold transformed. destruct (awaitingError s !! n); simpl; lia.
Qed.

(** At or below the threshold the error is logged at debug level and
    dropped. *)
Lemma failure_suppressed (s : State) (n : nat) (e : Error) :
  awaitingError s !! n = Some e →
  (notOkResponses s ≤ DEPLOYMENT_CHECK_API_FAILURES_THRESHOLD (constants c))%Z →
  let s' := step c s (ErrorTransformed n) in
  outcome s' = outcome s ∧ intervalActive s' = intervalActive s
  ∧ unhandledRejections s' = unhandledRejections s
  ∧ ∃ text, logged s' = logged s ++ [LogText debug text; LogError debug e].
Proof.
  intros He Hle. simpl. unfold transformed. rewrite He.
  assert ((notOkResponses s
           >? DEPLOYMENT_CHECK_API_FAILURES_THRESHOLD (constants c))%Z = false)
    as -> by lia.
  simpl. repeat split. by eexists.
Qed.

(** Above the threshold the error is thrown inside the asynchronous body:
    its promise is rejected, the outcome and the interval are not touched. *)
Lemma failure_thrown (s : State) (n : nat) (e : Error) :
  awaitingError s !! n = Some e →
  (notOkResponses s > DEPLOYMENT_CHECK_API_FAILURES_THRESHOLD (constants c))%Z →
  let s' := step c s (ErrorTransformed n) in
  outcome s' = outcome s ∧ intervalActive s' = intervalActive s
  ∧ unhandledRejections s' = unhandledRejections s ++ [e].
Proof.
  intros He Hgt. simpl. unfold transformed. rewrite He.
  assert ((notOkResponses s
           >? DEPLOYMENT_CHECK_API_FAILURES_THRESHOLD (constants c))%Z = true)
    as -> by lia.
  done.
Qed.

(** So no number of failed fetches settles the outcome: as long as no
    tick is late, a run made of ticks, unusable responses and [catch]
    continuations leaves the poller pending, whatever the threshold. *)
Lemma failures_never_settle (evs : list Event) :
  (∀ now, TimerFired now ∈ evs →
          (now ≤ startDeployment c + DEPLOYMENT_TIMEOUT (constants c))%Z) →
  (∀ r, ResponseArrived r ∈ evs → unusable r) →
  outcome (run c initial evs) = Pending
  ∧ intervalActive (run c initial evs) = true.
Proof.
  induction evs as [|ev evs IH] using rev_ind; intros Hticks Hresponses;
    [done|].
  destruct IH as [Hpending Hactive].
  { intros now Hin. apply Hticks, elem_of_app. by left. }
  { intros r Hin. apply Hresponses, elem_of_app. by left. }
  rewrite run_snoc. destruct ev as [now|r|n]; simpl.
  - rewrite Hactive. unfold tick.
    assert ((now >? startDeployment c + DEPLOYMENT_TIMEOUT (constants c))%Z
            = false) as ->; [|done].
    assert (now ≤ startDeployment c + DEPLOYMENT_TIMEOUT (constants c))%Z;
      [|lia].
    apply Hticks, elem_of_app. right. by apply list_elem_of_singleton.
  - destruct (failure_counts (run c initial evs) r) as (_ & Ho & Ha & _).
    { apply Hresponses, elem_of_app. right. by apply list_elem_of_singleton. }
    simpl in Ho, Ha. by rewrite Ho, Ha.
  - unfold transformed. by destruct (awaitingError (run c initial evs) !! n).
Qed.

(** A late tick settles a pending poller with the timeout error. *)
Lemma late_tick (s : State) (now : Z) :
  intervalActive s = true → outcome s = Pending →
  (now > startDeployment c + DEPLOYMENT_TIMEOUT (constants c))%Z →
  outcome (step c s (TimerFired now)) = Rejected (timeoutError c).
Proof.
  intros Hactive Hpending Hlate. simpl. rewrite Hactive. unfold tick.
  assert ((now >? startDeployment c + DEPLOYMENT_TIMEOUT (constants c))%Z
          = true) as -> by lia.
  simpl. by rewrite Hpending.
Qed.

(** The interval fires for as long as the outcome is pending; on a clock
    that passes the deadline the poller is therefore settled after the
    first late turn, with the timeout error if with nothing else. *)
Lemma poller_settles_on_schedule (time : nat → Z)
  (between : nat → list Event) (k : nat) :
  (time k > startDeployment c + DEPLOYMENT_TIMEOUT (constants c))%Z →
  outcome (run c initial (schedule time between (S k))) ≠ Pending
  ∧ (outcome (run c initial (schedule time between k)) = Pending →
     outcome (run c initial (schedule time between (S k)))
     = Rejected (timeoutError c)).
Proof.
  intros Hlate. unfold schedule.
  rewrite seq_S, flat_map_app. simpl. rewrite app_nil_r.
  fold (schedule time between k).
  change (TimerFired (time k) :: between k)
    with ([TimerFired (time k)] ++ between k).
  rewrite app_assoc, run_app, run_snoc.
  destruct (outcome (run c initial (schedule time between k))) eqn:Hprev.
  - assert (outcome (step c (run c initial (schedule time between k))
                       (TimerFired (time k))) = Rejected (timeoutError c))
      as Hrejected.
    { apply late_tick; [|done..].
      by apply (consistent_run (schedule time between k)). }
    rewrite outcome_run_settled; rewrite Hrejected; done.
  - rewrite outcome_run_settled; rewrite outcome_step_settled;
      rewrite Hprev; done.
  - rewrite outcome_run_settled; rewrite outcome_step_settled;
      rewrite Hprev; done.
Qed.

End DeploymentPollerFacts.

Section DeploymentPollerClaims.
Import DeploymentPoller.

(** C2. For a response that parsed (a non-empty [url] and a non-empty
    [status]) and a poller that is still pending, the classification is
    three-way: the outcome becomes Success with the reported url exactly
    when the latest stage is [deploy] with status [success], so no other
    stage name ever succeeds; it becomes Failure exactly when the status
    is none of [idle], [active], [success], and the error then names the
    stage, the status and the dashboard address of the deployment; in
    every other case it stays pending. *)
Theorem classification_is_three_way
  (c : Closure) (s : State) (r : Response) (t : string) (d : DeploymentResult) :
  url d ≠ "" → stage_status (latest_stage d) ≠ "" → outcome s = Pending →
  let stage := latest_stage d in
  let s' := step c s (ResponseArrived (Parsed r t d)) in
  let success := stage_name stage = "deploy" ∧ stage_status stage = "success" in
  let failure := stage_status stage ∉ ["idle"; "active"; "success"] in
  (outcome s' = Resolved (url d) ↔ success)
  ∧ ((∃ u, outcome s' = Resolved u) → stage_name stage = "deploy")
  ∧ ((∃ e, outcome s' = Rejected e) ↔ failure)
  ∧ (failure →
     outcome s' =
     Rejected
       (JsError
          ("Deployment " +:+ deploymentId c +:+ " has failed.

Stage: " +:+ stage_name stage +:+ "
Status: " +:+ stage_status stage +:+ "

" +:+ dash (host c) +:+ "/" +:+ CLOUDFLARE_ACCOUNT_ID (pagesProject c)
           +:+ "/pages/view/" +:+ PROJECT_NAME (pagesProject c)
           +:+ "/" +:+ deploymentId c)))
  ∧ (outcome s' = Pending ↔ ¬ success ∧ ¬ failure).
Proof.
  intros Hurl Hstatus Hpending stage s' success failure.
  assert (success → ¬ failure) as Hexclusive.
  { intros [_ Hsuccess] Hfailure. apply Hfailure. rewrite Hsuccess.
    repeat constructor. }
  assert (outcome s' =
          if decide success then Resolved (url d)
          else if decide failure then Rejected (failureError c stage)
               else Pending) as ->.
  { subst s'. simpl. unfold arrived.
    rewrite !bool_decide_eq_false_2 by done. simpl. unfold classify.
    fold stage.
    destruct (decide success) as [[Hname Hsuccess]|Hns].
    - rewrite !bool_decide_eq_true_2 by done. simpl. by rewrite Hpending.
    - assert (bool_decide (stage_name stage = "deploy")
              && bool_decide (stage_status stage = "success") = false) as ->.
      { apply andb_false_iff.
        destruct (decide (stage_name stage = "deploy"));
          destruct (decide (stage_status stage = "success"));
          rewrite ?bool_decide_eq_false; unfold success in Hns; tauto. }
      destruct (decide failure) as [Hf|Hnf].
      + rewrite (bool_decide_eq_false_2 _ Hf). simpl. by rewrite Hpending.
      + apply dec_stable in Hnf.
        rewrite (bool_decide_eq_true_2 _ Hnf). simpl. done. }
  unfold failureError.
  destruct (decide success) as [Hs|Hs]; [|destruct (decide failure) as [Hf|Hf]];
    unfold success, failure in *; clear s'; split_and!;
    repeat match goal with
           | |- _ ↔ _ => split
           | |- _ → _ => intro
           | H : ∃ _, _ |- _ => destruct H
           end;
    first [done | discriminate | tauto | by eexists].
Qed.

Lemma classification_is_three_way_witness :
  outcome (step sampleClosure initial
             (ResponseArrived (sampleDeployment "deploy" "success")))
  = Resolved "https://fixture.pages.dev"
  ∧ outcome (step sampleClosure initial
               (ResponseArrived (sampleDeployment "build" "success")))
    = Pending.
Proof.
  split.
  - apply (classification_is_three_way sampleClosure initial okResponse "{...}"
             {| url := "https://fixture.pages.dev";
                latest_stage :=
                  {| stage_name := "deploy"; stage_status := "success" |} |});
      [discriminate | discriminate | reflexivity |].
    split; reflexivity.
  - apply (classification_is_three_way sampleClosure initial okResponse "{...}"
             {| url := "https://fixture.pages.dev";
                latest_stage :=
                  {| stage_name := "build"; stage_status := "success" |} |});
      [discriminate | discriminate | reflexivity |].
    split.
    + intros [H _]. discriminate H.
    + intros H. apply H. repeat constructor.
Defined.

(** C3, what the code does instead. Entering [catch] raises the counter
    and, up to the threshold, the error is only logged; but once the
    counter exceeds the threshold the error is thrown inside the detached
    asynchronous body and [rejectWithDeploymentFailure] is not called: no
    [ErrorTransformed] turn changes the outcome or clears the interval.
    After three failed ticks against a threshold of two the counter is
    three, the outcome promise is still pending, the interval still
    active, and the wrapped error sits in a rejected promise that nothing
    awaits. *)
Theorem threshold_breach_leaves_outcome_pending :
  (∀ (c : Closure) (s : State) (n : nat),
      outcome (step c s (ErrorTransformed n)) = outcome s
      ∧ intervalActive (step c s (ErrorTransformed n)) = intervalActive s)
  ∧ let s := run sampleClosure initial threeFailures in
    notOkResponses s = 3%Z
    ∧ (notOkResponses s
       > DEPLOYMENT_CHECK_API_FAILURES_THRESHOLD (constants sampleClosure))%Z
    ∧ outcome s = Pending
    ∧ intervalActive s = true
    ∧ unhandledRejections s
      = [ResponseError None None
           (Message "Could not parse Deployment API response. Not-OK API response 3 of 2.")].
Proof.
  split.
  - intros c s n. simpl. unfold transformed.
    by destruct (awaitingError s !! n).
  - repeat split.
Qed.

(** C5. The timeout check opens the interval callback. While the outcome
    is pending the interval is active, so the callback keeps firing; the
    first time it fires later than [DEPLOYMENT_TIMEOUT] after the start,
    the outcome becomes Failure with the timeout error, before the fetch
    of that tick is started (which it still is); and whatever this and
    the earlier fetches answer afterwards, the outcome stays that
    Failure. *)
Theorem timeout_rejects_pending_poller
  (c : Closure) (evs rest : list Event) (now : Z) :
  outcome (run c initial evs) = Pending →
  (now > startDeployment c + DEPLOYMENT_TIMEOUT (constants c))%Z →
  intervalActive (run c initial evs) = true
  ∧ step c (run c initial evs) (TimerFired now)
    = tick c now (run c initial evs)
  ∧ outcome (rejectWithDeploymentFailure (timeoutError c) (run c initial evs))
    = Rejected (timeoutError c)
  ∧ fetchesStarted (run c initial (evs ++ [TimerFired now]))
    = S (fetchesStarted (run c initial evs))
  ∧ outcome (run c initial (evs ++ [TimerFired now])) = Rejected (timeoutError c)
  ∧ outcome (run c initial (evs ++ TimerFired now :: rest))
    = Rejected (timeoutError c).
Proof.
  intros Hpending Hlate.
  assert (intervalActive (run c initial evs) = true) as Hactive.
  { by apply (consistent_run c evs). }
  assert (outcome (run c initial (evs ++ [TimerFired now]))
          = Rejected (timeoutError c)) as Hrejected.
  { rewrite run_snoc. simpl. rewrite Hactive. unfold tick.
    assert ((now >? startDeployment c + DEPLOYMENT_TIMEOUT (constants c))%Z
            = true) as -> by lia.
    simpl. by rewrite Hpending. }
  split_and!; try done.
  - simpl. by rewrite Hactive.
  - simpl. by rewrite Hpending.
  - rewrite run_snoc. simpl. rewrite Hactive. unfold tick.
    by destruct (_ >? _)%Z.
  - change (TimerFired now :: rest) with ([TimerFired now] ++ rest).
    rewrite app_assoc, run_app, outcome_run_settled; rewrite Hrejected; done.
Qed.

Lemma timeout_rejects_pending_poller_witness :
  outcome (run sampleClosure initial threeFailures) = Pending
  ∧ outcome (run sampleClosure initial
               (threeFailures
                ++ TimerFired 600001
                   :: [ResponseArrived (sampleDeployment "deploy" "success")]))
    = Rejected
        (JsError "Deployment did not complete within the timeout of 600000 ms.").
Proof.
  split; [reflexivity|].
  apply (timeout_rejects_pending_poller sampleClosure threeFailures
           [ResponseArrived (sampleDeployment "deploy" "success")] 600001);
    [reflexivity | reflexivity].
Defined.

End DeploymentPollerClaims.

(** ** The edge-availability poller *)

Section EdgePollerClaims.
Import EdgePoller.

Lemma edge_run_snoc (c : Closure) (s : State) (evs : list Event) (ev : Event) :
  run c s (evs ++ [ev]) = step c (run c s evs) ev.
Proof. unfold run. by rewrite fold_left_app. Qed.

Lemma edge_outcome_step (c : Closure) (s : State) (ev : Event) :
  outcome s ≠ Pending → outcome (step c s ev) = outcome s.
Proof.
  intros Hs. destruct ev as [now|[|[|]]]; simpl; try done.
  - destruct (intervalActive s); [|done]. unfold tick.
    destruct (_ >? _)%Z; simpl; [by apply settle_settled | done].
  - by apply settle_settled.
Qed.

Lemma edge_consistent (c : Closure) (evs : list Event) :
  intervalActive (run c initial evs) = true ↔ outcome (run c initial evs) = Pending.
Proof.
  induction evs as [|ev evs IH] using rev_ind; [done|].
  rewrite edge_run_snoc. destruct ev as [now|[|[|]]]; simpl; try done.
  - destruct (intervalActive (run c initial evs)) eqn:Hactive;
      [|by rewrite Hactive].
    unfold tick. destruct (_ >? _)%Z; simpl; [|by rewrite Hactive].
    split; [done|]. intros Hp. by apply settle_not_Pending in Hp.
  - split; [done|]. intros Hp. by apply settle_not_Pending in Hp.
Qed.

(** The only rejection is the one of the timeout check. *)
Lemma edge_rejected_by_timeout (c : Closure) (evs : list Event) (e : Error) :
  outcome (run c initial evs) = Rejected e →
  e = timeoutError c
  ∧ ∃ now, TimerFired now ∈ evs
           ∧ (now > startProvisioner c + PROVISIONER_TIMEOUT (constants c))%Z.
Proof.
  induction evs as [|ev evs IH] using rev_ind; [done|].
  rewrite edge_run_snoc. intros Hrejected.
  assert (outcome (run c initial evs) = Rejected e →
          e = timeoutError c
          ∧ ∃ now, TimerFired now ∈ evs ++ [ev]
                   ∧ (now > startProvisioner c
                            + PROVISIONER_TIMEOUT (constants c))%Z) as Hbefore.
  { intros H. destruct (IH H) as (-> & now & Hin & Hlate).
    split; [done|]. exists now. split; [|done].
    apply elem_of_app. by left. }
  destruct (outcome (run c initial evs)) as [|u|e'] eqn:Hprev.
  - destruct ev as [now|[|[|]]]; simpl in Hrejected;
      rewrite ?Hprev in Hrejected; try done.
    destruct (intervalActive (run c initial evs)); [|congruence].
    unfold tick in Hrejected.
    destruct (now >? _)%Z eqn:Hlate; simpl in Hrejected;
      rewrite Hprev in Hrejected; [|done].
    injection Hrejected as <-. split; [done|]. exists now.
    split; [|lia]. apply elem_of_app. right. by apply list_elem_of_singleton.
  - rewrite edge_outcome_step in Hrejected by (by rewrite Hprev). congruence.
  - rewrite edge_outcome_step in Hrejected by (by rewrite Hprev).
    apply Hbefore. congruence.
Qed.

(** Only a probe classified as provisioned resolves the poller. *)
Lemma edge_resolved_by_probe (c : Closure) (evs : list Event) :
  outcome (run c initial evs) = Resolved tt →
  ProbeSettled (ProbeAnswered false) ∈ evs.
Proof.
  induction evs as [|ev evs IH] using rev_ind; [done|].
  rewrite edge_run_snoc. intros Hresolved.
  destruct (outcome (run c initial evs)) as [|[]|e] eqn:Hprev.
  - destruct ev as [now|[|[|]]]; simpl in Hresolved;
      rewrite ?Hprev in Hresolved; try done.
    + destruct (intervalActive (run c initial evs)); [|congruence].
      unfold tick in Hresolved.
      destruct (_ >? _)%Z; simpl in Hresolved; rewrite Hprev in Hresolved;
        done.
    + apply elem_of_app. right. by apply list_elem_of_singleton.
  - apply elem_of_app. left. by apply IH.
  - rewrite edge_outcome_step in Hresolved by (by rewrite Hprev). congruence.
Qed.

Lemma edge_run_app (c : Closure) (s : State) (evs rest : list Event) :
  run c s (evs ++ rest) = run c (run c s evs) rest.
Proof. unfold run. by rewrite fold_left_app. Qed.

Lemma edge_outcome_run (c : Closure) (s : State) (evs : list Event) :
  outcome s ≠ Pending → outcome (run c s evs) = outcome s.
Proof.
  revert s. induction evs as [|ev evs IH]; intros s Hs; [done|].
  simpl. rewrite IH; rewrite edge_outcome_step; done.
Qed.

(** C7. In every state the edge poller reaches: a probe that threw is
    logged at debug level and changes nothing else (there is no counter
    to raise); a probe classified as provisioned resolves a pending
    poller; a Failure, if there is one, is the timeout error and comes
    from a tick later than [PROVISIONER_TIMEOUT] after the start; and
    when no tick is that late, one probe classified as provisioned is
    enough for Success, whatever threw before or after. An answer
    classified as not yet provisioned is logged at debug level too and
    changes nothing else; so Success is reached only through a probe
    classified as provisioned, and it is the first such probe that
    resolves the poller: before it the poller is pending, with it the
    poller is resolved, and it stays so. *)
Theorem edge_poller_fails_only_by_timeout (c : Closure) (evs : list Event) :
  let s := run c initial evs in
  let provisioned := ProbeSettled (ProbeAnswered false) in
  let notYet := ProbeSettled (ProbeAnswered true) in
  let inTime (evs : list Event) :=
    ∀ now, TimerFired now ∈ evs →
           (now ≤ startProvisioner c + PROVISIONER_TIMEOUT (constants c))%Z in
  (outcome (step c s (ProbeSettled ProbeThrew)) = outcome s
   ∧ intervalActive (step c s (ProbeSettled ProbeThrew)) = intervalActive s
   ∧ probesStarted (step c s (ProbeSettled ProbeThrew)) = probesStarted s
   ∧ logged (step c s (ProbeSettled ProbeThrew))
     = logged s ++ [LogText debug "Could not check the deployment URL."])
  ∧ (outcome s = Pending → outcome (step c s provisioned) = Resolved tt)
  ∧ (∀ e, outcome s = Rejected e →
          e = timeoutError c
          ∧ ∃ now, TimerFired now ∈ evs
                   ∧ (now > startProvisioner c
                            + PROVISIONER_TIMEOUT (constants c))%Z)
  ∧ (inTime evs → provisioned ∈ evs → outcome s = Resolved tt)
  ∧ (outcome (step c s notYet) = outcome s
     ∧ intervalActive (step c s notYet) = intervalActive s
     ∧ probesStarted (step c s notYet) = probesStarted s
     ∧ logged (step c s notYet)
       = logged s
         ++ [LogText debug "Deployment is not yet available at the edge."])
  ∧ (outcome s = Resolved tt → provisioned ∈ evs)
  ∧ (∀ before after,
       evs = before ++ provisioned :: after →
       provisioned ∉ before →
       inTime before →
       outcome (run c initial before) = Pending
       ∧ outcome (run c initial (before ++ [provisioned])) = Resolved tt
       ∧ outcome s = Resolved tt).
Proof.
  intros s provisioned notYet inTime. split_and!; try done.
  - intros Hpending. simpl. by rewrite Hpending.
  - apply edge_rejected_by_timeout.
  - subst s. intros Hintime Hprobe.
    assert (∀ e, outcome (run c initial evs) ≠ Rejected e) as Hnot.
    { intros e He. apply edge_rejected_by_timeout in He as (_ & now & Hin & Hlate).
      specialize (Hintime now Hin). lia. }
    clear Hintime. revert Hprobe Hnot.
    induction evs as [|ev evs IH] using rev_ind; intros Hprobe Hnot.
    + by apply elem_of_nil in Hprobe.
    + rewrite edge_run_snoc in *.
      destruct (outcome (run c initial evs)) as [|[]|e'] eqn:Hprev.
      * apply elem_of_app in Hprobe as [Hprobe|Hprobe].
        { exfalso. assert (Pending = Resolved tt) as Habsurd; [|done].
          apply IH; [done|]. intros e He. done. }
        apply list_elem_of_singleton in Hprobe as <-. simpl. by rewrite Hprev.
      * rewrite edge_outcome_step by (by rewrite Hprev). done.
      * exfalso. apply (Hnot e').
        rewrite edge_outcome_step by (by rewrite Hprev). done.
  - apply edge_resolved_by_probe.
  - intros before after -> Hfirst Hintime.
    assert (outcome (run c initial before) = Pending) as Hpending.
    { destruct (outcome (run c initial before)) as [|[]|e] eqn:Hprev; [done| |].
      - by apply edge_resolved_by_probe in Hprev.
      - apply edge_rejected_by_timeout in Hprev as (_ & now & Hin & Hlate).
        specialize (Hintime now Hin). lia. }
    assert (outcome (run c initial (before ++ [provisioned])) = Resolved tt)
      as Hresolved.
    { rewrite edge_run_snoc. simpl. by rewrite Hpending. }
    split_and!; [done..|]. subst s.
    change (provisioned :: after) with ([provisioned] ++ after).
    rewrite app_assoc, edge_run_app.
    rewrite edge_outcome_run; rewrite Hresolved; done.
Qed.

Lemma edge_poller_fails_only_by_timeout_witness :
  let before :=
    [TimerFired 7000; ProbeSettled ProbeThrew; TimerFired 8000;
     ProbeSettled (ProbeAnswered true); TimerFired 9000] in
  let evs :=
    before ++ ProbeSettled (ProbeAnswered false) :: [ProbeSettled ProbeThrew] in
  outcome (run sampleEdgeClosure initial before) = Pending
  ∧ outcome (run sampleEdgeClosure initial evs) = Resolved tt.
Proof.
  intros before evs.
  destruct (edge_poller_fails_only_by_timeout sampleEdgeClosure evs)
    as (_ & _ & _ & _ & _ & _ & Hfirst).
  destruct (Hfirst before [ProbeSettled ProbeThrew]) as (Hpending & _ & Hresolved).
  - reflexivity.
  - intros Hin.
    repeat (apply elem_of_cons in Hin as [Hin|Hin]; [discriminate Hin|]).
    by apply elem_of_nil in Hin.
  - intros now Hin.
    repeat (apply elem_of_cons in Hin as [Hin|Hin];
            [first [discriminate Hin | injection Hin as ->; vm_compute; discriminate]|]).
    by apply elem_of_nil in Hin.
  - split; [exact Hpending|exact Hresolved].
Defined.

End EdgePollerClaims.

(** ** The orchestration *)

Section OrchestrationFacts.

#[local] Arguments verifyProject : simpl never.
#[local] Arguments updatePayload : simpl never.
#[local] Arguments combinedDeploymentConfig : simpl never.
#[local] Arguments String.append : simpl never.
#[local] Arguments show : simpl never.
#[local] Arguments DeploymentPoller.run : simpl never.
#[local] Arguments EdgePoller.run : simpl never.

(** A membership in an explicit list of calls that no element allows. *)
Ltac absent H :=
  repeat (apply elem_of_cons in H as [H|H]; [discriminate H|]);
  apply elem_of_nil in H; destruct H.

Lemma bind_calls {A B} (m : Run A) (k : A → Run B) :
  (m ≫= k).1 = m.1 ++ match m.2 with Returned a => (k a).1 | _ => [] end.
Proof. destruct m as [calls [a|e|]]; simpl; by rewrite ?app_nil_r. Qed.

Lemma bind_result {A B} (m : Run A) (k : A → Run B) :
  (m ≫= k).2 =
  match m.2 with
  | Returned a => (k a).2
  | Threw e => Threw e
  | Awaiting => Awaiting
  end.
Proof. by destruct m as [calls [a|e|]]. Qed.


(** [configureProject] never touches the mutex and never waits on a
    poller; when it returns it has made its two requests, the second one
    carrying the payload computed from the first one's answer. *)
Lemma configureProject_calls w e h creds fixtureConfig combined :
  let r := configureProject w e h creds fixtureConfig combined in
  (∀ m, ReleaseMutex m ∉ r.1)
  ∧ r.2 ≠ Awaiting
  ∧ (∀ project, r.2 = Returned project →
       ∃ r0 t0 initialProject,
         initialProjectState w = Parsed r0 t0 (Some initialProject)
         ∧ effects r.1 =
           [Http "GET" (projectUrl h creds) NoBody;
            Http "PATCH" (projectUrl h creds)
              (ProjectBody
                 (updatePayload e fixtureConfig combined initialProject))]).
Proof.
  unfold configureProject.
  destruct (bool_decide (e ∈ [Production; Staging])); simpl;
    [destruct (initialProjectState w) as [| | |r0 t0 [initialProject|]]; simpl;
     [..|destruct (patchedProject w) as [| | |r t [project|]]; simpl;
         [..|destruct (verifyProject e fixtureConfig combined project); simpl|]|]|];
    (split_and!; [intros m Hm; absent Hm | done | intros p Hp; try done]).
  all: by eexists _, _, _.
Qed.


(** Once the mutex is acquired, a throw of [configureProject] or of the
    firing of the deploy hook ends [triggerDeployment] before the release. *)
Lemma triggerDeployment_thrown cfg w e h creds fixtureConfig combined
  directory branch key m :
  let r :=
    triggerDeployment cfg w e h creds fixtureConfig combined directory branch in
  AcquireMutex key ∈ r.1 →
  mutexAcquisition w = inr m →
  (∃ thrown,
      (configureProject w e h creds fixtureConfig combined).2 = Threw thrown)
  ∨ truthy (deployHookFired w) = None →
  (∀ m', ReleaseMutex m' ∉ r.1) ∧ ∃ thrown, r.2 = Threw thrown.
Proof.
  intros r. subst r. unfold triggerDeployment, required.
  pose proof (configureProject_calls w e h creds fixtureConfig combined)
    as (Hnever & Hsettles & _).
  destruct (GIT_REPO creds) as [repo|];
    [destruct (bool_decide (repo = ""))|];
    [simpl; intros Hin; absent Hin| |simpl; intros Hin; absent Hin].
  destruct (gitPushed w); [simpl; intros Hin; absent Hin|].
  destruct (truthy (deployHookCreation w)) as [hookId|];
    [|simpl; intros Hin; absent Hin].
  intros _ -> Hthrows.
  destruct (configureProject w e h creds fixtureConfig combined)
    as [cc [project|thrown|]] eqn:Hcp; [| |done].
  - destruct Hthrows as [[thrown Hthrown]|Hfired]; [done|].
    rewrite Hfired. simpl. split; [|by eexists].
    intros m' Hin.
    repeat (apply elem_of_cons in Hin as [Hin|Hin]; [discriminate Hin|]).
    apply elem_of_app in Hin as [Hin|Hin]; [by apply Hnever in Hin|].
    absent Hin.
  - simpl. split; [|by eexists].
    intros m' Hin.
    repeat (apply elem_of_cons in Hin as [Hin|Hin]; [discriminate Hin|]).
    rewrite ?app_nil_r in Hin. by apply Hnever in Hin.
Qed.


(** The local branch has nothing to do with the mutex. *)
Lemma localDeployment_calls cfg w fixtureConfig combined directory :
  let r := localDeployment cfg w fixtureConfig combined directory in
  (∀ key, AcquireMutex key ∉ r.1) ∧ (∀ m, ReleaseMutex m ∉ r.1).
Proof.
  intros r. subst r. unfold localDeployment.
  destruct (rootDirectory (buildConfig fixtureConfig)) as [root|];
    [|split; intros ? Hin; simpl in Hin; absent Hin].
  destruct (buildOutputDirectory (buildConfig fixtureConfig)) as [output|];
    destruct (bool_decide (keys _ = []));
    destruct (wranglerStarted w);
    (destruct (buildCommand (buildConfig fixtureConfig)) as [command|];
     [destruct (decide (command = "")); [|destruct (built w)]|]);
    split; intros ? Hin; simpl in Hin; absent Hin.
Qed.

(** The polling part makes no call but to the logger and to [setInterval]. *)
Lemma awaitDeployment_calls cfg w e h creds id :
  let r := awaitDeployment cfg w e h creds id in
  (∀ m, ReleaseMutex m ∉ r.1)
  ∧ (∀ key, AcquireMutex key ∉ r.1)
  ∧ ∃ rest, effects r.1 = SetInterval DeploymentCheck :: rest
            ∧ (rest = [] ∨ rest = [SetInterval ProvisionerCheck]).
Proof.
  intros r. subst r. unfold awaitDeployment, waitForDeploymentToBeProvisioned.
  destruct (DeploymentPoller.outcome _) as [|url|thrown];
    destruct (decide (e = Production));
    try destruct (EdgePoller.outcome _) as [|[]|thrown'];
    simpl;
    (split_and!;
     [intros m Hin; absent Hin | intros m Hin; absent Hin
     | eexists; split; [reflexivity|tauto]]).
Qed.

(** From here on the three parts of [createDeployment] are taken as
    wholes. *)
Opaque awaitDeployment localDeployment triggerDeployment.



(** C9. The release is the last step of the straight-line code and no
    [finally] guards it: in a run that acquired the mutex, if
    [configureProject] throws or the firing of the deploy hook throws,
    [createDeployment] throws too and never calls [releaseMutex]. *)
Theorem mutex_leaked_when_critical_section_throws
  (cfg : Config) (w : World) (timestamp : Z) (e : Environment)
  (trigger : Trigger) (fixture : string) (fixtureConfig : FixtureConfig)
  (featuresConfig : FeaturesConfig) (directory : string)
  (h : Host) (creds : PagesProjectCredentials) (key : string) (m : Mutex) :
  let run :=
    createDeployment cfg w timestamp e trigger fixture fixtureConfig
      featuresConfig directory in
  let combined := combinedDeploymentConfig fixtureConfig featuresConfig in
  HOSTS cfg e = Some h →
  PAGES_PROJECTS cfg e trigger = Some creds →
  AcquireMutex key ∈ run.1 →
  mutexAcquisition w = inr m →
  (∃ thrown,
      (configureProject w e h creds fixtureConfig combined).2 = Threw thrown)
  ∨ truthy (deployHookFired w) = None →
  (∀ m', ReleaseMutex m' ∉ run.1) ∧ ∃ thrown, run.2 = Threw thrown.
Proof.
  intros run combined Hhost Hproject. subst run.
  unfold createDeployment, remoteDeployment, present.
  fold combined. rewrite Hhost, Hproject.
  set (branch := fixture +:+ "-" +:+ show timestamp).
  destruct (gitCommitted w); [simpl; intros Hin; absent Hin|].
  destruct (decide (e = Local)) as [->|He].
  { destruct (localDeployment_calls cfg w fixtureConfig combined directory)
      as [Hnever _].
    simpl. intros Hin.
    do 2 (apply elem_of_cons in Hin as [Hin|Hin]; [discriminate Hin|]).
    by apply Hnever in Hin. }
  destruct (decide (trigger = DirectUpload)).
  { destruct (awaitDeployment_calls cfg w e h creds "undefined")
      as (_ & Hnever & _).
    simpl. intros Hin.
    do 2 (apply elem_of_cons in Hin as [Hin|Hin]; [discriminate Hin|]).
    by apply Hnever in Hin. }
  pose proof (triggerDeployment_thrown cfg w e h creds fixtureConfig combined
                directory branch key m) as Hthrown.
  simpl.
  destruct (triggerDeployment cfg w e h creds fixtureConfig combined directory
              branch) as [tc result].
  simpl in Hthrown. intros Hin Hacquired Hthrows.
  assert (AcquireMutex key ∈ tc) as Htc.
  { do 2 (apply elem_of_cons in Hin as [Hin|Hin]; [discriminate Hin|]).
    rewrite bind_calls in Hin. simpl in Hin.
    apply elem_of_app in Hin as [Hin|Hin]; [done|].
    destruct result as [id|thrown|]; [|by apply elem_of_nil in Hin..].
    destruct (awaitDeployment_calls cfg w e h creds id) as (_ & Hnever & _).
    by apply Hnever in Hin. }
  destruct (Hthrown Htc Hacquired Hthrows) as (Hnever & thrown & ->).
  simpl. split; [|by eexists].
  intros m' Hin'.
  do 2 (apply elem_of_cons in Hin' as [Hin'|Hin']; [discriminate Hin'|]).
  rewrite ?app_nil_r in Hin'. by apply Hnever in Hin'.
Qed.

Transparent awaitDeployment localDeployment triggerDeployment.

(** Finding a call in the calls of a run that computes. *)
Ltac found :=
  apply list_elem_of_In; vm_compute; repeat (first [left; reflexivity | right]).


Lemma mutex_leaked_when_critical_section_throws_witness :
  let run :=
    createDeployment sampleConfig staleWorld 1700000000 Staging
      (GitIntegration "github") "fixture" plainFixture noFeatures "/tmp/work" in
  AcquireMutex "https://api.example.com:account:project" ∈ run.1
  ∧ (∀ m', ReleaseMutex m' ∉ run.1)
  ∧ ∃ thrown, run.2 = Threw thrown.
Proof.
  intros run.
  assert (AcquireMutex "https://api.example.com:account:project" ∈ run.1)
    as Hacquired by found.
  split; [exact Hacquired|].
  apply (mutex_leaked_when_critical_section_throws sampleConfig staleWorld
           1700000000 Staging (GitIntegration "github") "fixture" plainFixture
           noFeatures "/tmp/work" sampleHost sampleCredentials
           "https://api.example.com:account:project" {| lease := "lease" |});
    [reflexivity | reflexivity | exact Hacquired | reflexivity |].
  left. eexists. reflexivity.
Defined.

End OrchestrationFacts.

(** * Further properties *)

(** ** The reconciler as a whole *)

Section ReconcilerFacts.

#[local] Arguments verifyProject : simpl never.
#[local] Arguments updatePayload : simpl never.
#[local] Arguments combinedDeploymentConfig : simpl never.
#[local] Arguments String.append : simpl never.

(** When [configureProject] returns, both exchanges parsed and every
    assertion on the second answer held. *)
Lemma configureProject_returned w e h creds fixtureConfig combined project :
  (configureProject w e h creds fixtureConfig combined).2 = Returned project →
  e ≠ Local
  ∧ (∃ r t, patchedProject w = Parsed r t (Some project))
  ∧ verifyProject e fixtureConfig combined project = None.
Proof.
  unfold configureProject.
  destruct (decide (e ∈ [Production; Staging])) as [He|He].
  - rewrite (bool_decide_eq_true_2 _ He). simpl.
    destruct (initialProjectState w) as [| | |r0 t0 [initialProject|]];
      simpl; try done.
    destruct (patchedProject w) as [| | |r t [answer|]]; simpl; try done.
    destruct (verifyProject e fixtureConfig combined answer) eqn:Hverified;
      simpl; [done|].
    intros [= <-]. split_and!; [|by eexists _, _|done].
    intros ->. apply elem_of_cons in He as [?|He]; [done|].
    apply elem_of_cons in He as [?|He]; [done|]. by apply elem_of_nil in He.
  - rewrite (bool_decide_eq_false_2 _ He). done.
Qed.

(** X1. [configureProject] reads before it writes, and writes what it
    computed from what it read. Its requests are none at all (in the
    local environment, where its opening assertion fails), or the GET
    alone (when the project could not be read, and then it throws the
    error made of that answer), or the GET followed by the PATCH of the
    payload computed from the project the GET returned. *)
Theorem configureProject_reads_before_writing
  (w : World) (e : Environment) (h : Host) (creds : PagesProjectCredentials)
  (fixtureConfig : FixtureConfig) (combined : CombinedDeploymentConfig) :
  let r := configureProject w e h creds fixtureConfig combined in
  (e = Local ∧ r.1 = []
   ∧ r.2 = Threw (AssertionError "The expression evaluated to a falsy value"))
  ∨ (e ≠ Local
     ∧ effects r.1 = [Http "GET" (projectUrl h creds) NoBody]
     ∧ (∀ r0 t0 p, initialProjectState w ≠ Parsed r0 t0 (Some p))
     ∧ r.2 = Threw (ResponseError (responseOf (initialProjectState w))
                      (textOf (initialProjectState w)) NoMessage))
  ∨ (e ≠ Local
     ∧ ∃ r0 t0 initialProject,
         initialProjectState w = Parsed r0 t0 (Some initialProject)
         ∧ effects r.1 =
           [Http "GET" (projectUrl h creds) NoBody;
            Http "PATCH" (projectUrl h creds)
              (ProjectBody
                 (updatePayload e fixtureConfig combined initialProject))]).
Proof.
  intros r. subst r. unfold configureProject.
  destruct e; simpl; [by left|..].
  all: destruct (initialProjectState w) as [| | |r0 t0 [initialProject|]];
    simpl; try (right; left; split_and!; done).
  all: right; right; split; [done|]; exists r0, t0, initialProject;
    split; [done|].
  all: destruct (patchedProject w) as [| | |r t [answer|]]; simpl; try done.
  all: by destruct (verifyProject _ fixtureConfig combined answer).
Qed.

(** A build field the fixture leaves undefined passes its assertion only
    against a field the answer leaves out. *)
Lemma undefined_field_verified f e fixtureConfig combined project :
  fixtureField f fixtureConfig = None →
  verifyProject e fixtureConfig combined project = None →
  remoteField f project = None.
Proof.
  intros Hundefined Hverified.
  apply firstFailure_None in Hverified.
  rewrite Forall_lookup in Hverified.
  specialize (Hverified _ _ (assertions_field f e fixtureConfig combined project)).
  simpl in Hverified. unfold strictEqual in Hverified.
  rewrite Hundefined in Hverified. by apply bool_decide_eq_true in Hverified.
Qed.



(** X3. A fixture that leaves one of the three build fields undefined is
    reconciled only by an answer that leaves the field out: the payload
    carries the empty string for the field, and the answer's field is
    compared with [===] to the raw, undefined, fixture field. So a
    project [configureProject] returns has no such field, and whenever
    the answer to the PATCH carries the field, [configureProject]
    throws. *)
Theorem undefined_build_field_reconciles_only_if_omitted
  (w : World) (e : Environment) (h : Host) (creds : PagesProjectCredentials)
  (fixtureConfig : FixtureConfig) (combined : CombinedDeploymentConfig)
  (f : BuildField) :
  fixtureField f fixtureConfig = None →
  (∀ project,
     (configureProject w e h creds fixtureConfig combined).2 = Returned project →
     remoteField f project = None)
  ∧ ((∀ r t project,
        patchedProject w = Parsed r t (Some project) →
        is_Some (remoteField f project)) →
     ∃ thrown,
       (configureProject w e h creds fixtureConfig combined).2 = Threw thrown).
Proof.
  intros Hundefined.
  assert (∀ project,
            (configureProject w e h creds fixtureConfig combined).2
            = Returned project →
            remoteField f project = None
            ∧ ∃ r t, patchedProject w = Parsed r t (Some project)) as Hreturned.
  { intros project Hresult.
    apply configureProject_returned in Hresult as (_ & Hanswer & Hverified).
    split; [|done]. by eapply undefined_field_verified. }
  split; [intros project Hresult; by apply Hreturned|].
  intros Hcarried.
  destruct (configureProject_calls w e h creds fixtureConfig combined)
    as (_ & Hsettles & _).
  destruct ((configureProject w e h creds fixtureConfig combined).2)
    as [project|thrown|] eqn:Hresult; [|by eexists|done].
  destruct (Hreturned project eq_refl) as (Homitted & r & t & Hanswer).
  destruct (Hcarried r t project Hanswer) as [s Hs]. congruence.
Qed.

Lemma undefined_build_field_reconciles_only_if_omitted_witness :
  let combined := combinedDeploymentConfig commandlessFixture noFeatures in
  (∃ thrown,
      (configureProject calmWorld Production sampleHost sampleCredentials
         commandlessFixture combined).2 = Threw thrown)
  ∧ (configureProject omittingWorld Production sampleHost sampleCredentials
       commandlessFixture combined).2 = Returned commandlessProject
  ∧ remoteField BuildCommand commandlessProject = None.
Proof.
  intros combined.
  destruct (undefined_build_field_reconciles_only_if_omitted calmWorld
              Production sampleHost sampleCredentials commandlessFixture
              combined BuildCommand eq_refl) as [_ Hthrown].
  destruct (undefined_build_field_reconciles_only_if_omitted omittingWorld
              Production sampleHost sampleCredentials commandlessFixture
              combined BuildCommand eq_refl) as [Homitted _].
  split_and!.
  - apply Hthrown. intros r t project [= _ _ <-]. by eexists.
  - reflexivity.
  - apply Homitted. reflexivity.
Defined.

End ReconcilerFacts.

(** ** Runs of the deployment poller *)

Section DeploymentPollerRuns.
Import DeploymentPoller.
Context (c : Closure).

(** X4. The interval and the promise go together, and the first
    transition wins: in every state the poller reaches the interval is
    active exactly when the outcome is pending, and once the outcome is
    settled no later tick, answer or [catch] continuation changes it. *)
Theorem first_transition_wins (evs rest : list Event) :
  (intervalActive (run c initial evs) = true
   ↔ outcome (run c initial evs) = Pending)
  ∧ (outcome (run c initial evs) ≠ Pending →
     outcome (run c initial (evs ++ rest)) = outcome (run c initial evs)
     ∧ intervalActive (run c initial (evs ++ rest)) = false).
Proof.
  split; [apply (consistent_run c evs)|].
  intros Hsettled.
  assert (outcome (run c initial (evs ++ rest)) = outcome (run c initial evs))
    as Hsame by (rewrite run_app; by apply outcome_run_settled).
  split; [done|].
  destruct (intervalActive (run c initial (evs ++ rest))) eqn:Hactive; [|done].
  apply (consistent_run c (evs ++ rest)) in Hactive. congruence.
Qed.

(** X5. Every settlement has its cause among the events. A Success
    carries the url of an answer that reported the stage [deploy] with
    status [success]. A Failure is either the timeout error, after a
    tick later than the deadline, or the deployment-failed error of an
    answer whose status is none of [idle], [active], [success]; it is
    never the error made of a failed fetch. *)
Theorem settlement_has_a_cause (evs : list Event) :
  (∀ u, outcome (run c initial evs) = Resolved u →
        ∃ r t d, ResponseArrived (Parsed r t d) ∈ evs
                 ∧ url d = u
                 ∧ stage_name (latest_stage d) = "deploy"
                 ∧ stage_status (latest_stage d) = "success")
  ∧ (∀ e, outcome (run c initial evs) = Rejected e →
          (e = timeoutError c
           ∧ ∃ now, TimerFired now ∈ evs
                    ∧ (now > startDeployment c
                             + DEPLOYMENT_TIMEOUT (constants c))%Z)
          ∨ (∃ r t d, ResponseArrived (Parsed r t d) ∈ evs
                      ∧ e = failureError c (latest_stage d)
                      ∧ stage_status (latest_stage d)
                        ∉ ["idle"; "active"; "success"])).
Proof.
  induction evs as [|ev evs [IHs IHf]] using rev_ind; [done|].
  rewrite run_snoc.
  assert (∀ x : Event, x ∈ evs → x ∈ evs ++ [ev]) as Hmono
    by (intros x Hx; apply elem_of_app; by left).
  assert (ev ∈ evs ++ [ev]) as Hlast
    by (apply elem_of_app; right; by apply list_elem_of_singleton).
  destruct (outcome (run c initial evs)) as [|u0|e0] eqn:Hprev.
  - (* pending so far: the last event decides *)
    destruct ev as [now|r|n]; simpl.
    + destruct (intervalActive (run c initial evs));
        [|rewrite Hprev; split; intros; done].
      unfold tick. destruct (now >? _)%Z eqn:Hlate; simpl; rewrite Hprev;
        simpl; (split; [done|]); [|done].
      intros e [= <-]. left. split; [done|]. exists now. split; [done|lia].
    + unfold arrived.
      assert (outcome (caught c r (run c initial evs)) = Pending) as Hcaught
        by done.
      destruct r as [| | |r t d];
        try (rewrite Hcaught; split; intros; done).
      destruct (bool_decide (url d = "") || _);
        [rewrite Hcaught; split; intros; done|].
      unfold classify.
      destruct (decide (stage_name (latest_stage d) = "deploy")) as [Hn|Hn];
        destruct (decide (stage_status (latest_stage d) = "success"))
          as [Hs|Hs];
        rewrite ?(bool_decide_eq_true_2 _ Hn), ?(bool_decide_eq_false_2 _ Hn),
          ?(bool_decide_eq_true_2 _ Hs), ?(bool_decide_eq_false_2 _ Hs);
        simpl.
      * rewrite Hprev. simpl. split; [|done].
        intros u [= <-]. by exists r, t, d.
      * destruct (decide (stage_status (latest_stage d)
                          ∈ ["idle"; "active"; "success"])) as [Hin|Hout].
        -- rewrite (bool_decide_eq_true_2 _ Hin). simpl. rewrite Hprev.
           split; intros; done.
        -- rewrite (bool_decide_eq_false_2 _ Hout). simpl. rewrite Hprev.
           simpl. split; [done|]. intros e [= <-]. right. by exists r, t, d.
      * destruct (decide (stage_status (latest_stage d)
                          ∈ ["idle"; "active"; "success"])) as [Hin|Hout].
        -- rewrite (bool_decide_eq_true_2 _ Hin). simpl. rewrite Hprev.
           split; intros; done.
        -- rewrite (bool_decide_eq_false_2 _ Hout). simpl. rewrite Hprev.
           simpl. split; [done|]. intros e [= <-]. right. by exists r, t, d.
      * destruct (decide (stage_status (latest_stage d)
                          ∈ ["idle"; "active"; "success"])) as [Hin|Hout].
        -- rewrite (bool_decide_eq_true_2 _ Hin). simpl. rewrite Hprev.
           split; intros; done.
        -- rewrite (bool_decide_eq_false_2 _ Hout). simpl. rewrite Hprev.
           simpl. split; [done|]. intros e [= <-]. right. by exists r, t, d.
    + unfold transformed.
      destruct (awaitingError (run c initial evs) !! n); simpl; rewrite Hprev;
        split; intros; done.
  - rewrite outcome_step_settled by (by rewrite Hprev). rewrite Hprev.
    split; [|done].
    intros u [= <-]. destruct (IHs u0 eq_refl) as (r & t & d & Hin & Hrest).
    exists r, t, d. split; [by apply Hmono | done].
  - rewrite outcome_step_settled by (by rewrite Hprev). rewrite Hprev.
    split; [done|].
    intros e [= <-]. destruct (IHf e0 eq_refl)
      as [(-> & now & Hin & Hlate)|(r & t & d & Hin & Hrest)].
    + left. split; [done|]. exists now. split; [by apply Hmono | done].
    + right. exists r, t, d. split; [by apply Hmono | done].
Qed.

(** An answer that is ongoing or unusable leaves the outcome alone. *)
Lemma quiet_response (s : State) (r : Fetched DeploymentResult) :
  unusable r ∨ ongoing r →
  outcome (step c s (ResponseArrived r)) = outcome s
  ∧ intervalActive (step c s (ResponseArrived r)) = intervalActive s.
Proof.
  intros [Hr|Hr].
  - destruct (failure_counts c s r Hr) as (_ & Ho & Ha & _). done.
  - destruct r as [| | |r t d]; try done. simpl in Hr.
    destruct Hr as (Hurl & Hin & Hnot). simpl. unfold arrived.
    rewrite (bool_decide_eq_false_2 _ Hurl).
    assert (stage_status (latest_stage d) ≠ "") as Hstatus.
    { intros Heq. rewrite Heq in Hin.
      repeat (apply elem_of_cons in Hin as [Hin|Hin]; [discriminate Hin|]).
      by apply elem_of_nil in Hin. }
    rewrite (bool_decide_eq_false_2 _ Hstatus). simpl. unfold classify.
    assert (bool_decide (stage_name (latest_stage d) = "deploy")
            && bool_decide (stage_status (latest_stage d) = "success") = false)
      as ->.
    { apply andb_false_iff.
      destruct (decide (stage_name (latest_stage d) = "deploy"));
        destruct (decide (stage_status (latest_stage d) = "success"));
        rewrite ?bool_decide_eq_false; tauto. }
    by rewrite (bool_decide_eq_true_2 _ Hin).
Qed.

(** X6. The poller waits through anything that is not terminal: after
    any number of ticks within the deadline, ongoing answers, unusable
    answers and [catch] continuations (however many, also more than the
    threshold) it is still pending with its interval active, and the
    next answer that reports [deploy] with [success] resolves it with
    the url of that answer. *)
Theorem success_after_any_wait
  (evs : list Event) (r : Response) (t : string) (d : DeploymentResult) :
  (∀ now, TimerFired now ∈ evs →
          (now ≤ startDeployment c + DEPLOYMENT_TIMEOUT (constants c))%Z) →
  (∀ a, ResponseArrived a ∈ evs → unusable a ∨ ongoing a) →
  url d ≠ "" →
  stage_name (latest_stage d) = "deploy" →
  stage_status (latest_stage d) = "success" →
  outcome (run c initial evs) = Pending
  ∧ intervalActive (run c initial evs) = true
  ∧ outcome (run c initial (evs ++ [ResponseArrived (Parsed r t d)]))
    = Resolved (url d).
Proof.
  intros Hticks Hanswers Hurl Hname Hstatus.
  assert (outcome (run c initial evs) = Pending
          ∧ intervalActive (run c initial evs) = true) as [Hpending Hactive].
  { clear Hurl Hname Hstatus.
    induction evs as [|ev evs IH] using rev_ind; [done|].
    destruct IH as [Hpending Hactive].
    { intros now Hin. apply Hticks, elem_of_app. by left. }
    { intros a Hin. apply Hanswers, elem_of_app. by left. }
    assert (ev ∈ evs ++ [ev]) as Hlast
      by (apply elem_of_app; right; by apply list_elem_of_singleton).
    rewrite run_snoc. destruct ev as [now|a|n].
    - simpl. rewrite Hactive. unfold tick.
      assert ((now >? startDeployment c + DEPLOYMENT_TIMEOUT (constants c))%Z
              = false) as ->; [|done].
      specialize (Hticks now Hlast). lia.
    - destruct (quiet_response (run c initial evs) a (Hanswers a Hlast))
        as [Ho Ha].
      by rewrite Ho, Ha.
    - simpl. unfold transformed.
      by destruct (awaitingError (run c initial evs) !! n). }
  split_and!; [done..|].
  rewrite run_snoc. simpl. unfold arrived.
  rewrite (bool_decide_eq_false_2 _ Hurl).
  assert (stage_status (latest_stage d) ≠ "") as Hne by (by rewrite Hstatus).
  rewrite (bool_decide_eq_false_2 _ Hne). simpl. unfold classify.
  rewrite !bool_decide_eq_true_2 by done. simpl. by rewrite Hpending.
Qed.

(** X7. The counter counts every entry into [catch] and nothing else:
    it is never reset and never skipped, also for answers that arrive
    after the outcome is settled. *)
Theorem counter_counts_failures (s : State) (evs : list Event) :
  notOkResponses (run c s evs)
  = (notOkResponses s + Z.of_nat (length (List.filter entersCatch evs)))%Z.
Proof.
  revert s. induction evs as [|ev evs IH]; intros s; simpl; [lia|].
  change (fold_left (step c) evs (step c s ev)) with (run c (step c s ev) evs).
  rewrite IH.
  assert (notOkResponses (step c s ev)
          = (notOkResponses s + if entersCatch ev then 1 else 0)%Z) as ->.
  { destruct ev as [now|r|n]; simpl.
    - destruct (intervalActive s); [|lia]. unfold tick.
      destruct (_ >? _)%Z; simpl; lia.
    - unfold arrived. destruct r as [| | |r t d]; simpl; try done.
      destruct (bool_decide (url d = "") || _); simpl; [done|].
      unfold classify. repeat (case_match; simpl; try lia).
    - unfold transformed. destruct (awaitingError s !! n); simpl; lia. }
  destruct (entersCatch ev); simpl; lia.
Qed.

(** The classification touches neither the counter nor the errors. *)
Lemma classify_keeps (d : DeploymentResult) (s : State) :
  awaitingError (classify c d s) = awaitingError s
  ∧ unhandledRejections (classify c d s) = unhandledRejections s
  ∧ notOkResponses (classify c d s) = notOkResponses s.
Proof. unfold classify. repeat (case_match; simpl; try done). Qed.

(** What the two lists of errors hold, and when the second one grows. *)
Lemma errors_invariant (evs : list Event) :
  let s := run c initial evs in
  Forall isTransportError (awaitingError s)
  ∧ Forall isTransportError (unhandledRejections s)
  ∧ (unhandledRejections s ≠ [] →
     (notOkResponses s
      > DEPLOYMENT_CHECK_API_FAILURES_THRESHOLD (constants c))%Z).
Proof.
  induction evs as [|ev evs IH] using rev_ind; [repeat split; done|].
  simpl in IH. destruct IH as (Hawaiting & Hunhandled & Habove).
  simpl. rewrite run_snoc.
  pose proof (notOkResponses_monotone c (run c initial evs) ev) as Hmono.
  set (s := run c initial evs) in *.
  destruct ev as [now|r|n].
  - simpl. destruct (intervalActive s); [|done]. unfold tick.
    destruct (_ >? _)%Z; simpl; done.
  - simpl in *. unfold arrived in *.
    assert (Forall isTransportError (awaitingError (caught c r s))) as Hcaught.
    { simpl. apply Forall_app. split; [done|].
      apply Forall_singleton. by eexists _, _, _. }
    destruct r as [| | |r t d]; simpl in *;
      try (split_and!; [done|done|intros H; specialize (Habove H); lia]).
    destruct (bool_decide (url d = "") || _); simpl in *;
      [split_and!; [done|done|intros H; specialize (Habove H); lia]|].
    destruct (classify_keeps d s) as (-> & -> & ->). done.
  - simpl in *. unfold transformed in *.
    destruct (awaitingError s !! n) as [e|] eqn:He; [|done]. simpl in *.
    assert (isTransportError e) as Hte.
    { rewrite Forall_lookup in Hawaiting. by eapply Hawaiting. }
    split_and!.
    + rewrite Forall_forall in Hawaiting |- *. intros x Hx.
      apply Hawaiting. by apply list_elem_of_delete_inv in Hx.
    + destruct (_ >? _)%Z; [|done]. apply Forall_app. split; [done|].
      by apply Forall_singleton.
    + destruct (notOkResponses s >? _)%Z eqn:Hgt; [lia|done].
Qed.

(** X8. The error of a failed fetch is thrown only above the threshold:
    every rejection that nothing awaits is an error made by
    [transformResponseIntoError], and none exists unless the counter has
    exceeded [DEPLOYMENT_CHECK_API_FAILURES_THRESHOLD]. *)
Theorem thrown_only_above_threshold (evs : list Event) (e : Error) :
  e ∈ unhandledRejections (run c initial evs) →
  isTransportError e
  ∧ (notOkResponses (run c initial evs)
     > DEPLOYMENT_CHECK_API_FAILURES_THRESHOLD (constants c))%Z.
Proof.
  intros Hin.
  destruct (errors_invariant evs) as (_ & Hunhandled & Habove).
  split.
  - rewrite Forall_forall in Hunhandled. by apply Hunhandled.
  - apply Habove. intros Hnil. rewrite Hnil in Hin. by apply elem_of_nil in Hin.
Qed.

End DeploymentPollerRuns.

Lemma first_transition_wins_witness :
  DeploymentPoller.outcome
    (DeploymentPoller.run sampleClosure DeploymentPoller.initial
       (DeploymentPoller.answered 5000 (sampleDeployment "deploy" "success")
        ++ threeFailures))
  = Resolved "https://fixture.pages.dev".
Proof.
  destruct (first_transition_wins sampleClosure
              (DeploymentPoller.answered 5000
                 (sampleDeployment "deploy" "success"))
              threeFailures) as [_ Hsettled].
  destruct Hsettled as [Hsame _]; [vm_compute; discriminate|].
  rewrite Hsame. reflexivity.
Defined.

Lemma settlement_has_a_cause_witness :
  ∃ r t d,
    DeploymentPoller.ResponseArrived (Parsed r t d)
    ∈ DeploymentPoller.answered 5000 (sampleDeployment "deploy" "success")
    ∧ DeploymentPoller.url d = "https://fixture.pages.dev"
    ∧ DeploymentPoller.stage_name (DeploymentPoller.latest_stage d) = "deploy"
    ∧ DeploymentPoller.stage_status (DeploymentPoller.latest_stage d)
      = "success".
Proof.
  destruct (settlement_has_a_cause sampleClosure
              (DeploymentPoller.answered 5000
                 (sampleDeployment "deploy" "success"))) as [Hresolved _].
  apply Hresolved. reflexivity.
Defined.

Lemma success_after_any_wait_witness :
  DeploymentPoller.outcome
    (DeploymentPoller.run sampleClosure DeploymentPoller.initial
       ((DeploymentPoller.answered 5000 (sampleDeployment "build" "active")
         ++ DeploymentPoller.failed 10000 FetchThrew
         ++ DeploymentPoller.answered 15000 (sampleDeployment "deploy" "active"))
        ++ [DeploymentPoller.ResponseArrived
              (sampleDeployment "deploy" "success")]))
  = Resolved "https://fixture.pages.dev".
Proof.
  apply (success_after_any_wait sampleClosure
           (DeploymentPoller.answered 5000 (sampleDeployment "build" "active")
            ++ DeploymentPoller.failed 10000 FetchThrew
            ++ DeploymentPoller.answered 15000
                 (sampleDeployment "deploy" "active"))
           okResponse "{...}"
           {| DeploymentPoller.url := "https://fixture.pages.dev";
              DeploymentPoller.latest_stage :=
                {| DeploymentPoller.stage_name := "deploy";
                   DeploymentPoller.stage_status := "success" |} |}).
  - intros now Hin.
    repeat (apply elem_of_cons in Hin as [Hin|Hin];
            [first [discriminate Hin
                   | injection Hin as ->; vm_compute; discriminate]|]).
    by apply elem_of_nil in Hin.
  - intros a Hin.
    repeat (apply elem_of_cons in Hin as [Hin|Hin];
            [first [discriminate Hin | injection Hin as ->]|]).
    + right. simpl. split_and!; [discriminate| |by intros [? _]].
      apply list_elem_of_further, list_elem_of_here.
    + by left.
    + right. simpl. split_and!; [discriminate| |by intros [_ ?]].
      apply list_elem_of_further, list_elem_of_here.
    + by apply elem_of_nil in Hin.
  - discriminate.
  - reflexivity.
  - reflexivity.
Defined.

Lemma thrown_only_above_threshold_witness :
  let e :=
    ResponseError None None
      (Message "Could not parse Deployment API response. Not-OK API response 3 of 2.") in
  e ∈ DeploymentPoller.unhandledRejections
        (DeploymentPoller.run sampleClosure DeploymentPoller.initial
           threeFailures)
  ∧ isTransportError e.
Proof.
  intros e.
  assert (e ∈ DeploymentPoller.unhandledRejections
                (DeploymentPoller.run sampleClosure DeploymentPoller.initial
                   threeFailures)) as Hin by apply list_elem_of_here.
  split; [exact Hin|].
  apply (thrown_only_above_threshold sampleClosure threeFailures e Hin).
Defined.

(** ** Runs of the edge-availability poller *)

Section EdgePollerRuns.
Import EdgePoller.

(** X9. The edge poller settles once and for a reason: its interval is
    active exactly while the outcome is pending; a settled outcome is
    not changed by any later tick or probe; and when it is Success, some
    probe of the url was answered and classified as provisioned (ticks,
    not-yet-provisioned answers and probes that threw never resolve it). *)
Theorem edge_poller_settles_once (c : Closure) (evs rest : list Event) :
  (intervalActive (run c initial evs) = true
   ↔ outcome (run c initial evs) = Pending)
  ∧ (outcome (run c initial evs) ≠ Pending →
     outcome (run c initial (evs ++ rest)) = outcome (run c initial evs))
  ∧ (outcome (run c initial evs) = Resolved tt →
     ProbeSettled (ProbeAnswered false) ∈ evs).
Proof.
  split_and!.
  - apply edge_consistent.
  - intros Hsettled. rewrite edge_run_app. by apply edge_outcome_run.
  - apply edge_resolved_by_probe.
Qed.

(** X10. Without a provisioned answer the edge poller ends in the
    timeout: as long as no tick is late and no probe has been classified
    as provisioned, it is pending with its interval active (whatever the
    probes answered or threw), and the first tick later than
    [PROVISIONER_TIMEOUT] after the start rejects it with the timeout
    error, which no later answer undoes. *)
Theorem edge_timeout_when_never_provisioned
  (c : Closure) (evs rest : list Event) (now : Z) :
  (∀ t, TimerFired t ∈ evs →
        (t ≤ startProvisioner c + PROVISIONER_TIMEOUT (constants c))%Z) →
  ProbeSettled (ProbeAnswered false) ∉ evs →
  (now > startProvisioner c + PROVISIONER_TIMEOUT (constants c))%Z →
  outcome (run c initial evs) = Pending
  ∧ intervalActive (run c initial evs) = true
  ∧ outcome (run c initial (evs ++ TimerFired now :: rest))
    = Rejected (timeoutError c).
Proof.
  intros Hticks Hnever Hlate.
  assert (outcome (run c initial evs) = Pending) as Hpending.
  { destruct (outcome (run c initial evs)) as [|[]|e] eqn:Hprev; [done| |].
    - by apply edge_resolved_by_probe in Hprev.
    - apply edge_rejected_by_timeout in Hprev as (_ & t & Hin & Ht).
      specialize (Hticks t Hin). lia. }
  assert (intervalActive (run c initial evs) = true) as Hactive
    by (by apply edge_consistent).
  split_and!; [done..|].
  change (TimerFired now :: rest) with ([TimerFired now] ++ rest).
  rewrite app_assoc, edge_run_app.
  assert (outcome (run c initial (evs ++ [TimerFired now]))
          = Rejected (timeoutError c)) as Hrejected.
  { rewrite edge_run_snoc. simpl. rewrite Hactive. unfold tick.
    assert ((now >? startProvisioner c + PROVISIONER_TIMEOUT (constants c))%Z
            = true) as -> by lia.
    simpl. by rewrite Hpending. }
  rewrite edge_outcome_run; rewrite Hrejected; done.
Qed.

Lemma edge_poller_settles_once_witness :
  let evs :=
    [TimerFired 7000; ProbeSettled ProbeThrew; TimerFired 8000;
     ProbeSettled (ProbeAnswered false)] in
  outcome (run sampleEdgeClosure initial evs) = Resolved tt
  ∧ ProbeSettled (ProbeAnswered false) ∈ evs
  ∧ outcome (run sampleEdgeClosure initial (evs ++ [TimerFired 70000]))
    = Resolved tt.
Proof.
  intros evs.
  destruct (edge_poller_settles_once sampleEdgeClosure evs [TimerFired 70000])
    as (_ & Hstays & Hcause).
  split_and!; [reflexivity | by apply Hcause | by rewrite Hstays].
Defined.

Lemma edge_timeout_when_never_provisioned_witness :
  outcome
    (run sampleEdgeClosure initial
       ([TimerFired 7000; ProbeSettled (ProbeAnswered true); TimerFired 8000;
         ProbeSettled ProbeThrew]
        ++ TimerFired 66001 :: [ProbeSettled (ProbeAnswered false)]))
  = Rejected
      (JsError
         "Deployment was not available at the edge within the timeout of 60000 ms.").
Proof.
  apply (edge_timeout_when_never_provisioned sampleEdgeClosure
           [TimerFired 7000; ProbeSettled (ProbeAnswered true); TimerFired 8000;
            ProbeSettled ProbeThrew]
           [ProbeSettled (ProbeAnswered false)] 66001).
  - intros t Hin.
    repeat (apply elem_of_cons in Hin as [Hin|Hin];
            [first [discriminate Hin
                   | injection Hin as ->; vm_compute; discriminate]|]).
    by apply elem_of_nil in Hin.
  - intros Hin.
    repeat (apply elem_of_cons in Hin as [Hin|Hin]; [discriminate Hin|]).
    by apply elem_of_nil in Hin.
  - reflexivity.
Defined.

End EdgePollerRuns.

(** ** The combined configuration *)

Lemma merge_isKeyUnion {V} (a b : option (obj V)) : isKeyUnion a b (merge a b).
Proof.
  split; [apply NoDup_merge|].
  intros k. unfold merge, spread2, entries. rewrite !keys_assign.
  split; [intros [?|[?|H]]; [tauto..|by apply elem_of_nil in H] | tauto].
Qed.

(** X11. In each of the eight maps the combined configuration has
    exactly the keys of the fixture's map and of the features' map, each
    of them once: the merge loses no key, invents none and repeats none,
    also when one of the two maps is missing. *)
Theorem combined_keys_are_union
  (fixtureConfig : FixtureConfig) (featuresConfig : FeaturesConfig) :
  let fx := deploymentConfig fixtureConfig in
  let ft := featuresDeploymentConfig featuresConfig in
  let combined := combinedDeploymentConfig fixtureConfig featuresConfig in
  isKeyUnion (environmentVariables fx) (environmentVariables ft)
    (environmentVariables combined)
  ∧ isKeyUnion (d1Databases fx) (d1Databases ft) (d1Databases combined)
  ∧ isKeyUnion (durableObjectNamespaces fx) (durableObjectNamespaces ft)
      (durableObjectNamespaces combined)
  ∧ isKeyUnion (kvNamespaces fx) (kvNamespaces ft) (kvNamespaces combined)
  ∧ isKeyUnion (r2Buckets fx) (r2Buckets ft) (r2Buckets combined)
  ∧ isKeyUnion (services_ fx) (services_ ft) (services_ combined)
  ∧ isKeyUnion (queueProducers fx) (queueProducers ft) (queueProducers combined)
  ∧ isKeyUnion (analyticsEngineDatasets fx) (analyticsEngineDatasets ft)
      (analyticsEngineDatasets combined).
Proof. simpl. split_and!; apply merge_isKeyUnion. Qed.

Lemma merged_maps_are_unions_witness :
  wellFormed (deploymentConfig variablesFixture)
  ∧ get "A" (environmentVariables
               (combinedDeploymentConfig variablesFixture
                  (setUpFeatures variablesFeatures)))
    = Some "fixture"
  ∧ get "B" (environmentVariables
               (combinedDeploymentConfig variablesFixture
                  (setUpFeatures variablesFeatures)))
    = lastDefined "B"
        [Some [("A", "fixture"); ("B", "fixture")]; Some [("B", "first")];
         Some [("C", "second"); ("B", "second")]].
Proof.
  assert (∀ variables : obj string,
            NoDup (keys variables) → wellFormed (withVariables variables))
    as Hwf.
  { intros variables Hnd. unfold wellFormed. simpl.
    split_and!; [done|apply NoDup_nil_2..]. }
  assert (wellFormed (deploymentConfig variablesFixture)) as Hfixture.
  { apply Hwf. simpl. apply NoDup_cons. split; [|apply NoDup_singleton].
    intros Hin. apply list_elem_of_singleton in Hin. discriminate Hin. }
  assert (Forall (fun c => wellFormed (featureDeploymentConfig c))
            variablesFeatures) as Hfeatures.
  { repeat apply Forall_cons_2; [..|apply Forall_nil_2]; apply Hwf; simpl.
    - apply NoDup_singleton.
    - apply NoDup_cons. split; [|apply NoDup_singleton].
      intros Hin. apply list_elem_of_singleton in Hin. discriminate Hin. }
  split; [exact Hfixture|]. split; [reflexivity|].
  apply (merged_maps_are_unions variablesFixture variablesFeatures "B"
           Hfixture Hfeatures).
Defined.

(** ** Whole runs of [createDeployment] *)

Section RunFacts.

#[local] Arguments verifyProject : simpl never.
#[local] Arguments updatePayload : simpl never.
#[local] Arguments combinedDeploymentConfig : simpl never.
#[local] Arguments String.append : simpl never.
#[local] Arguments show : simpl never.
#[local] Arguments DeploymentPoller.run : simpl never.
#[local] Arguments EdgePoller.run : simpl never.

(** A membership in an explicit list of calls that no element allows. *)
Ltac absurd_call H :=
  repeat (apply elem_of_cons in H as [H|H]; [discriminate H|]);
  apply elem_of_nil in H; destruct H.

(** Every call in an explicit list, with a part in the middle that is
    known, is of the kind asked for. *)
Ltac each_call :=
  repeat first
    [ assumption
    | apply Forall_nil_2
    | apply Forall_cons_2; [reflexivity|]
    | apply Forall_app_2; [assumption|] ].

Lemma configureProject_kinds w e h creds fixtureConfig combined :
  Forall (fun c => reconcileCall c = true)
    (configureProject w e h creds fixtureConfig combined).1.
Proof.
  unfold configureProject.
  destruct (bool_decide (e ∈ [Production; Staging])); simpl;
    [destruct (initialProjectState w) as [| | |r0 t0 [initialProject|]]; simpl;
     [..|destruct (patchedProject w) as [| | |r t [project|]]; simpl;
         [..|destruct (verifyProject e fixtureConfig combined project); simpl|]|]|];
    each_call.
Qed.

(** What [triggerDeployment] has done when it returns. *)
Lemma triggerDeployment_returned cfg w e h creds fixtureConfig combined
  directory branch id :
  (triggerDeployment cfg w e h creds fixtureConfig combined directory branch).2
  = Returned id →
  (∃ repo, GIT_REPO creds = Some repo ∧ repo ≠ "")
  ∧ gitPushed w = None
  ∧ is_Some (truthy (deployHookCreation w))
  ∧ (∃ project,
       (configureProject w e h creds fixtureConfig combined).2
       = Returned project)
  ∧ truthy (deployHookFired w) = Some id
  ∧ ∃ m, mutexAcquisition w = inr m
         ∧ ReleaseMutex m
           ∈ (triggerDeployment cfg w e h creds fixtureConfig combined
                directory branch).1.
Proof.
  unfold triggerDeployment, required.
  destruct (GIT_REPO creds) as [repo|]; [|done].
  destruct (decide (repo = "")) as [->|Hrepo]; [done|].
  rewrite (bool_decide_eq_false_2 _ Hrepo).
  destruct (gitPushed w); [done|].
  destruct (truthy (deployHookCreation w)) as [hookId|]; [|done].
  destruct (mutexAcquisition w) as [|mutex]; [done|].
  destruct (configureProject w e h creds fixtureConfig combined)
    as [cc [project|thrown|]]; [|done|done].
  destruct (truthy (deployHookFired w)) as [fired|]; [|done].
  destruct (mutexRelease w); simpl; intros [= <-];
    (split_and!; [by eexists|done|by eexists|by eexists|done|]);
    exists mutex; (split; [done|]);
    do 11 apply list_elem_of_further; apply elem_of_app; right;
    do 4 apply list_elem_of_further; apply list_elem_of_here.
Qed.

Lemma triggerDeployment_kinds cfg w e h creds fixtureConfig combined
  directory branch :
  Forall (fun c => triggerCall c = true)
    (triggerDeployment cfg w e h creds fixtureConfig combined directory
       branch).1.
Proof.
  unfold triggerDeployment, required.
  assert (Forall (fun c => triggerCall c = true)
            (configureProject w e h creds fixtureConfig combined).1) as Hcc.
  { eapply Forall_impl; [apply configureProject_kinds|].
    intros [| | |? ? []| | | |]; done. }
  destruct (GIT_REPO creds) as [repo|];
    [destruct (bool_decide (repo = ""))|];
    [simpl; each_call| |simpl; each_call].
  destruct (gitPushed w); [simpl; each_call|].
  destruct (truthy (deployHookCreation w)) as [hookId|];
    [|simpl; each_call].
  destruct (mutexAcquisition w) as [|mutex]; [simpl; each_call|].
  destruct (configureProject w e h creds fixtureConfig combined)
    as [cc [project|thrown|]]; simpl in Hcc;
    [|simpl; rewrite ?app_nil_r; each_call..].
  destruct (truthy (deployHookFired w)) as [fired|]; [|simpl; each_call].
  destruct (mutexRelease w); simpl; each_call.
Qed.

Lemma awaitDeployment_kinds cfg w e h creds id :
  Forall (fun c => pollingCall c = true) (awaitDeployment cfg w e h creds id).1.
Proof.
  unfold awaitDeployment, waitForDeploymentToBeProvisioned.
  destruct (DeploymentPoller.outcome _) as [|url|thrown];
    destruct (decide (e = Production));
    try destruct (EdgePoller.outcome _) as [|[]|thrown'];
    simpl; each_call.
Qed.

(** What [awaitDeployment] has seen when it returns, and when it starts
    the second interval. *)
Lemma awaitDeployment_returned cfg w e h creds id :
  let r := awaitDeployment cfg w e h creds id in
  (∀ url, r.2 = Returned url →
          deploymentOutcome cfg w h creds id = Resolved url
          ∧ (e = Production → provisionerOutcome cfg w = Resolved tt))
  ∧ (SetInterval ProvisionerCheck ∈ r.1 →
     e = Production ∧ ∃ url, deploymentOutcome cfg w h creds id = Resolved url)
  ∧ SetInterval DeploymentCheck ∈ r.1.
Proof.
  unfold awaitDeployment, waitForDeploymentToBeProvisioned, deploymentOutcome,
    provisionerOutcome, deploymentClosure.
  destruct (DeploymentPoller.outcome _) as [|url|thrown];
    destruct (decide (e = Production)) as [He|He];
    try destruct (EdgePoller.outcome _) as [|[]|thrown'];
    simpl; split_and!;
    try (intros ? [= <-]; split; [done|]; by intros);
    try (intros; done);
    try (apply list_elem_of_further, list_elem_of_here);
    try (intros Hin; first [absurd_call Hin | split; [done|by eexists]]).
Qed.

Lemma localDeployment_kinds cfg w fixtureConfig combined directory :
  Forall (fun c => localCall c = true)
    (localDeployment cfg w fixtureConfig combined directory).1.
Proof.
  unfold localDeployment.
  destruct (rootDirectory (buildConfig fixtureConfig)) as [root|];
    [|simpl; each_call].
  destruct (buildOutputDirectory (buildConfig fixtureConfig)) as [output|];
    destruct (bool_decide (keys _ = []));
    destruct (wranglerStarted w);
    (destruct (buildCommand (buildConfig fixtureConfig)) as [command|];
     [destruct (decide (command = "")); [|destruct (built w)]|]);
    simpl; each_call.
Qed.

(** The compensating actions [triggerDeployment] registers. *)
Lemma triggerDeployment_compensations cfg w e h creds fixtureConfig combined
  directory branch :
  let r :=
    triggerDeployment cfg w e h creds fixtureConfig combined directory branch in
  (∀ repo b, Shell (GitPush directory repo b) ∈ r.1 → gitPushed w = None →
             RegisterTeardown "Delete Git branch" ∈ r.1)
  ∧ (∀ url name b, Http "POST" url (DeployHookBody name b) ∈ r.1 →
                   is_Some (truthy (deployHookCreation w)) →
                   RegisterTeardown "Delete Deploy Hook" ∈ r.1)
  ∧ (∀ name, RegisterTeardown name ∈ r.1 →
             (name = "Delete Git branch" ∧ gitPushed w = None)
             ∨ (name = "Delete Deploy Hook" ∧ gitPushed w = None
                ∧ is_Some (truthy (deployHookCreation w)))).
Proof.
  intros r. subst r. unfold triggerDeployment, required.
  pose proof (configureProject_kinds w e h creds fixtureConfig combined) as Hcc.
  rewrite Forall_forall in Hcc.
  destruct (GIT_REPO creds) as [repo|];
    [destruct (bool_decide (repo = ""))|];
    [simpl; split_and!; intros; absurd_call H
    | |simpl; split_and!; intros; absurd_call H].
  destruct (gitPushed w);
    [simpl; split_and!; [intros; done|intros ? ? ? H; absurd_call H
                        |intros ? H; absurd_call H]|].
  assert (∀ calls : list Call,
            RegisterTeardown "Delete Git branch"
            ∈ Logger (LogText log ("Configuring " +:+ repo
                                    +:+ " remote, and pushing..."))
              :: Shell (GitPush directory repo branch)
              :: Logger (LogText info "Done.")
              :: RegisterTeardown "Delete Git branch" :: calls) as Hbranch
    by (intros; do 3 apply list_elem_of_further; apply list_elem_of_here).
  destruct (truthy (deployHookCreation w)) as [hookId|].
  2:{ simpl. split_and!.
      - intros; apply Hbranch.
      - intros ? ? ? _ [? Hsome]; done.
      - intros name H.
        repeat (apply elem_of_cons in H as [H|H];
                [first [discriminate H | injection H as ->; by left]|]).
        by apply elem_of_nil in H. }
  destruct (configureProject w e h creds fixtureConfig combined)
    as [cc result]. simpl in Hcc.
  assert (∀ name, RegisterTeardown name ∉ cc) as Hnone.
  { intros name Hin. by apply Hcc in Hin. }
  destruct (mutexAcquisition w) as [|mutex];
    [|destruct result as [project|thrown|];
      [destruct (truthy (deployHookFired w)) as [fired|];
       [destruct (mutexRelease w)|]| |]];
    simpl; rewrite ?app_nil_r;
    (split_and!;
     [ intros; apply Hbranch
     | intros; do 7 apply list_elem_of_further; apply list_elem_of_here
     | intros name H;
       repeat (apply elem_of_cons in H as [H|H];
               [first [ discriminate H
                      | injection H as ->; (left; done) || (right; done) ]|]);
       first [ by apply elem_of_nil in H
             | by apply Hnone in H
             | apply elem_of_app in H as [H|H]; [by apply Hnone in H|];
               absurd_call H ] ]).
Qed.

Opaque awaitDeployment localDeployment triggerDeployment.

(** The five ways a run of [createDeployment] goes. *)
Lemma createDeployment_cases cfg w timestamp e trigger fixture fixtureConfig
  featuresConfig directory :
  let run :=
    createDeployment cfg w timestamp e trigger fixture fixtureConfig
      featuresConfig directory in
  let branch := fixture +:+ "-" +:+ show timestamp in
  let combined := combinedDeploymentConfig fixtureConfig featuresConfig in
  ∃ entry script,
    commitCall (Shell script) = true
    ∧ ((run.1 = [Logger entry; Shell script] ∧ ∃ thrown, run.2 = Threw thrown)
       ∨ (e = Local
          ∧ run.1 = Logger entry :: Shell script
                    :: (localDeployment cfg w fixtureConfig combined
                          directory).1
          ∧ run.2 = (localDeployment cfg w fixtureConfig combined directory).2)
       ∨ (e ≠ Local
          ∧ ∃ h creds,
              HOSTS cfg e = Some h ∧ PAGES_PROJECTS cfg e trigger = Some creds
              ∧ ((trigger = DirectUpload
                  ∧ run.1 = Logger entry :: Shell script
                            :: (awaitDeployment cfg w e h creds "undefined").1
                  ∧ run.2 = (awaitDeployment cfg w e h creds "undefined").2)
                 ∨ (trigger ≠ DirectUpload
                    ∧ ∃ tc,
                        (triggerDeployment cfg w e h creds fixtureConfig
                           combined directory branch).1 = tc
                        ∧ ((∃ id,
                              (triggerDeployment cfg w e h creds fixtureConfig
                                 combined directory branch).2 = Returned id
                              ∧ run.1 = Logger entry :: Shell script
                                        :: tc ++ (awaitDeployment cfg w e h
                                                    creds id).1
                              ∧ run.2 = (awaitDeployment cfg w e h creds id).2)
                           ∨ ((∀ id,
                                 (triggerDeployment cfg w e h creds
                                    fixtureConfig combined directory branch).2
                                 ≠ Returned id)
                              ∧ run.1 = Logger entry :: Shell script :: tc
                              ∧ ∀ url, run.2 ≠ Returned url)))))).
Proof.
  intros run branch combined. subst run.
  unfold createDeployment, remoteDeployment, present.
  fold branch combined.
  eexists _, (GitCommit _ _ _). split; [reflexivity|].
  destruct (gitCommitted w); [left; simpl; split; [done|by eexists]|].
  destruct (decide (e = Local)) as [->|He].
  { right. left. split; [done|].
    destruct (localDeployment cfg w fixtureConfig combined directory)
      as [lc lr]. done. }
  destruct (HOSTS cfg e) as [h|]; [|left; simpl; split; [done|by eexists]].
  destruct (PAGES_PROJECTS cfg e trigger) as [creds|];
    [|left; simpl; split; [done|by eexists]].
  right. right. split; [done|]. exists h, creds. split_and!; [done..|].
  destruct (decide (trigger = DirectUpload)) as [Hd|Hd].
  { left. split; [done|]. simpl.
    destruct (awaitDeployment cfg w e h creds "undefined") as [ac ar]. done. }
  right. split; [done|]. eexists. split; [reflexivity|]. simpl.
  destruct (triggerDeployment cfg w e h creds fixtureConfig combined directory
              branch) as [tc [id|thrown|]].
  - left. exists id. split; [done|]. simpl.
    destruct (awaitDeployment cfg w e h creds id) as [ac ar]. done.
  - right. simpl. rewrite ?app_nil_r. done.
  - right. simpl. rewrite ?app_nil_r. done.
Qed.

(** An interval among the calls of the commit or of the local branch. *)
Ltac absurd_interval :=
  match goal with
  | Hin : SetInterval _ ∈ Logger _ :: Shell ?script :: _,
    Hcommit : commitCall (Shell ?script) = true |- _ =>
      apply elem_of_cons in Hin as [?|Hin]; [done|];
      apply elem_of_cons in Hin as [Hin|Hin];
      [by rewrite <- Hin in Hcommit|];
      first
        [ by apply elem_of_nil in Hin
        | match goal with
          | Hin : _ ∈ (localDeployment ?cfg ?w ?fc ?combined ?d).1 |- _ =>
              let Hkinds := fresh "Hkinds" in
              pose proof (localDeployment_kinds cfg w fc combined d) as Hkinds;
              rewrite Forall_forall in Hkinds; by apply Hkinds in Hin
          end ]
  end.

(** Where a call of a run comes from. *)
Lemma createDeployment_call cfg w timestamp e trigger fixture fixtureConfig
  featuresConfig directory (c : Call) :
  let run :=
    createDeployment cfg w timestamp e trigger fixture fixtureConfig
      featuresConfig directory in
  let branch := fixture +:+ "-" +:+ show timestamp in
  let combined := combinedDeploymentConfig fixtureConfig featuresConfig in
  c ∈ run.1 →
  (∃ entry, c = Logger entry)
  ∨ commitCall c = true
  ∨ (e = Local ∧ localCall c = true)
  ∨ (e ≠ Local ∧ pollingCall c = true
     ∧ ∃ h creds id, c ∈ (awaitDeployment cfg w e h creds id).1)
  ∨ (e ≠ Local ∧ trigger ≠ DirectUpload
     ∧ ∃ h creds,
         c ∈ (triggerDeployment cfg w e h creds fixtureConfig combined
                directory branch).1
         ∧ (triggerDeployment cfg w e h creds fixtureConfig combined
              directory branch).1 ⊆ run.1).
Proof.
  intros run branch combined Hin.
  destruct (createDeployment_cases cfg w timestamp e trigger fixture
              fixtureConfig featuresConfig directory)
    as (entry & script & Hcommit
        & [(Hcalls & _)
          |[(He & Hcalls & _)
           |(He & h & creds & _ & _
             & [(Hd & Hcalls & _)
               |(Hd & tc & Htc
                 & [(id & _ & Hcalls & _)|(_ & Hcalls & _)])])]]);
    fold run in Hcalls; rewrite Hcalls in Hin |- *;
    (apply elem_of_cons in Hin as [->|Hin]; [left; by eexists|]);
    (apply elem_of_cons in Hin as [->|Hin]; [right; by left|]).
  - by apply elem_of_nil in Hin.
  - right. right. left. split; [done|].
    pose proof (localDeployment_kinds cfg w fixtureConfig combined directory)
      as Hkinds.
    rewrite Forall_forall in Hkinds. by apply Hkinds.
  - right. right. right. left. split; [done|].
    pose proof (awaitDeployment_kinds cfg w e h creds "undefined") as Hkinds.
    rewrite Forall_forall in Hkinds. split; [by apply Hkinds|].
    by exists h, creds, "undefined".
  - apply elem_of_app in Hin as [Hin|Hin].
    + do 4 right. split_and!; [done..|]. exists h, creds. fold branch combined in Htc.
      rewrite Htc. split; [done|].
      intros x Hx. do 2 apply list_elem_of_further. apply elem_of_app. by left.
    + right. right. right. left. split; [done|].
      pose proof (awaitDeployment_kinds cfg w e h creds id) as Hkinds.
      rewrite Forall_forall in Hkinds. split; [by apply Hkinds|].
      by exists h, creds, id.
  - do 4 right. split_and!; [done..|]. exists h, creds. fold branch combined in Htc.
    rewrite Htc. split; [done|].
    intros x Hx. by do 2 apply list_elem_of_further.
Qed.

(** X12. What has been put on the remote is registered for removal: in
    every run, if the branch was pushed the teardown [Delete Git branch]
    is registered, and if the deploy hook was created the teardown
    [Delete Deploy Hook] is registered, however the run ends afterwards;
    and nothing else is ever registered, nor either of them for a push
    or a creation that failed. *)
Theorem compensations_are_registered
  (cfg : Config) (w : World) (timestamp : Z) (e : Environment)
  (trigger : Trigger) (fixture : string) (fixtureConfig : FixtureConfig)
  (featuresConfig : FeaturesConfig) (directory : string) :
  let run :=
    createDeployment cfg w timestamp e trigger fixture fixtureConfig
      featuresConfig directory in
  (∀ repo b, Shell (GitPush directory repo b) ∈ run.1 → gitPushed w = None →
             RegisterTeardown "Delete Git branch" ∈ run.1)
  ∧ (∀ url name b, Http "POST" url (DeployHookBody name b) ∈ run.1 →
                   is_Some (truthy (deployHookCreation w)) →
                   RegisterTeardown "Delete Deploy Hook" ∈ run.1)
  ∧ (∀ name, RegisterTeardown name ∈ run.1 →
             (name = "Delete Git branch" ∧ gitPushed w = None)
             ∨ (name = "Delete Deploy Hook" ∧ gitPushed w = None
                ∧ is_Some (truthy (deployHookCreation w)))).
Proof.
  intros run.
  assert (∀ c, c ∈ run.1 → triggerCall c = true → commitCall c = false →
               (∀ entry, c ≠ Logger entry) → pollingCall c = false →
               localCall c = false →
               ∃ h creds,
                 let r :=
                   triggerDeployment cfg w e h creds fixtureConfig
                     (combinedDeploymentConfig fixtureConfig featuresConfig)
                     directory (fixture +:+ "-" +:+ show timestamp) in
                 c ∈ r.1 ∧ r.1 ⊆ run.1) as Hsource.
  { intros c Hin _ Hnc Hnl Hnp Hnlocal.
    destruct (createDeployment_call cfg w timestamp e trigger fixture
                fixtureConfig featuresConfig directory c Hin)
      as [[entry ->]|[Hc|[[_ Hc]|[(_ & Hc & _)|(_ & _ & h & creds & Hc)]]]];
      [by destruct (Hnl entry)|congruence..|].
    by exists h, creds. }
  split_and!.
  - intros repo b Hin Hpushed.
    destruct (Hsource _ Hin) as (h & creds & Hc & Hsub); try done.
    apply Hsub.
    by eapply (triggerDeployment_compensations cfg w e h creds).
  - intros url name b Hin Hcreated.
    destruct (Hsource _ Hin) as (h & creds & Hc & Hsub); try done.
    apply Hsub.
    by eapply (triggerDeployment_compensations cfg w e h creds).
  - intros name Hin.
    destruct (Hsource _ Hin) as (h & creds & Hc & Hsub); try done.
    by eapply (triggerDeployment_compensations cfg w e h creds).
Qed.

(** X13. Outside a remote, Git-triggered run nothing is sent to the
    platform. In the local environment the calls are the commit,
    the build, Wrangler and the logger, so no request, no mutex, no
    interval and no teardown. With the direct-upload trigger in a remote
    environment the calls are the commit, the logger and the intervals:
    no hook is created or fired, no project is reconciled and no mutex
    is taken, and what is polled is the deployment whose id is the text
    [undefined]. *)
Theorem only_git_triggers_reach_the_platform
  (cfg : Config) (w : World) (timestamp : Z) (e : Environment)
  (trigger : Trigger) (fixture : string) (fixtureConfig : FixtureConfig)
  (featuresConfig : FeaturesConfig) (directory : string) :
  let run :=
    createDeployment cfg w timestamp e trigger fixture fixtureConfig
      featuresConfig directory in
  (e = Local → Forall (fun c => commitCall c || localCall c = true) run.1)
  ∧ (e ≠ Local → trigger = DirectUpload →
     Forall (fun c => commitCall c || pollingCall c = true) run.1
     ∧ ∀ url, run.2 = Returned url →
              ∃ h creds, HOSTS cfg e = Some h
                         ∧ PAGES_PROJECTS cfg e trigger = Some creds
                         ∧ deploymentOutcome cfg w h creds "undefined"
                           = Resolved url).
Proof.
  intros run.
  destruct (createDeployment_cases cfg w timestamp e trigger fixture
              fixtureConfig featuresConfig directory)
    as (entry & script & Hcommit
        & [(Hcalls & thrown & Hresult)
          |[(He & Hcalls & Hresult)
           |(He & h & creds & Hhost & Hproject
             & [(Hd & Hcalls & Hresult)
               |(Hd & tc & Htc
                 & [(id & _ & Hcalls & _)|(_ & Hcalls & _)])])]]);
    fold run in Hcalls; rewrite Hcalls.
  - fold run in Hresult. split; [|split; [|intros url; congruence]];
      intros; repeat apply Forall_cons_2; try apply Forall_nil_2;
      try done; by rewrite Hcommit.
  - split; [|done]. intros _.
    apply Forall_cons_2; [done|].
    apply Forall_cons_2; [by rewrite Hcommit|].
    eapply Forall_impl; [apply localDeployment_kinds|].
    intros c ->. apply orb_true_r.
  - split; [done|]. intros _ _. split.
    + apply Forall_cons_2; [done|].
    apply Forall_cons_2; [by rewrite Hcommit|].
      eapply Forall_impl; [apply awaitDeployment_kinds|].
      intros c ->. apply orb_true_r.
    + fold run in Hresult. rewrite Hresult. intros url Hurl.
      exists h, creds. split_and!; [done..|].
      by apply (awaitDeployment_returned cfg w e h creds "undefined").
  - split; done.
  - split; done.
Qed.

(** When a remote run returns, the url is the one [awaitDeployment]
    returned for the id the trigger yielded, or for the text [undefined]
    with the direct-upload trigger. *)
Lemma createDeployment_returned cfg w timestamp e trigger fixture fixtureConfig
  featuresConfig directory url :
  let run :=
    createDeployment cfg w timestamp e trigger fixture fixtureConfig
      featuresConfig directory in
  let branch := fixture +:+ "-" +:+ show timestamp in
  let combined := combinedDeploymentConfig fixtureConfig featuresConfig in
  e ≠ Local →
  run.2 = Returned url →
  ∃ h creds id,
    HOSTS cfg e = Some h
    ∧ PAGES_PROJECTS cfg e trigger = Some creds
    ∧ (awaitDeployment cfg w e h creds id).2 = Returned url
    ∧ (awaitDeployment cfg w e h creds id).1 ⊆ run.1
    ∧ ((trigger = DirectUpload ∧ id = "undefined")
       ∨ (trigger ≠ DirectUpload
          ∧ (triggerDeployment cfg w e h creds fixtureConfig combined
               directory branch).2 = Returned id
          ∧ (triggerDeployment cfg w e h creds fixtureConfig combined
               directory branch).1 ⊆ run.1)).
Proof.
  intros run branch combined He Hurl.
  destruct (createDeployment_cases cfg w timestamp e trigger fixture
              fixtureConfig featuresConfig directory)
    as (entry & script & Hcommit
        & [(Hcalls & thrown & Hresult)
          |[(He' & _)
           |(_ & h & creds & Hhost & Hproject
             & [(Hd & Hcalls & Hresult)
               |(Hd & tc & Htc
                 & [(id & Hid & Hcalls & Hresult)|(_ & _ & Hresult)])])]]);
    try fold run in Hresult; try fold run in Hcalls.
  - congruence.
  - done.
  - exists h, creds, "undefined". rewrite <- Hresult, Hcalls.
    split_and!; [done..| |by left].
    intros x Hx. by do 2 apply list_elem_of_further.
  - exists h, creds, id. rewrite <- Hresult, Hcalls.
    fold branch combined in Htc, Hid. rewrite Htc.
    split_and!; [done..| |right; split_and!; [done..|]].
    + intros x Hx. do 2 apply list_elem_of_further. apply elem_of_app.
      by right.
    + intros x Hx. do 2 apply list_elem_of_further. apply elem_of_app.
      by left.
  - by destruct (Hresult url).
Qed.

(** X14. What a returned url stands for. When a run in a remote
    environment with a Git trigger returns a url, the project was
    reconciled and its second answer passed every assertion, the deploy
    hook answered with an id, [releaseMutex] has been called with the
    mutex that was acquired (whether or not that call succeeded), the
    deployment poller resolved with that very url for that very id, and
    in production the edge poller resolved too. *)
Theorem returned_url_is_a_verified_deployment
  (cfg : Config) (w : World) (timestamp : Z) (e : Environment)
  (trigger : Trigger) (fixture : string) (fixtureConfig : FixtureConfig)
  (featuresConfig : FeaturesConfig) (directory url : string) :
  let run :=
    createDeployment cfg w timestamp e trigger fixture fixtureConfig
      featuresConfig directory in
  let combined := combinedDeploymentConfig fixtureConfig featuresConfig in
  e ≠ Local →
  trigger ≠ DirectUpload →
  run.2 = Returned url →
  ∃ h creds project id m,
    HOSTS cfg e = Some h
    ∧ PAGES_PROJECTS cfg e trigger = Some creds
    ∧ (configureProject w e h creds fixtureConfig combined).2
      = Returned project
    ∧ verifyProject e fixtureConfig combined project = None
    ∧ truthy (deployHookFired w) = Some id
    ∧ mutexAcquisition w = inr m
    ∧ ReleaseMutex m ∈ run.1
    ∧ deploymentOutcome cfg w h creds id = Resolved url
    ∧ (e = Production → provisionerOutcome cfg w = Resolved tt).
Proof.
  intros run combined He Hd Hurl.
  destruct (createDeployment_returned cfg w timestamp e trigger fixture
              fixtureConfig featuresConfig directory url He Hurl)
    as (h & creds & id & Hhost & Hproject & Hawaited & _
        & [[? _]|(_ & Htriggered & Hsub)]); [done|].
  apply triggerDeployment_returned in Htriggered
    as (_ & _ & _ & [project Hconfigured] & Hfired & m & Hm & Hreleased).
  pose proof Hconfigured as Hverified.
  apply configureProject_returned in Hverified as (_ & _ & Hverified).
  destruct (awaitDeployment_returned cfg w e h creds id) as (Hreturned & _).
  destruct (Hreturned url Hawaited) as [Hresolved Hedge].
  exists h, creds, project, id, m. split_and!; try done. by apply Hsub.
Qed.

(** X15. A fixture that leaves one of the three build fields undefined
    can not be deployed through a Git trigger as long as the platform
    answers the PATCH with that field: in a remote environment the run
    then never returns a url and never starts an interval, because
    [configureProject] throws inside the critical section. *)
Theorem undefined_build_field_deploys_only_if_omitted
  (cfg : Config) (w : World) (timestamp : Z) (e : Environment)
  (trigger : Trigger) (fixture : string) (fixtureConfig : FixtureConfig)
  (featuresConfig : FeaturesConfig) (directory : string) (f : BuildField) :
  let run :=
    createDeployment cfg w timestamp e trigger fixture fixtureConfig
      featuresConfig directory in
  e ≠ Local →
  trigger ≠ DirectUpload →
  fixtureField f fixtureConfig = None →
  (∀ r t project,
     patchedProject w = Parsed r t (Some project) →
     is_Some (remoteField f project)) →
  (∀ url, run.2 ≠ Returned url) ∧ (∀ i, SetInterval i ∉ run.1).
Proof.
  intros run He Hd Hundefined Hcarried.
  assert (∀ h creds id,
            (triggerDeployment cfg w e h creds fixtureConfig
               (combinedDeploymentConfig fixtureConfig featuresConfig)
               directory (fixture +:+ "-" +:+ show timestamp)).2
            ≠ Returned id) as Hnever.
  { intros h creds id Htriggered.
    apply triggerDeployment_returned in Htriggered
      as (_ & _ & _ & [project Hconfigured] & _).
    apply configureProject_returned in Hconfigured
      as (_ & (r & t & Hanswer) & Hverified).
    destruct (Hcarried r t project Hanswer) as [s Hs].
    rewrite (undefined_field_verified f e fixtureConfig _ project Hundefined
               Hverified) in Hs.
    discriminate Hs. }
  destruct (createDeployment_cases cfg w timestamp e trigger fixture
              fixtureConfig featuresConfig directory)
    as (entry & script & Hcommit
        & [(Hcalls & thrown & Hresult)
          |[(He' & _)
           |(_ & h & creds & Hhost & Hproject
             & [(Hd' & _)
               |(_ & tc & Htc
                 & [(id & Hid & _)|(_ & Hcalls & Hresult)])])]]);
    try done; try (by destruct (Hnever h creds id));
    fold run in Hresult, Hcalls; rewrite Hcalls.
  - split; [intros url; congruence|].
    intros i Hin.
    apply elem_of_cons in Hin as [?|Hin]; [done|].
    apply elem_of_cons in Hin as [Hin|Hin];
      [by rewrite <- Hin in Hcommit|by apply elem_of_nil in Hin].
  - split; [done|].
    intros i Hin.
    apply elem_of_cons in Hin as [?|Hin]; [done|].
    apply elem_of_cons in Hin as [Hin|Hin]; [by rewrite <- Hin in Hcommit|].
    pose proof (triggerDeployment_kinds cfg w e h creds fixtureConfig
                  (combinedDeploymentConfig fixtureConfig featuresConfig)
                  directory (fixture +:+ "-" +:+ show timestamp)) as Hkinds.
    rewrite Htc, Forall_forall in Hkinds. by apply Hkinds in Hin.
Qed.

(** X16. The two intervals are started in order and only where they are
    due. Every interval a run starts belongs to a remote environment;
    the provisioner check is started only in production and only after
    the deployment poller resolved, and whenever it has been started the
    deployment check had been started too. *)
Theorem provisioner_only_after_a_production_deployment
  (cfg : Config) (w : World) (timestamp : Z) (e : Environment)
  (trigger : Trigger) (fixture : string) (fixtureConfig : FixtureConfig)
  (featuresConfig : FeaturesConfig) (directory : string) :
  let run :=
    createDeployment cfg w timestamp e trigger fixture fixtureConfig
      featuresConfig directory in
  (∀ i, SetInterval i ∈ run.1 → e ≠ Local)
  ∧ (SetInterval ProvisionerCheck ∈ run.1 →
     e = Production
     ∧ SetInterval DeploymentCheck ∈ run.1
     ∧ ∃ h creds id url,
         HOSTS cfg e = Some h
         ∧ PAGES_PROJECTS cfg e trigger = Some creds
         ∧ deploymentOutcome cfg w h creds id = Resolved url).
Proof.
  intros run.
  destruct (createDeployment_cases cfg w timestamp e trigger fixture
              fixtureConfig featuresConfig directory)
    as (entry & script & Hcommit
        & [(Hcalls & _)
          |[(He & Hcalls & _)
           |(He & h & creds & Hhost & Hproject
             & [(Hd & Hcalls & _)
               |(Hd & tc & Htc
                 & [(id & _ & Hcalls & _)|(_ & Hcalls & _)])])]]);
    fold run in Hcalls; rewrite Hcalls.
  - split; intros; absurd_interval.
  - split; intros; absurd_interval.
  - split; [done|]. intros Hin.
    apply elem_of_cons in Hin as [?|Hin]; [done|].
    apply elem_of_cons in Hin as [Hin|Hin]; [by rewrite <- Hin in Hcommit|].
    destruct (awaitDeployment_returned cfg w e h creds "undefined")
      as (_ & Hprovisioner & Hcheck).
    destruct (Hprovisioner Hin) as (Hproduction & url & Hresolved).
    split_and!; [done|by do 2 apply list_elem_of_further|].
    by exists h, creds, "undefined", url.
  - split; [done|]. intros Hin.
    apply elem_of_cons in Hin as [?|Hin]; [done|].
    apply elem_of_cons in Hin as [Hin|Hin]; [by rewrite <- Hin in Hcommit|].
    apply elem_of_app in Hin as [Hin|Hin].
    { pose proof (triggerDeployment_kinds cfg w e h creds fixtureConfig
                    (combinedDeploymentConfig fixtureConfig featuresConfig)
                    directory (fixture +:+ "-" +:+ show timestamp)) as Hkinds.
      rewrite Htc, Forall_forall in Hkinds. by apply Hkinds in Hin. }
    destruct (awaitDeployment_returned cfg w e h creds id)
      as (_ & Hprovisioner & Hcheck).
    destruct (Hprovisioner Hin) as (Hproduction & url & Hresolved).
    split_and!; [done| |by exists h, creds, id, url].
    do 2 apply list_elem_of_further. apply elem_of_app. by right.
  - split; [done|]. intros Hin.
    apply elem_of_cons in Hin as [?|Hin]; [done|].
    apply elem_of_cons in Hin as [Hin|Hin]; [by rewrite <- Hin in Hcommit|].
    pose proof (triggerDeployment_kinds cfg w e h creds fixtureConfig
                  (combinedDeploymentConfig fixtureConfig featuresConfig)
                  directory (fixture +:+ "-" +:+ show timestamp)) as Hkinds.
    rewrite Htc, Forall_forall in Hkinds. by apply Hkinds in Hin.
Qed.

Transparent awaitDeployment localDeployment triggerDeployment.

End RunFacts.

Ltac member :=
  apply list_elem_of_In; vm_compute; repeat (first [left; reflexivity | right]).

Lemma compensations_are_registered_witness :
  let run :=
    createDeployment sampleConfig staleWorld 1700000000 Staging
      (GitIntegration "github") "fixture" plainFixture noFeatures "/tmp/work" in
  gitPushed staleWorld = None
  ∧ RegisterTeardown "Delete Git branch" ∈ run.1
  ∧ RegisterTeardown "Delete Deploy Hook" ∈ run.1
  ∧ ∃ thrown, run.2 = Threw thrown.
Proof.
  intros run.
  destruct (compensations_are_registered sampleConfig staleWorld 1700000000
              Staging (GitIntegration "github") "fixture" plainFixture
              noFeatures "/tmp/work") as (Hpush & Hhook & _).
  split_and!.
  - reflexivity.
  - apply (Hpush "git@example.com:pages/fixtures.git" "fixture-1700000000");
      [member|reflexivity].
  - apply (Hhook (projectUrl sampleHost sampleCredentials +:+ "/deploy_hooks")
             "fixture-1700000000" "fixture-1700000000");
      [member|eexists; reflexivity].
  - eexists. reflexivity.
Defined.

Lemma only_git_triggers_reach_the_platform_witness :
  let run e :=
    createDeployment sampleConfig calmWorld 1700000000 e DirectUpload
      "fixture" plainFixture noFeatures "/tmp/work" in
  Forall (fun c => commitCall c || localCall c = true) (run Local).1
  ∧ Forall (fun c => commitCall c || pollingCall c = true) (run Staging).1
  ∧ (run Staging).2 = Returned "https://fixture.pages.dev"
  ∧ deploymentOutcome sampleConfig calmWorld sampleHost sampleCredentials
      "undefined" = Resolved "https://fixture.pages.dev".
Proof.
  intros run.
  destruct (only_git_triggers_reach_the_platform sampleConfig calmWorld
              1700000000 Local DirectUpload "fixture" plainFixture noFeatures
              "/tmp/work") as [Hlocal _].
  destruct (only_git_triggers_reach_the_platform sampleConfig calmWorld
              1700000000 Staging DirectUpload "fixture" plainFixture noFeatures
              "/tmp/work") as [_ Hremote].
  destruct Hremote as [Hcalls Hresult]; [discriminate|reflexivity|].
  split_and!; [by apply Hlocal|exact Hcalls|reflexivity|].
  destruct (Hresult "https://fixture.pages.dev")
    as (h & creds & [= <-] & [= <-] & Hresolved); [reflexivity|].
  exact Hresolved.
Defined.

Lemma returned_url_is_a_verified_deployment_witness :
  let run :=
    createDeployment sampleConfig calmWorld 1700000000 Production
      (GitIntegration "github") "fixture" plainFixture noFeatures "/tmp/work" in
  run.2 = Returned "https://fixture.pages.dev"
  ∧ ReleaseMutex {| lease := "lease" |} ∈ run.1
  ∧ provisionerOutcome sampleConfig calmWorld = Resolved tt.
Proof.
  intros run. split; [reflexivity|].
  destruct (returned_url_is_a_verified_deployment sampleConfig calmWorld
              1700000000 Production (GitIntegration "github") "fixture"
              plainFixture noFeatures "/tmp/work" "https://fixture.pages.dev")
    as (h & creds & project & id & m & _ & _ & _ & _ & _ & [= <-] & Hreleased
        & _ & Hedge); [discriminate|discriminate|reflexivity|].
  split; [exact Hreleased|by apply Hedge].
Defined.

Lemma undefined_build_field_deploys_only_if_omitted_witness :
  let run w :=
    createDeployment sampleConfig w 1700000000 Production
      (GitIntegration "github") "fixture" commandlessFixture noFeatures
      "/tmp/work" in
  fixtureField BuildCommand commandlessFixture = None
  ∧ ((∀ url, (run calmWorld).2 ≠ Returned url)
     ∧ (∀ i, SetInterval i ∉ (run calmWorld).1))
  ∧ (run omittingWorld).2 = Returned "https://fixture.pages.dev".
Proof.
  intros run. split; [reflexivity|]. split; [|reflexivity].
  apply (undefined_build_field_deploys_only_if_omitted sampleConfig calmWorld
           1700000000 Production (GitIntegration "github") "fixture"
           commandlessFixture noFeatures "/tmp/work" BuildCommand);
    [discriminate|discriminate|reflexivity|].
  intros r t project [= _ _ <-]. by eexists.
Defined.

Lemma provisioner_only_after_a_production_deployment_witness :
  let run :=
    createDeployment sampleConfig calmWorld 1700000000 Production
      (GitIntegration "github") "fixture" plainFixture noFeatures "/tmp/work" in
  SetInterval ProvisionerCheck ∈ run.1
  ∧ SetInterval DeploymentCheck ∈ run.1.
Proof.
  intros run.
  assert (SetInterval ProvisionerCheck ∈ run.1) as Hstarted by member.
  split; [exact Hstarted|].
  destruct (provisioner_only_after_a_production_deployment sampleConfig
              calmWorld 1700000000 Production (GitIntegration "github")
              "fixture" plainFixture noFeatures "/tmp/work")
    as [_ Hprovisioner].
  by destruct (Hprovisioner Hstarted) as (_ & Hcheck & _).
Defined.

(** ** The local branch *)

Section LocalFacts.

#[local] Arguments String.append : simpl never.
#[local] Arguments assign : simpl never.

(** The calls of an explicit list that can be equal to the one looked for. *)
Ltac calls_of H :=
  repeat (apply elem_of_cons in H as [H|H]; [try discriminate H|]);
  try (apply elem_of_nil in H; destruct H).

Lemma keys_unit_values {V} (o : obj V) : keys (unit_values o) = keys o.
Proof.
  unfold unit_values, keys, entries. rewrite map_map. by apply map_ext.
Qed.

(** X17. A local run returns the url Wrangler answers with, and only
    after a build that did not fail. The run returns [url] exactly when
    the root and output directories are defined, the build command, if
    there is a non-empty one, succeeded, and Wrangler started at [url].
    The build is run exactly when the build command is non-empty, in the
    root directory joined to the working directory. Wrangler is never
    started after a failed build, and it is given that root directory
    and the output directory joined to it. *)
Theorem local_run_returns_the_url_of_wrangler
  (cfg : Config) (w : World) (fixtureConfig : FixtureConfig)
  (combined : CombinedDeploymentConfig) (directory : string) :
  let r := localDeployment cfg w fixtureConfig combined directory in
  let build := buildConfig fixtureConfig in
  let built_if_asked :=
    ∀ command, buildCommand build = Some command → command ≠ "" →
               built w = None in
  (∀ url, r.2 = Returned url ↔
          is_Some (rootDirectory build)
          ∧ is_Some (buildOutputDirectory build)
          ∧ built_if_asked
          ∧ wranglerStarted w = inr url)
  ∧ (∀ root command,
       Shell (Build root command) ∈ r.1 ↔
       ∃ d, rootDirectory build = Some d ∧ root = join cfg directory d
            ∧ buildCommand build = Some command ∧ command ≠ "")
  ∧ (∀ root output args,
       WranglerPagesDev root output args ∈ r.1 →
       built_if_asked
       ∧ ∃ d d', rootDirectory build = Some d
                 ∧ buildOutputDirectory build = Some d'
                 ∧ root = join cfg directory d
                 ∧ output = join cfg root d').
Proof.
  intros r build built_if_asked. subst r build built_if_asked.
  unfold localDeployment.
  destruct (rootDirectory (buildConfig fixtureConfig)) as [d|].
  2:{ simpl. split_and!.
      - intros url. split; [done|]. by intros ([? ?] & _).
      - intros root command. split; [intros H; calls_of H|].
        by intros (? & ? & _).
      - intros root output args H. calls_of H. }
  destruct (buildOutputDirectory (buildConfig fixtureConfig)) as [d'|];
    destruct (bool_decide (keys _ = []));
    destruct (wranglerStarted w) as [thrown|started];
    (destruct (buildCommand (buildConfig fixtureConfig)) as [command|];
     [destruct (decide (command = "")) as [->|Hcommand];
      [|destruct (built w) as [failed|]]|]);
    simpl; split_and!.
  all: try (intros url; split;
            [ intros Hurl;
              first [ discriminate Hurl
                    | injection Hurl as <-;
                      split_and!;
                      [by eexists|by eexists|intros ? Heq ?; by simplify_eq
                      |done] ]
            | intros (Hr & Ho & Hb & Hs);
              try (destruct Ho as [? Ho]; discriminate Ho);
              try discriminate Hs;
              try (specialize (Hb _ eq_refl Hcommand); discriminate Hb);
              injection Hs as <-; reflexivity ]).
  all: try (intros root command'; split;
            [ intros H; calls_of H; injection H as -> ->; by exists d
            | intros (d0 & [= <-] & -> & Hc & Hne);
              first [ discriminate Hc
                    | injection Hc as <-; first
                        [ done
                        | repeat first [ apply list_elem_of_here
                                       | apply list_elem_of_further ] ] ] ]).
  all: intros root output args H; calls_of H; injection H as -> -> ->;
    (split; [intros ? Heq ?; by simplify_eq|by eexists _, _]).
Qed.

Lemma unsupported_keys (combined : CombinedDeploymentConfig) (name : string) :
  name ∈ keys (assign (assign (assign (assign []
      (unit_values (durableObjectNamespaces combined)))
      (unit_values (services_ combined)))
      (unit_values (queueProducers combined)))
      (unit_values (analyticsEngineDatasets combined)))
  ↔ unsupportedLocally combined name.
Proof.
  unfold unsupportedLocally.
  rewrite !keys_assign, !keys_unit_values. simpl. rewrite elem_of_nil. tauto.
Qed.

(** X18. The warning about local mode is logged exactly when it is due,
    and Wrangler is started with the other bindings only. The warning is
    logged only if the combined configuration names a Durable Object
    namespace, a service, a queue producer or an Analytics Engine
    dataset; whenever Wrangler is started and there is such a name, the
    warning has been logged; and the list of arguments Wrangler is
    started with is the compatibility date, then one argument for each
    compatibility flag, then one for each environment variable, D1
    database, KV namespace and R2 bucket, in the order of the combined
    configuration, and nothing else. *)
Theorem local_warning_iff_unsupported_binding
  (cfg : Config) (w : World) (fixtureConfig : FixtureConfig)
  (combined : CombinedDeploymentConfig) (directory : string) :
  let r := localDeployment cfg w fixtureConfig combined directory in
  (localWarning ∈ r.1 → ∃ name, unsupportedLocally combined name)
  ∧ (∀ root output args,
       WranglerPagesDev root output args ∈ r.1 →
       ((∃ name, unsupportedLocally combined name) → localWarning ∈ r.1)
       ∧ args
         = ["--compatibility-date=" +:+ compatibilityDate fixtureConfig]
           ++ map (fun flag => "--compatibility-flag=" +:+ flag)
                (compatibilityFlags fixtureConfig)
           ++ map (fun nv : string * string =>
                     "--binding=" +:+ nv.1 +:+ "=" +:+ nv.2)
                (entries (environmentVariables combined))
           ++ map (fun name => "--d1=" +:+ name) (keys (d1Databases combined))
           ++ map (fun name => "--kv=" +:+ name) (keys (kvNamespaces combined))
           ++ map (fun name => "--r2=" +:+ name) (keys (r2Buckets combined))).
Proof.
  intros r. subst r. unfold localDeployment, localWarning.
  destruct (rootDirectory (buildConfig fixtureConfig)) as [d|].
  2:{ simpl. split; [intros H; calls_of H|intros ? ? ? H; calls_of H]. }
  destruct (buildOutputDirectory (buildConfig fixtureConfig)) as [d'|];
    (destruct (bool_decide (keys _ = [])) eqn:Hkeys;
     [apply bool_decide_eq_true in Hkeys|apply bool_decide_eq_false in Hkeys]);
    destruct (wranglerStarted w) as [thrown|started];
    (destruct (buildCommand (buildConfig fixtureConfig)) as [command|];
     [destruct (decide (command = "")) as [->|Hcommand];
      [|destruct (built w) as [failed|]]|]);
    simpl; split.
  all: try (intros H; calls_of H; fail).
  all: try (intros root output args H; calls_of H; fail).
  all: try (intros _;
            destruct (keys (assign _ _)) as [|name names] eqn:Hnames; [done|];
            exists name; apply unsupported_keys; rewrite Hnames;
            apply list_elem_of_here).
  all: intros root output args H; calls_of H; injection H as -> -> ->;
    (split; [|reflexivity]).
  all: try (intros [name Hname]; apply unsupported_keys in Hname;
            rewrite Hkeys in Hname; by apply elem_of_nil in Hname).
  all: intros _; repeat first [apply list_elem_of_here
                              |apply list_elem_of_further].
Qed.

End LocalFacts.

Lemma local_run_returns_the_url_of_wrangler_witness :
  (localDeployment sampleConfig calmWorld plainFixture
     (combinedDeploymentConfig plainFixture noFeatures) "/tmp/work").2
  = Returned "http://localhost:8788".
Proof.
  destruct (local_run_returns_the_url_of_wrangler sampleConfig calmWorld
              plainFixture (combinedDeploymentConfig plainFixture noFeatures)
              "/tmp/work") as [Hresult _].
  apply Hresult.
  split_and!; [eexists; reflexivity|eexists; reflexivity| |reflexivity].
  intros command _ _. reflexivity.
Defined.

Lemma local_warning_iff_unsupported_binding_witness :
  let combined := combinedDeploymentConfig datasetFixture noFeatures in
  unsupportedLocally combined "AE"
  ∧ localWarning
    ∈ (localDeployment sampleConfig calmWorld datasetFixture combined
         "/tmp/work").1.
Proof.
  intros combined.
  assert (unsupportedLocally combined "AE") as Hunsupported
    by (do 3 right; member).
  split; [exact Hunsupported|].
  destruct (local_warning_iff_unsupported_binding sampleConfig calmWorld
              datasetFixture combined "/tmp/work") as [_ Hstarted].
  edestruct Hstarted as [Hwarned _]; [member|].
  apply Hwarned. by exists "AE".
Defined.

(** ** Feature setup *)

Section FeatureSetupFacts.
Context (cfg : Config) (FEATURES_PATH fixture directory : string).

#[local] Arguments String.append : simpl never.
#[local] Arguments addFeature : simpl never.

Local Abbreviation Answer := FeatureSetup.Answer.
Local Abbreviation failureOf := (FeatureSetup.failureOf fixture).
Local Abbreviation configOf := FeatureSetup.configOf.
Local Abbreviation answersFrom := FeatureSetup.answersFrom.
Local Abbreviation isShell := FeatureSetup.isShell.
Local Abbreviation isExistsSync := FeatureSetup.isExistsSync.
Local Abbreviation isReadFile := FeatureSetup.isReadFile.
Local Abbreviation setupOf := (FeatureSetup.setupOf cfg FEATURES_PATH directory).
Local Abbreviation looksFor name :=
  (FeatureSetup.ExistsSync (FeatureSetup.featureMain cfg FEATURES_PATH name)).
Local Abbreviation reads name :=
  (FeatureSetup.ReadFile (FeatureSetup.featureMain cfg FEATURES_PATH name)).
Local Abbreviation feature :=
  (FeatureSetup.feature cfg FEATURES_PATH fixture directory).
Local Abbreviation loop :=
  (FeatureSetup.loop cfg FEATURES_PATH fixture directory).

Lemma feature_clean name answer featuresConfig :
  let r :=
    feature name answer featuresConfig in
  failureOf name answer = None →
  ∃ config,
    configOf answer = Some config
    ∧ r.2 = Returned (addFeature featuresConfig config)
    ∧ List.filter isShell r.1 = setupOf name config
    ∧ List.filter isExistsSync r.1 = [looksFor name]
    ∧ List.filter isReadFile r.1 = [reads name].
Proof.
  destruct answer as [|thrown|config failure]; simpl; [done..|].
  intros Hclean. exists config. unfold FeatureSetup.setupOf.
  destruct (setup config) as [command|];
    [destruct (decide (command = "")); [|destruct failure; [done|]]|];
    simpl; done.
Qed.

Lemma feature_failed name answer featuresConfig thrown :
  let r :=
    feature name answer featuresConfig in
  failureOf name answer = Some thrown →
  r.2 = Threw thrown
  ∧ List.filter isShell r.1
    = match answer with
      | FeatureSetup.Read config _ => setupOf name config
      | _ => []
      end
  ∧ List.filter isExistsSync r.1 = [looksFor name]
  ∧ List.filter isReadFile r.1
    = match answer with
      | FeatureSetup.Missing => []
      | _ => [reads name]
      end.
Proof.
  destruct answer as [|thrown'|config failure]; simpl.
  - by intros [= <-].
  - by intros [= <-].
  - unfold FeatureSetup.setupOf.
    destruct (setup config) as [command|];
      [destruct (decide (command = "")); [done|]|done].
    by intros ->.
Qed.

Lemma answersFrom_cons answers i name rest :
  answersFrom answers i (name :: rest)
  = answers i :: answersFrom answers (S i) rest.
Proof. reflexivity. Qed.

Lemma loop_clean features : ∀ answers i featuresConfig,
  let r :=
    loop features answers i featuresConfig in
  let configs := omap configOf (answersFrom answers i features) in
  (∀ (j : nat) name,
     features !! j = Some name →
     failureOf name (answers (i + j)%nat) = None) →
  length configs = length features
  ∧ r.2 = Returned (fold_left addFeature configs featuresConfig)
  ∧ List.filter isShell r.1
    = concat (zip_with (setupOf) features configs)
  ∧ List.filter isExistsSync r.1
    = map (fun name => looksFor name) features
  ∧ List.filter isReadFile r.1
    = map (fun name => reads name) features.
Proof.
  induction features as [|name rest IH]; intros answers i featuresConfig;
    [done|].
  intros r configs Hclean. subst r configs.
  rewrite answersFrom_cons. cbn [FeatureSetup.loop omap list_omap].
  pose proof (Hclean 0%nat name eq_refl) as Hfirst.
  rewrite Nat.add_0_r in Hfirst.
  destruct (feature_clean name (answers i) featuresConfig Hfirst)
    as (config & -> & -> & Hshell & Hexists & Hread).
  destruct (IH answers (S i) (addFeature featuresConfig config))
    as (Hlength & -> & Hshell' & Hexists' & Hread').
  { intros j name' Hj. rewrite Nat.add_succ_l, <- Nat.add_succ_r.
    by apply (Hclean (S j)). }
  cbn [fst snd]. rewrite !List.filter_app, Hshell, Hexists, Hread, Hshell',
    Hexists', Hread'.
  split_and!; [simpl; by rewrite Hlength|done..].
Qed.

Lemma loop_returned features : ∀ answers i featuresConfig config,
  (loop features answers i
     featuresConfig).2 = Returned config →
  ∀ (j : nat) name,
    features !! j = Some name →
    failureOf name (answers (i + j)%nat) = None.
Proof.
  induction features as [|name rest IH];
    intros answers i featuresConfig config Hreturned j name' Hj; [done|].
  cbn [FeatureSetup.loop] in Hreturned.
  destruct (failureOf name (answers i)) as [thrown|] eqn:Hfirst.
  { destruct (feature_failed name (answers i) featuresConfig thrown Hfirst)
      as (Hthrown & _).
    by rewrite Hthrown in Hreturned. }
  destruct j as [|j].
  - injection Hj as <-. by rewrite Nat.add_0_r.
  - destruct (feature_clean name (answers i) featuresConfig Hfirst)
      as (config' & _ & Hresult & _).
    rewrite Hresult in Hreturned. cbn [snd] in Hreturned.
    rewrite Nat.add_succ_r, <- Nat.add_succ_l.
    by eapply IH.
Qed.

Lemma loop_app before : ∀ after answers i featuresConfig,
  let r :=
    loop before answers i featuresConfig in
  loop (before ++ after) answers i
    featuresConfig
  = match r.2 with
    | Returned merged =>
        let r' :=
          loop after answers
            (i + length before) merged in
        (r.1 ++ r'.1, r'.2)
    | Threw thrown => (r.1, Threw thrown)
    | Awaiting => (r.1, Awaiting)
    end.
Proof.
  induction before as [|name rest IH]; intros after answers i featuresConfig.
  - simpl. rewrite Nat.add_0_r. by destruct (FeatureSetup.loop _ _ _ _ _ _ _ _).
  - cbn [FeatureSetup.loop app length].
    destruct (feature name (answers i)
                featuresConfig) as [calls [merged|thrown|]]; cbn [fst snd];
      [|done..].
    rewrite IH. rewrite Nat.add_succ_r, <- Nat.add_succ_l.
    destruct (loop rest answers (S i)
                merged) as [calls' [merged'|thrown'|]]; cbn [fst snd];
      by rewrite ?app_assoc.
Qed.

(** X19. The setup returns exactly when no iteration fails, and what
    it returns is the merge of the feature files in the order of the
    features: the configuration the pure [setUpFeatures] computes from
    the files that were read. *)
Theorem setup_returns_the_merged_configuration
  (features : list string) (answers : nat → Answer) (config : FeaturesConfig) :
  (FeatureSetup.setUpFeatures cfg FEATURES_PATH fixture directory features
     answers).2 = Returned config
  ↔ (∀ (j : nat) name,
       features !! j = Some name → failureOf name (answers j) = None)
    ∧ config = setUpFeatures (omap configOf (answersFrom answers 0 features)).
Proof.
  unfold FeatureSetup.setUpFeatures.
  destruct features as [|first rest] eqn:Hfeatures.
  { simpl. split; [by intros [= <-]|by intros [_ ->]]. }
  rewrite <- Hfeatures. cbn [snd]. clear Hfeatures first rest. split.
  - intros Hreturned.
    pose proof (loop_returned _ _ _ _ _ Hreturned) as Hclean.
    split; [exact Hclean|].
    destruct (loop_clean features answers 0%nat initialFeaturesConfig Hclean)
      as (_ & Hresult & _).
    rewrite Hresult in Hreturned. by injection Hreturned as <-.
  - intros [Hclean ->].
    by destruct (loop_clean features answers 0%nat initialFeaturesConfig
                   Hclean) as (_ & Hresult & _).
Qed.

(** X20. When the setup returns, every feature file has been looked for
    and read once, in the order of the features, and the setup commands
    that were run are those of the feature files that name a non-empty
    one, in that order, each in the directory of its feature and with
    the working directory of the fixture. *)
Theorem setups_run_in_feature_order
  (features : list string) (answers : nat → Answer) (config : FeaturesConfig) :
  let run :=
    FeatureSetup.setUpFeatures cfg FEATURES_PATH fixture directory features
      answers in
  run.2 = Returned config →
  List.filter isExistsSync run.1 = map (fun name => looksFor name) features
  ∧ List.filter isReadFile run.1 = map (fun name => reads name) features
  ∧ List.filter isShell run.1
    = concat (zip_with setupOf features
                (omap configOf (answersFrom answers 0 features))).
Proof.
  unfold FeatureSetup.setUpFeatures.
  destruct features as [|first rest] eqn:Hfeatures; [done|].
  rewrite <- Hfeatures. cbn [fst snd]. clear Hfeatures first rest.
  intros Hreturned.
  pose proof (loop_returned _ _ _ _ _ Hreturned) as Hclean.
  destruct (loop_clean features answers 0%nat initialFeaturesConfig Hclean)
    as (_ & Hresult & Hshell & Hexists & Hread).
  rewrite Hresult. cbn [List.filter isShell isExistsSync isReadFile
                        FeatureSetup.say].
  rewrite !List.filter_app, Hshell, Hexists, Hread. simpl.
  by rewrite !app_nil_r.
Qed.

(** X21. The setup stops at the first iteration that fails. If the
    features before [name] are set up without failure and the iteration
    of [name] fails, because its file is missing or unreadable or its
    setup command fails, then the setup throws that iteration's error,
    no later feature is looked for, and the setup commands that were
    run are those of the features before it, followed by the command of
    [name] when it is the one that failed. *)
Theorem setup_stops_at_the_first_failure
  (before : list string) (name : string) (after : list string)
  (answers : nat → Answer) (thrown : Error) :
  let run :=
    FeatureSetup.setUpFeatures cfg FEATURES_PATH fixture directory
      (before ++ name :: after) answers in
  (∀ (j : nat) name',
     before !! j = Some name' → failureOf name' (answers j) = None) →
  failureOf name (answers (length before)) = Some thrown →
  run.2 = Threw thrown
  ∧ List.filter isExistsSync run.1
    = map (fun name => looksFor name) (before ++ [name])
  ∧ List.filter isReadFile run.1
    = map (fun name => reads name) before
      ++ match answers (length before) with
         | FeatureSetup.Missing => []
         | _ => [reads name]
         end
  ∧ List.filter isShell run.1
    = concat (zip_with setupOf before
                (omap configOf (answersFrom answers 0 before)))
      ++ match answers (length before) with
         | FeatureSetup.Read config _ => setupOf name config
         | _ => []
         end.
Proof.
  unfold FeatureSetup.setUpFeatures.
  destruct (before ++ name :: after) as [|first rest] eqn:Hfeatures.
  { by destruct before. }
  rewrite <- Hfeatures. clear Hfeatures first rest.
  intros Hclean Hfailed.
  destruct (loop_clean before answers 0%nat initialFeaturesConfig Hclean)
    as (_ & Hresult & Hshell & Hexists & Hread).
  rewrite loop_app, Hresult. cbn [FeatureSetup.loop Nat.add].
  destruct (feature_failed name (answers (length before))
              (fold_left addFeature
                 (omap configOf (answersFrom answers 0 before))
                 initialFeaturesConfig) thrown Hfailed)
    as (Hthrown & Hshell' & Hexists' & Hread').
  rewrite Hthrown. cbn [fst snd List.filter isShell isExistsSync isReadFile
                        FeatureSetup.say].
  rewrite !List.filter_app, Hshell, Hexists, Hread, Hshell', Hexists', Hread'.
  rewrite !app_nil_r, map_app. done.
Qed.

End FeatureSetupFacts.

Lemma setup_returns_the_merged_configuration_witness :
  (FeatureSetup.setUpFeatures sampleConfig "/features" "fixture" "/tmp/work"
     ["first"; "second"] FeatureSetup.sampleAnswers).2
  = Returned (setUpFeatures variablesFeatures).
Proof.
  apply (setup_returns_the_merged_configuration sampleConfig "/features"
           "fixture" "/tmp/work" ["first"; "second"]
           FeatureSetup.sampleAnswers (setUpFeatures variablesFeatures)).
  split; [|reflexivity].
  intros [|[|j]] name Hj; [reflexivity|reflexivity|discriminate Hj].
Defined.

Lemma setups_run_in_feature_order_witness :
  List.filter FeatureSetup.isShell
    (FeatureSetup.setUpFeatures sampleConfig "/features" "fixture" "/tmp/work"
       ["first"; "second"] FeatureSetup.sampleAnswers).1
  = [FeatureSetup.Shell "/features/second" "/tmp/work" "./setup.sh"].
Proof.
  destruct (setups_run_in_feature_order sampleConfig "/features" "fixture"
              "/tmp/work" ["first"; "second"] FeatureSetup.sampleAnswers
              (setUpFeatures variablesFeatures)) as (_ & _ & Hshell);
    [reflexivity|].
  rewrite Hshell. reflexivity.
Defined.

Lemma setup_stops_at_the_first_failure_witness :
  let run :=
    FeatureSetup.setUpFeatures sampleConfig "/features" "fixture" "/tmp/work"
      ["first"; "second"; "third"; "fourth"] FeatureSetup.sampleAnswers in
  run.2
  = Threw (JsError "Could not find feature file for feature 'third' (defined in fixture 'fixture')")
  ∧ List.filter FeatureSetup.isExistsSync run.1
    = [FeatureSetup.ExistsSync "/features/first/main.feature";
       FeatureSetup.ExistsSync "/features/second/main.feature";
       FeatureSetup.ExistsSync "/features/third/main.feature"].
Proof.
  intros run.
  destruct (setup_stops_at_the_first_failure sampleConfig "/features"
              "fixture" "/tmp/work" ["first"; "second"] "third" ["fourth"]
              FeatureSetup.sampleAnswers
              (JsError "Could not find feature file for feature 'third' (defined in fixture 'fixture')"))
    as (Hthrown & Hexists & _).
  - intros [|[|j]] name Hj; [reflexivity|reflexivity|discriminate Hj].
  - reflexivity.
  - split; [exact Hthrown|exact Hexists].
Defined.
